(** * Event hub server: staffing, points and notification engine

    A shallow embedding of the request handlers of
    [supabase/functions/server/index.tsx].  The key-value store is a
    record of finite maps, one per key prefix.  A handler is a computation
    in a small state-and-error monad: it threads the store, answers
    [c.json(body)] or an error reply that ends it, and leaves a trace of
    what left the process ([kv.set] calls and delivery attempts, in program
    order).  The clock, the environment, date parsing and formatting and
    the outcome of every delivery are parameters, so every statement holds
    whatever the channels answer.

    Left out: console output, the 600 ms pauses between messages, message
    bodies other than the list of change lines, and the [catch] blocks
    (no modelled operation throws). *)

From Stdlib Require Import ZArith String Ascii List Lia Bool Sorted.
From stdpp Require Import base option list strings gmap pretty.
From stdpp Require Import sorting.

Local Open Scope Z_scope.

(** ** Data model (record shapes of the stored JSON values) *)

(** [level:<id>] records. *)
Module Level.
Record t := mk {
  id : string;
  name : string;
  minPoints : Z;
  order : Z
}.
End Level.

Inductive Role := Admin | StaffRole.

(** [user:<id>] records; the id is the key suffix. *)
Module Staff.
Record t := mk {
  email : string;
  name : string;
  phone : option string;
  telegramChatId : option string;
  telegramUsername : option string;
  points : Z;
  level : string;
  role : Role
}.

Definition with_points_level (p : Z) (l : string) (s : t) : t :=
  mk (email s) (name s) (phone s) (telegramChatId s) (telegramUsername s)
     p l (role s).
End Staff.

(** The [status] union of the [Event] interface, plus the ['upcoming']
    value that the reinstate handler writes. *)
Inductive Status := Draft | Open | Closed | Cancelled | Upcoming.

Global Instance Role_eq_dec : EqDecision Role.
Proof. solve_decision. Defined.

Global Instance Status_eq_dec : EqDecision Status.
Proof. solve_decision. Defined.

(** [event:<id>] records.  A field the interface marks optional, or that
    the handlers read through [x || default], is an [option]: [None] is a
    missing key. *)
Module Event.
Record t := mk {
  id : string;
  name : string;
  date : string;
  endDate : option string;
  time : string;
  duration : string;
  location : string;
  description : option string;
  notes : option string;
  points : Z;
  requiredLevel : string;
  status : option Status;
  signedUpStaff : option (list string);
  signUpTimestamps : option (gmap string string);
  confirmedStaff : option (list string);
  pointsAwarded : option (list string);
  hasBeenClosedBefore : option bool;
  createdAt : string
}.

(** [{...e, status: s}] and the other single-field spreads. *)
Definition with_status (s : Status) (e : t) : t :=
  mk (id e) (name e) (date e) (endDate e) (time e) (duration e) (location e)
     (description e) (notes e) (points e) (requiredLevel e) (Some s)
     (signedUpStaff e) (signUpTimestamps e) (confirmedStaff e)
     (pointsAwarded e) (hasBeenClosedBefore e) (createdAt e).

Definition with_signedUpStaff (l : list string) (e : t) : t :=
  mk (id e) (name e) (date e) (endDate e) (time e) (duration e) (location e)
     (description e) (notes e) (points e) (requiredLevel e) (status e)
     (Some l) (signUpTimestamps e) (confirmedStaff e)
     (pointsAwarded e) (hasBeenClosedBefore e) (createdAt e).

Definition with_signUpTimestamps (m : gmap string string) (e : t) : t :=
  mk (id e) (name e) (date e) (endDate e) (time e) (duration e) (location e)
     (description e) (notes e) (points e) (requiredLevel e) (status e)
     (signedUpStaff e) (Some m) (confirmedStaff e)
     (pointsAwarded e) (hasBeenClosedBefore e) (createdAt e).

Definition with_confirmedStaff (l : list string) (e : t) : t :=
  mk (id e) (name e) (date e) (endDate e) (time e) (duration e) (location e)
     (description e) (notes e) (points e) (requiredLevel e) (status e)
     (signedUpStaff e) (signUpTimestamps e) (Some l)
     (pointsAwarded e) (hasBeenClosedBefore e) (createdAt e).

Definition with_pointsAwarded (l : list string) (e : t) : t :=
  mk (id e) (name e) (date e) (endDate e) (time e) (duration e) (location e)
     (description e) (notes e) (points e) (requiredLevel e) (status e)
     (signedUpStaff e) (signUpTimestamps e) (confirmedStaff e)
     (Some l) (hasBeenClosedBefore e) (createdAt e).

Definition with_hasBeenClosedBefore (b : bool) (e : t) : t :=
  mk (id e) (name e) (date e) (endDate e) (time e) (duration e) (location e)
     (description e) (notes e) (points e) (requiredLevel e) (status e)
     (signedUpStaff e) (signUpTimestamps e) (confirmedStaff e)
     (pointsAwarded e) (Some b) (createdAt e).
End Event.

(** The JSON body of [PUT /events/:id]: any key of an event may be present
    or absent. *)
Module EventData.
Record t := mk {
  id : option string;
  name : option string;
  date : option string;
  endDate : option string;
  time : option string;
  duration : option string;
  location : option string;
  description : option string;
  notes : option string;
  points : option Z;
  requiredLevel : option string;
  status : option Status;
  signedUpStaff : option (list string);
  signUpTimestamps : option (gmap string string);
  confirmedStaff : option (list string);
  pointsAwarded : option (list string);
  hasBeenClosedBefore : option bool;
  createdAt : option string
}.
End EventData.

(** [adjustment:<id>] records. *)
Module Adjustment.
Record t := mk {
  id : string;
  staffId : string;
  points : Z;
  reason : string;
  timestamp : string;
  adminId : string;
  eventId : option string
}.
End Adjustment.

Record TelegramSettings := mkTelegramSettings {
  tg_connected : bool;
  botToken : option string
}.

Record WhatsAppSettings := mkWhatsAppSettings {
  wa_connected : bool;
  phoneNumberId : option string;
  accessToken : option string
}.

(** The key-value store, one table per key prefix. *)
Record Store := mkStore {
  events : gmap string Event.t;
  users : gmap string Staff.t;
  levels : list Level.t;
  adjustments : gmap string Adjustment.t;
  telegramSettings : option TelegramSettings;
  whatsappSettings : option WhatsAppSettings
}.

Definition set_events (f : gmap string Event.t -> gmap string Event.t)
    (st : Store) : Store :=
  mkStore (f (events st)) (users st) (levels st) (adjustments st)
          (telegramSettings st) (whatsappSettings st).

Definition set_users (f : gmap string Staff.t -> gmap string Staff.t)
    (st : Store) : Store :=
  mkStore (events st) (f (users st)) (levels st) (adjustments st)
          (telegramSettings st) (whatsappSettings st).

Definition set_adjustments
    (f : gmap string Adjustment.t -> gmap string Adjustment.t)
    (st : Store) : Store :=
  mkStore (events st) (users st) (levels st) (f (adjustments st))
          (telegramSettings st) (whatsappSettings st).

(** What leaves the process, in program order. *)
Inductive Channel := Email | Telegram | WhatsApp.

Inductive MsgKind :=
| Selected
| NotSelected
| EventUpdated (changes : list string)
| EventCancelled
| PointsEarned.

Inductive Effect :=
| KvSetEvent (key : string) (e : Event.t)
| KvSetUser (key : string) (s : Staff.t)
| KvSetAdjustment (key : string) (a : Adjustment.t)
| Deliver (ch : Channel) (staffId address : string) (kind : MsgKind)
          (ok : bool).

Global Instance Channel_eq_dec : EqDecision Channel.
Proof. solve_decision. Defined.

(** ** calculateLevel *)

Module LevelResolver.

(** [Array.prototype.sort] with a comparator: a stable sort.  [insertBy]
    puts [x] in front of the first element it does not have to follow, so
    elements the comparator cannot separate keep their input order. *)
Fixpoint insertBy {A} (cmp : A -> A -> Z) (x : A) (l : list A) : list A :=
  match l with
  | [] => [x]
  | y :: l' => if 0 <? cmp x y then y :: insertBy cmp x l' else x :: l
  end.

Fixpoint sortBy {A} (cmp : A -> A -> Z) (l : list A) : list A :=
  match l with
  | [] => []
  | x :: l' => insertBy cmp x (sortBy cmp l')
  end.

(** [(a, b) => b.minPoints - a.minPoints] *)
Definition byMinPointsDesc (a b : Level.t) : Z :=
  Level.minPoints b - Level.minPoints a.

(** [(a, b) => a.order - b.order] *)
Definition byOrderAsc (a b : Level.t) : Z := Level.order a - Level.order b.

(** [x || ''] on a string that may be missing. *)
Definition orEmpty (o : option string) : string :=
  match o with
  | Some s => s
  | None => EmptyString
  end.

(** [points >= level.minPoints] *)
Definition qualifies (points : Z) (level : Level.t) : bool :=
  Level.minPoints level <=? points.

(** [calculateLevel(points)], with [levels] the result of
    [kv.getByPrefix('level:')].  The second sort runs on the array the
    first one already sorted in place. *)
Definition calculateLevel (levels : list Level.t) (points : Z) : string :=
  match levels with
  | [] => EmptyString
  | _ =>
    let sortedLevels := sortBy byMinPointsDesc levels in
    match find (qualifies points) sortedLevels with
    | Some level => Level.name level
    | None =>
      let lowestLevel := head (sortBy byOrderAsc sortedLevels) in
      orEmpty (Level.name <$> lowestLevel)
    end
  end.

End LevelResolver.

(** ** The handlers *)

Module Server.

(** What a handler answers: [c.json(body)] or [c.json({ error }, code)]. *)
Inductive Reply (A : Type) :=
| Json (body : A)
| Error (code : Z) (error : string).
Arguments Json {A} body.
Arguments Error {A} code error.

(** A handler reads and writes the store and leaves a trace.  An error
    reply ends the handler ([return c.json(...)]); what was written before
    it stays written. *)
Definition M (A : Type) : Type := Store -> Reply A * Store * list Effect.

Global Instance M_ret : MRet M := fun A a st => (Json a, st, []).

Global Instance M_bind : MBind M := fun A B f m st =>
  match m st with
  | (Json a, st1, tr1) =>
    match f a st1 with
    | (r, st2, tr2) => (r, st2, tr1 ++ tr2)
    end
  | (Error code e, st1, tr1) => (Error code e, st1, tr1)
  end.

Definition fail {A} (code : Z) (error : string) : M A :=
  fun st => (Error code error, st, []).

Definition getStore : M Store := fun st => (Json st, st, []).

Definition emit (x : Effect) : M unit := fun st => (Json tt, st, [x]).

(** [kv.get] and [kv.set] on the three record tables. *)
Definition kvGetEvent (id : string) : M (option Event.t) :=
  st ← getStore; mret (events st !! id).

Definition kvGetUser (id : string) : M (option Staff.t) :=
  st ← getStore; mret (users st !! id).

Definition kvSetEvent (id : string) (e : Event.t) : M unit :=
  fun st => (Json tt, set_events <[id := e]> st, [KvSetEvent id e]).

Definition kvSetUser (id : string) (s : Staff.t) : M unit :=
  fun st => (Json tt, set_users <[id := s]> st, [KvSetUser id s]).

Definition kvSetAdjustment (id : string) (a : Adjustment.t) : M unit :=
  fun st => (Json tt, set_adjustments <[id := a]> st, [KvSetAdjustment id a]).

Fixpoint forEach {A} (l : list A) (body : A -> M unit) : M unit :=
  match l with
  | [] => mret tt
  | x :: l' => body x ;; forEach l' body
  end.

(** The result of [verifyAuth]. *)
Inductive Auth := Authenticated (userId : string) | AuthFailed (error : string).

Definition requireAuth (a : Auth) : M string :=
  match a with
  | Authenticated userId => mret userId
  | AuthFailed error => fail 401 error
  end.

Definition requireAdmin (userId : string) : M unit :=
  userData ← kvGetUser userId;
  match userData with
  | Some u =>
    if decide (Staff.role u = Admin) then mret tt
    else fail 403 "Admin access required"
  | None => fail 403 "Admin access required"
  end.

(** [!s] on a string: only the empty string is falsy. *)
Definition isEmpty (s : string) : bool := String.eqb s EmptyString.

(** [a || b] on two strings that may be missing. *)
Definition orString (a b : option string) : option string :=
  match a with
  | Some s => if isEmpty s then b else Some s
  | None => b
  end.

Definition isDigit (c : ascii) : bool :=
  (48 <=? nat_of_ascii c)%nat && (nat_of_ascii c <=? 57)%nat.

(** [/^\d+$/.test(s)] *)
Definition isNumeric (s : string) : bool :=
  negb (isEmpty s) && forallb isDigit (list_ascii_of_string s).

(** What the handlers take from outside the store. *)
Record Env := mkEnv {
  (** [Deno.env.get('RESEND_API_KEY')] *)
  resendApiKey : option string;
  (** [Date.now()] *)
  now : Z;
  (** [new Date(s).getTime()], [None] for an invalid date *)
  parseDate : string -> option Z;
  (** [new Date(ms).toISOString()] *)
  toISOString : Z -> string;
  (** [new Date(d).toLocaleDateString('en-US', ...)] *)
  toLocaleDateString : string -> string;
  (** [s.trim() === ''] *)
  trimIsEmpty : string -> bool;
  (** whether the Bot API accepts a message for a chat id *)
  telegramDelivers : string -> bool;
  (** whether the mail API accepts a message for an address *)
  emailDelivers : string -> bool
}.

Definition FROM_EMAIL : string := "onboarding@resend.dev".

Section Handlers.

Variable env : Env.

(** [sendTelegramMessage]: its result.  Nothing is posted for a chat id
    that is not numeric or when no bot token is stored. *)
Definition telegramResult (st : Store) (chatId : string) : bool :=
  if negb (isNumeric chatId) then false
  else
    match telegramSettings st with
    | None => false
    | Some ts =>
      match botToken ts with
      | None => false
      | Some tok => if isEmpty tok then false else telegramDelivers env chatId
      end
    end.

Definition sendTelegramMessage (chatId : string) : M bool :=
  st ← getStore; mret (telegramResult st chatId).

(** [sendEmail]: the address written to and the result, or [None] when no
    request is made. *)
Definition sendEmail (to : string) : option (string * bool) :=
  match resendApiKey env with
  | None => None
  | Some key =>
    if isEmpty key then None
    else
      let isTestMode := String.eqb FROM_EMAIL "onboarding@resend.dev" in
      let actualRecipient :=
        if isTestMode then "delivered@resend.dev" else to in
      Some (actualRecipient, emailDelivers env actualRecipient)
  end.

(** [!chatId || chatId.trim() === ''] *)
Definition noChatId (chatId : option string) : bool :=
  match chatId with
  | None => true
  | Some s => isEmpty s || trimIsEmpty env s
  end.

(** The body of every Telegram loop, from the chat id check on. *)
Definition telegramOne (kind : MsgKind) (staffId : string) (staff : Staff.t)
    : M unit :=
  let chatId := orString (Staff.telegramChatId staff)
                         (Staff.telegramUsername staff) in
  if noChatId chatId then mret tt
  else
    let chatId := default EmptyString chatId in
    telegramResult ← sendTelegramMessage chatId;
    emit (Deliver Telegram staffId chatId kind telegramResult).

(** A Telegram loop over staff ids: a missing record is skipped. *)
Definition telegramToIds (kind : MsgKind) (ids : list string) : M unit :=
  forEach ids (fun staffId =>
    staff ← kvGetUser staffId;
    match staff with
    | None => mret tt
    | Some staff => telegramOne kind staffId staff
    end).

(** [telegramSettings && telegramSettings.connected] *)
Definition telegramConnected (st : Store) : bool :=
  match telegramSettings st with
  | Some ts => tg_connected ts
  | None => false
  end.

(** [l.includes(x)] *)
Definition includes (l : list string) (x : string) : bool :=
  bool_decide (x ∈ l).

(** [l.filter(id => !other.includes(id))] *)
Definition without (l other : list string) : list string :=
  filter (fun id => negb (includes other id) = true) l.

(** [calculateLevel] reads the level table on every call. *)
Definition calculateLevelM (points : Z) : M string :=
  st ← getStore; mret (LevelResolver.calculateLevel (levels st) points).

(** *** POST /signups *)
Definition signup (auth : Auth) (eventId : string) : M Event.t :=
  userId ← requireAuth auth;
  if isEmpty eventId then fail 400 "Event ID is required"
  else
    event ← kvGetEvent eventId;
    match event with
    | None => fail 404 "Event not found"
    | Some event =>
      if match Event.signedUpStaff event with
         | Some l => includes l userId
         | None => false
         end
      then fail 400 "Already signed up for this event"
      else
        let eventDate :=
          parseDate env (Event.date event +:+ "T" +:+ Event.time event) in
        if match eventDate with
           | Some t => t <? now env
           | None => false
           end
        then fail 400 "Cannot sign up for past events"
        else
          let signUpTimestamp := toISOString env (now env) in
          let updatedEvent :=
            Event.with_signUpTimestamps
              (<[userId := signUpTimestamp]>
                 (default ∅ (Event.signUpTimestamps event)))
              (Event.with_signedUpStaff
                 (default [] (Event.signedUpStaff event) ++ [userId]) event) in
          kvSetEvent eventId updatedEvent ;;
          mret updatedEvent
    end.

(** *** DELETE /signups/:eventId *)
Definition cancelSignup (auth : Auth) (eventId : string) : M Event.t :=
  userId ← requireAuth auth;
  event ← kvGetEvent eventId;
  match event with
  | None => fail 404 "Event not found"
  | Some event =>
    let signUpTimestamps :=
      delete userId (default ∅ (Event.signUpTimestamps event)) in
    let updatedEvent :=
      Event.with_signUpTimestamps signUpTimestamps
        (Event.with_signedUpStaff
           (filter (fun id => id ≠ userId)
                   (default [] (Event.signedUpStaff event))) event) in
    kvSetEvent eventId updatedEvent ;;
    mret updatedEvent
  end.

(** *** POST /signups/admin *)
Definition adminSignup (auth : Auth) (eventId : string)
    (staffIds : list string) : M (Event.t * nat) :=
  userId ← requireAuth auth;
  requireAdmin userId ;;
  if isEmpty eventId then fail 400 "Event ID and staff IDs are required"
  else
    event ← kvGetEvent eventId;
    match event with
    | None => fail 404 "Event not found"
    | Some event =>
      if bool_decide (Event.status event = Some Cancelled)
      then fail 400 "Cannot sign up staff for cancelled events"
      else
        let signUpTimestamp := toISOString env (now env) in
        let currentSignedUp := default [] (Event.signedUpStaff event) in
        let currentTimestamps := default ∅ (Event.signUpTimestamps event) in
        let newStaffIds := without staffIds currentSignedUp in
        match newStaffIds with
        | [] => fail 400 "All selected staff are already signed up"
        | _ =>
          let newTimestamps :=
            foldl (fun m staffId => <[staffId := signUpTimestamp]> m)
                  currentTimestamps newStaffIds in
          let updatedEvent :=
            Event.with_signUpTimestamps newTimestamps
              (Event.with_signedUpStaff (currentSignedUp ++ newStaffIds)
                 event) in
          kvSetEvent eventId updatedEvent ;;
          mret (updatedEvent, length newStaffIds)
        end
    end.

(** *** POST /events/:id/reinstate *)
Definition reinstateEvent (auth : Auth) (eventId : string) : M Event.t :=
  userId ← requireAuth auth;
  requireAdmin userId ;;
  existingEvent ← kvGetEvent eventId;
  match existingEvent with
  | None => fail 404 "Event not found"
  | Some existingEvent =>
    let reinstatedEvent := Event.with_status Upcoming existingEvent in
    kvSetEvent eventId reinstatedEvent ;;
    mret reinstatedEvent
  end.

(** *** POST /events/:id/cancel *)

(** The e-mail step of the cancellation loop: a request is made only when
    the API key is set. *)
Definition cancelEmailOne (u : string * Staff.t) : M unit :=
  match resendApiKey env with
  | None => mret tt
  | Some key =>
    if isEmpty key then mret tt
    else emit (Deliver Email u.1 (Staff.email u.2) EventCancelled
                       (emailDelivers env (Staff.email u.2)))
  end.

Definition cancelEvent (auth : Auth) (eventId : string) : M Event.t :=
  userId ← requireAuth auth;
  requireAdmin userId ;;
  existingEvent ← kvGetEvent eventId;
  match existingEvent with
  | None => fail 404 "Event not found"
  | Some existingEvent =>
    let cancelledEvent := Event.with_status Cancelled existingEvent in
    kvSetEvent eventId cancelledEvent ;;
    match Event.signedUpStaff cancelledEvent with
    | Some (s :: rest) =>
      let signedUpStaff := s :: rest in
      st ← getStore;
      (* kv.getByPrefix('user:'): [u.1] is [u.id], the key suffix *)
      let allUsers := map_to_list (users st) in
      let participatingStaff :=
        filter (fun u => includes signedUpStaff u.1 = true) allUsers in
      forEach participatingStaff cancelEmailOne ;;
      st ← getStore;
      (if telegramConnected st
       then forEach participatingStaff
                    (fun u => telegramOne EventCancelled u.1 u.2)
       else mret tt) ;;
      let cancelledEvent := Event.with_signedUpStaff [] cancelledEvent in
      kvSetEvent eventId cancelledEvent ;;
      mret cancelledEvent
    | _ => mret cancelledEvent
    end
  end.

(** *** POST /events/close *)

(** [newlySelected] and [newlyDeselected] of the close handler. *)
Definition newlySelected (event : Event.t) (approvedStaffIds : list string)
    : list string :=
  let previouslyConfirmedStaff := default [] (Event.confirmedStaff event) in
  let wasClosedBefore := default false (Event.hasBeenClosedBefore event) in
  if wasClosedBefore
  then without approvedStaffIds previouslyConfirmedStaff
  else approvedStaffIds.

Definition newlyDeselected (event : Event.t) (approvedStaffIds : list string)
    : list string :=
  let signedUpStaffIds := default [] (Event.signedUpStaff event) in
  let rejectedStaffIds := without signedUpStaffIds approvedStaffIds in
  let previouslyConfirmedStaff := default [] (Event.confirmedStaff event) in
  let wasClosedBefore := default false (Event.hasBeenClosedBefore event) in
  if wasClosedBefore
  then filter (fun id => includes previouslyConfirmedStaff id
                         && negb (includes approvedStaffIds id) = true)
              signedUpStaffIds
  else rejectedStaffIds.

Definition closeEvent (auth : Auth) (eventId : string)
    (approvedStaffIds : list string) : M Event.t :=
  userId ← requireAuth auth;
  requireAdmin userId ;;
  if isEmpty eventId then fail 400 "Event ID is required"
  else
    event ← kvGetEvent eventId;
    match event with
    | None => fail 404 "Event not found"
    | Some event =>
      let updatedEvent :=
        Event.with_hasBeenClosedBefore true
          (Event.with_status Closed
             (Event.with_confirmedStaff approvedStaffIds event)) in
      kvSetEvent eventId updatedEvent ;;
      st ← getStore;
      (if telegramConnected st
       then telegramToIds Selected (newlySelected event approvedStaffIds) ;;
            telegramToIds NotSelected (newlyDeselected event approvedStaffIds)
       else mret tt) ;;
      mret updatedEvent
    end.

(** *** POST /participation/confirm *)

Record ConfirmResult := mkConfirmResult {
  cr_staff : Staff.t;
  cr_event : Event.t;
  cr_adjustment : Adjustment.t;
  cr_leveledUp : bool
}.

Definition completedReason (event : Event.t) : string :=
  "Completed Event: " +:+ Event.name event.

Definition confirmOne (auth : Auth) (eventId staffId : string)
    : M ConfirmResult :=
  userId ← requireAuth auth;
  requireAdmin userId ;;
  if isEmpty eventId || isEmpty staffId
  then fail 400 "Event ID and staff ID are required"
  else
    event ← kvGetEvent eventId;
    match event with
    | None => fail 404 "Event not found"
    | Some event =>
      staff ← kvGetUser staffId;
      match staff with
      | None => fail 404 "Staff member not found"
      | Some staff =>
        let pointsAwarded := default [] (Event.pointsAwarded event) in
        if includes pointsAwarded staffId
        then fail 400 "Points already awarded to this staff member"
        else
          let confirmedStaff := default [] (Event.confirmedStaff event) in
          if negb (includes confirmedStaff staffId)
          then fail 400 "Staff member was not selected for this event"
          else
            let oldLevel := Staff.level staff in
            let newPoints := Staff.points staff + Event.points event in
            newLevel ← calculateLevelM newPoints;
            let updatedStaff :=
              Staff.with_points_level newPoints newLevel staff in
            kvSetUser staffId updatedStaff ;;
            let updatedEvent :=
              Event.with_pointsAwarded (pointsAwarded ++ [staffId]) event in
            kvSetEvent eventId updatedEvent ;;
            let adjustmentId := pretty (now env) in
            let adjustment :=
              Adjustment.mk adjustmentId staffId (Event.points event)
                (completedReason event) (toISOString env (now env))
                userId (Some eventId) in
            kvSetAdjustment adjustmentId adjustment ;;
            match sendEmail (Staff.email staff) with
            | Some (address, ok) =>
              emit (Deliver Email staffId address PointsEarned ok)
            | None => mret tt
            end ;;
            mret (mkConfirmResult updatedStaff updatedEvent adjustment
                    (negb (String.eqb oldLevel newLevel)))
      end
    end.

(** *** POST /participation/confirm-all *)

Record LevelUp := mkLevelUp {
  lu_staffId : string;
  lu_name : string;
  lu_oldLevel : string;
  lu_newLevel : string
}.

Record ConfirmAllResult := mkConfirmAllResult {
  ca_event : Event.t;
  ca_confirmedCount : nat;
  ca_staffList : list Staff.t;
  ca_adjustments : list Adjustment.t;
  ca_levelUps : list LevelUp
}.

(** The [for (const staffId of staffToConfirm)] loop, with the three
    arrays it pushes to. *)
Fixpoint awardLoop (event : Event.t) (eventId userId : string)
    (staffToConfirm : list string)
    (acc : list Staff.t * list Adjustment.t * list LevelUp)
    : M (list Staff.t * list Adjustment.t * list LevelUp) :=
  match staffToConfirm with
  | [] => mret acc
  | staffId :: rest =>
    staff ← kvGetUser staffId;
    match staff with
    | None => awardLoop event eventId userId rest acc
    | Some staff =>
      let oldLevel := Staff.level staff in
      let newPoints := Staff.points staff + Event.points event in
      newLevel ← calculateLevelM newPoints;
      let updatedStaff := Staff.with_points_level newPoints newLevel staff in
      kvSetUser staffId updatedStaff ;;
      let adjustmentId := pretty (now env) +:+ "-" +:+ staffId in
      let adjustment :=
        Adjustment.mk adjustmentId staffId (Event.points event)
          (completedReason event) (toISOString env (now env))
          userId (Some eventId) in
      kvSetAdjustment adjustmentId adjustment ;;
      let levelUps :=
        if negb (String.eqb oldLevel newLevel)
        then acc.2 ++ [mkLevelUp staffId (Staff.name staff) oldLevel newLevel]
        else acc.2 in
      awardLoop event eventId userId rest
        (acc.1.1 ++ [updatedStaff], acc.1.2 ++ [adjustment], levelUps)
    end
  end.

Definition confirmAll (auth : Auth) (eventId : string) : M ConfirmAllResult :=
  userId ← requireAuth auth;
  requireAdmin userId ;;
  if isEmpty eventId then fail 400 "Event ID is required"
  else
    event ← kvGetEvent eventId;
    match event with
    | None => fail 404 "Event not found"
    | Some event =>
      let confirmedStaff := default [] (Event.confirmedStaff event) in
      let pointsAwarded := default [] (Event.pointsAwarded event) in
      let staffToConfirm := without confirmedStaff pointsAwarded in
      match staffToConfirm with
      | [] => fail 400 "No staff members awaiting point confirmation"
      | _ =>
        acc ← awardLoop event eventId userId staffToConfirm ([], [], []);
        let updatedEvent :=
          Event.with_pointsAwarded (pointsAwarded ++ staffToConfirm) event in
        kvSetEvent eventId updatedEvent ;;
        mret (mkConfirmAllResult updatedEvent (length staffToConfirm)
                acc.1.1 acc.1.2 acc.2)
      end
    end.

(** *** PUT /events/:id *)

(** [{...existingEvent, ...eventData, id, signedUpStaff, confirmedStaff,
    hasBeenClosedBefore, createdAt}] *)
Definition spread {A} (new old : option A) : option A :=
  match new with
  | Some v => Some v
  | None => old
  end.

Definition mergeEvent (eventId : string) (existingEvent : Event.t)
    (eventData : EventData.t) : Event.t :=
  Event.mk
    eventId
    (default (Event.name existingEvent) (EventData.name eventData))
    (default (Event.date existingEvent) (EventData.date eventData))
    (spread (EventData.endDate eventData) (Event.endDate existingEvent))
    (default (Event.time existingEvent) (EventData.time eventData))
    (default (Event.duration existingEvent) (EventData.duration eventData))
    (default (Event.location existingEvent) (EventData.location eventData))
    (spread (EventData.description eventData)
            (Event.description existingEvent))
    (spread (EventData.notes eventData) (Event.notes existingEvent))
    (default (Event.points existingEvent) (EventData.points eventData))
    (default (Event.requiredLevel existingEvent)
             (EventData.requiredLevel eventData))
    (spread (EventData.status eventData) (Event.status existingEvent))
    (Event.signedUpStaff existingEvent)
    (spread (EventData.signUpTimestamps eventData)
            (Event.signUpTimestamps existingEvent))
    (Event.confirmedStaff existingEvent)
    (spread (EventData.pointsAwarded eventData)
            (Event.pointsAwarded existingEvent))
    (Event.hasBeenClosedBefore existingEvent)
    (Event.createdAt existingEvent).

Definition quoted (s : string) : string :=
  String "034" (s +:+ String "034" EmptyString).

(** One optional line of the [changes] array. *)
Definition changeLine {A} `{EqDecision A} (old new : A) (line : string)
    : list string :=
  if decide (old ≠ new) then [line] else [].

(** The [changes] array. *)
Definition diffFields (existingEvent updatedEvent : Event.t) : list string :=
  changeLine (Event.name existingEvent) (Event.name updatedEvent)
    ("Name: " +:+ quoted (Event.name existingEvent) +:+ " → "
       +:+ quoted (Event.name updatedEvent))
  ++ changeLine (Event.date existingEvent) (Event.date updatedEvent)
    ("Date: " +:+ toLocaleDateString env (Event.date existingEvent) +:+ " → "
       +:+ toLocaleDateString env (Event.date updatedEvent))
  ++ changeLine (Event.time existingEvent) (Event.time updatedEvent)
    ("Time: " +:+ Event.time existingEvent +:+ " → "
       +:+ Event.time updatedEvent)
  ++ changeLine (Event.location existingEvent) (Event.location updatedEvent)
    ("Location: " +:+ quoted (Event.location existingEvent) +:+ " → "
       +:+ quoted (Event.location updatedEvent))
  ++ changeLine (Event.duration existingEvent) (Event.duration updatedEvent)
    ("Duration: " +:+ Event.duration existingEvent +:+ " → "
       +:+ Event.duration updatedEvent)
  ++ changeLine (Event.points existingEvent) (Event.points updatedEvent)
    ("Points: " +:+ pretty (Event.points existingEvent) +:+ " → "
       +:+ pretty (Event.points updatedEvent))
  ++ changeLine (Event.requiredLevel existingEvent)
                (Event.requiredLevel updatedEvent)
    ("Required Level: " +:+ Event.requiredLevel existingEvent +:+ " → "
       +:+ Event.requiredLevel updatedEvent)
  ++ changeLine (Event.description existingEvent)
                (Event.description updatedEvent)
    "Description updated"
  ++ changeLine (Event.notes existingEvent) (Event.notes updatedEvent)
    "Notes updated".

(** [staffToNotify], from [eventStatus] and the saved event. *)
Definition staffToNotify (eventStatus : Status) (updatedEvent : Event.t)
    : list string :=
  match eventStatus with
  | Open => default [] (Event.signedUpStaff updatedEvent)
  | Closed => default [] (Event.confirmedStaff updatedEvent)
  | _ => []
  end.

Definition updateEvent (auth : Auth) (eventId : string)
    (eventData : EventData.t) : M Event.t :=
  userId ← requireAuth auth;
  requireAdmin userId ;;
  existingEvent ← kvGetEvent eventId;
  match existingEvent with
  | None => fail 404 "Event not found"
  | Some existingEvent =>
    let updatedEvent := mergeEvent eventId existingEvent eventData in
    kvSetEvent eventId updatedEvent ;;
    let eventStatus := default Open (Event.status updatedEvent) in
    (if bool_decide (eventStatus ≠ Draft)
     then
       let oldConfirmedStaff :=
         default [] (Event.confirmedStaff existingEvent) in
       let newConfirmedStaff :=
         default [] (Event.confirmedStaff updatedEvent) in
       let newlySelected := without newConfirmedStaff oldConfirmedStaff in
       let newlyDeselected := without oldConfirmedStaff newConfirmedStaff in
       let hasSelectionChanges :=
         (0 <? length newlySelected)%nat || (0 <? length newlyDeselected)%nat in
       (if hasSelectionChanges
        then
          st ← getStore;
          if telegramConnected st
          then telegramToIds Selected newlySelected ;;
               telegramToIds NotSelected newlyDeselected
          else mret tt
        else mret tt) ;;
       let changes := diffFields existingEvent updatedEvent in
       if (0 <? length changes)%nat
       then
         let staffToNotify := staffToNotify eventStatus updatedEvent in
         if (0 <? length staffToNotify)%nat
         then
           st ← getStore;
           if telegramConnected st
           then telegramToIds (EventUpdated changes) staffToNotify
           else mret tt
         else mret tt
       else mret tt
     else mret tt) ;;
    mret updatedEvent
  end.

End Handlers.

End Server.

(** ** Reading stores and traces *)

Module Observe.
Import Server.

(** The caller passes [requireAdmin]. *)
Definition isAdmin (st : Store) (userId : string) : Prop :=
  ∃ u, users st !! userId = Some u ∧ Staff.role u = Admin.

(** The delivery attempts of a trace: channel, staff id and kind. *)
Definition attempts (tr : list Effect) : list (Channel * string * MsgKind) :=
  omap (fun x =>
          match x with
          | Deliver ch staffId _ kind _ => Some (ch, staffId, kind)
          | _ => None
          end) tr.

(** The store writes of a trace. *)
Definition isWrite (x : Effect) : bool :=
  match x with
  | Deliver _ _ _ _ _ => false
  | _ => true
  end.

(** The staff id has a record with a chat id the Telegram loops accept. *)
Definition hasChatId (env : Env) (staff : Staff.t) : bool :=
  negb (noChatId env (orString (Staff.telegramChatId staff)
                               (Staff.telegramUsername staff))).

Definition telegramReachable (env : Env) (st : Store) (staffId : string)
    : bool :=
  match users st !! staffId with
  | Some staff => hasChatId env staff
  | None => false
  end.

(** What one pass of a Telegram loop leaves in the trace. *)
Definition telegramOut (env : Env) (st : Store) (kind : MsgKind)
    (staffId : string) (staff : Staff.t) : list Effect :=
  let chatId := orString (Staff.telegramChatId staff)
                         (Staff.telegramUsername staff) in
  if noChatId env chatId then []
  else [Deliver Telegram staffId (default EmptyString chatId) kind
                (telegramResult env st (default EmptyString chatId))].

Definition telegramOutId (env : Env) (st : Store) (kind : MsgKind)
    (staffId : string) : list Effect :=
  match users st !! staffId with
  | Some staff => telegramOut env st kind staffId staff
  | None => []
  end.

(** What the e-mail step of the cancellation loop leaves in the trace. *)
Definition cancelEmailOut (env : Env) (u : string * Staff.t) : list Effect :=
  match resendApiKey env with
  | None => []
  | Some key =>
    if isEmpty key then []
    else [Deliver Email u.1 (Staff.email u.2) EventCancelled
                  (emailDelivers env (Staff.email u.2))]
  end.

(** The three lists of an event, with [x || []]. *)
Definition signedUp (e : Event.t) : list string :=
  default [] (Event.signedUpStaff e).
Definition confirmed (e : Event.t) : list string :=
  default [] (Event.confirmedStaff e).
Definition awarded (e : Event.t) : list string :=
  default [] (Event.pointsAwarded e).

(** How many of the nine compared fields differ between two snapshots. *)
Definition differs {A} `{EqDecision A} (old new : A) : nat :=
  if decide (old ≠ new) then 1%nat else 0%nat.

Definition differingFields (old new : Event.t) : nat :=
  (differs (Event.name old) (Event.name new)
   + differs (Event.date old) (Event.date new)
   + differs (Event.time old) (Event.time new)
   + differs (Event.location old) (Event.location new)
   + differs (Event.duration old) (Event.duration new)
   + differs (Event.points old) (Event.points new)
   + differs (Event.requiredLevel old) (Event.requiredLevel new)
   + differs (Event.description old) (Event.description new)
   + differs (Event.notes old) (Event.notes new))%nat.

(** A channel is set up: the mail API key is present, or the stored
    settings of the channel say [connected]. *)
Definition channelConfigured (env : Env) (st : Store) (ch : Channel) : bool :=
  match ch with
  | Email =>
    match resendApiKey env with
    | Some key => negb (isEmpty key)
    | None => false
    end
  | Telegram => telegramConnected st
  | WhatsApp =>
    match whatsappSettings st with
    | Some ws => wa_connected ws
    | None => false
    end
  end.

End Observe.

(** ** Sequences of requests *)

Module Engine.
Import Server Observe.

Inductive Call :=
| Signup (auth : Auth) (eventId : string)
| CancelSignup (auth : Auth) (eventId : string)
| AdminSignup (auth : Auth) (eventId : string) (staffIds : list string)
| UpdateEvent (auth : Auth) (eventId : string) (eventData : EventData.t)
| CancelEvent (auth : Auth) (eventId : string)
| ReinstateEvent (auth : Auth) (eventId : string)
| CloseEvent (auth : Auth) (eventId : string) (approvedStaffIds : list string)
| ConfirmOne (auth : Auth) (eventId staffId : string)
| ConfirmAll (auth : Auth) (eventId : string).

(** The store a request leaves behind. *)
Definition step (env : Env) (c : Call) (st : Store) : Store :=
  match c with
  | Signup auth eventId => (signup env auth eventId st).1.2
  | CancelSignup auth eventId => (cancelSignup auth eventId st).1.2
  | AdminSignup auth eventId staffIds =>
    (adminSignup env auth eventId staffIds st).1.2
  | UpdateEvent auth eventId eventData =>
    (updateEvent env auth eventId eventData st).1.2
  | CancelEvent auth eventId => (cancelEvent env auth eventId st).1.2
  | ReinstateEvent auth eventId => (reinstateEvent auth eventId st).1.2
  | CloseEvent auth eventId approvedStaffIds =>
    (closeEvent env auth eventId approvedStaffIds st).1.2
  | ConfirmOne auth eventId staffId =>
    (confirmOne env auth eventId staffId st).1.2
  | ConfirmAll auth eventId => (confirmAll env auth eventId st).1.2
  end.

(** Requests are served one after the other. *)
Definition run (env : Env) (calls : list Call) (st : Store) : Store :=
  foldl (fun st c => step env c st) st calls.

Definition isAward (c : Call) : Prop :=
  match c with
  | ConfirmOne _ _ _ | ConfirmAll _ _ => True
  | _ => False
  end.

(** No event lists a staff id twice in [pointsAwarded]. *)
Definition awardedOnce (st : Store) : Prop :=
  ∀ id e, events st !! id = Some e → NoDup (awarded e).

(** No event lists a staff id twice in [confirmedStaff]. *)
Definition confirmedOnce (st : Store) : Prop :=
  ∀ id e, events st !! id = Some e → NoDup (confirmed e).

(** [pointsAwarded ⊆ confirmedStaff] on every event. *)
Definition awardedAreConfirmed (st : Store) : Prop :=
  ∀ id e, events st !! id = Some e → awarded e ⊆ confirmed e.

(** A request that does not take an awarded staff member out of
    [confirmedStaff] and does not overwrite [pointsAwarded]. *)
Definition keepsAwarded (st : Store) (c : Call) : Prop :=
  match c with
  | CloseEvent _ eventId approvedStaffIds =>
    ∀ e, events st !! eventId = Some e → awarded e ⊆ approvedStaffIds
  | UpdateEvent _ _ eventData => EventData.pointsAwarded eventData = None
  | _ => True
  end.

(** How a request changes the event table: not at all, or by replacing
    the event [e] stored under [eventId] with an [e'] related to it by
    [R]. *)
Definition eventStep (eventId : string) (R : Event.t -> Event.t -> Prop)
    (st st' : Store) : Prop :=
  events st' = events st ∨
  ∃ e e', events st !! eventId = Some e ∧
          events st' = <[eventId := e']> (events st) ∧ R e e'.

(** The two lists the award invariants read are untouched. *)
Definition frame (e e' : Event.t) : Prop :=
  Event.pointsAwarded e' = Event.pointsAwarded e ∧
  Event.confirmedStaff e' = Event.confirmedStaff e.

End Engine.

(** ** A small deployment used in the examples *)

Module Fixture.
Import Server.

Definition isSpaces (s : string) : bool :=
  forallb (fun c => Ascii.eqb c " ") (list_ascii_of_string s).

(** The clock reads 1000; two date strings parse. *)
Definition env0 : Env :=
  mkEnv (Some "re_key") 1000
        (fun s => if String.eqb s "2030-01-01T10:00" then Some 5000
                  else if String.eqb s "2020-01-01T10:00" then Some 10
                  else None)
        (fun ms => pretty ms) (fun d => d) isSpaces
        (fun _ => true) (fun _ => false).

Definition levels0 : list Level.t :=
  [Level.mk "l1" "Bronze" 0 1; Level.mk "l2" "Silver" 100 2;
   Level.mk "l3" "Gold" 300 3].

Definition adm : Staff.t :=
  Staff.mk "admin@hub" "Admin" None None None 0 "Bronze" Admin.
Definition staffA : Staff.t :=
  Staff.mk "a@hub" "A" None (Some "111") None 0 "Bronze" StaffRole.
Definition staffB : Staff.t :=
  Staff.mk "b@hub" "B" None None (Some "222") 80 "Bronze" StaffRole.
Definition staffC : Staff.t :=
  Staff.mk "c@hub" "C" None (Some "333") None 0 "Bronze" StaffRole.
Definition staffD : Staff.t :=
  Staff.mk "d@hub" "D" (Some "+15550100") None None 0 "Bronze" StaffRole.

Definition mkEv (id date : string) (st : option Status)
    (signedUpStaff confirmedStaff pointsAwarded : option (list string))
    (closedBefore : option bool) : Event.t :=
  Event.mk id "Workshop" date None "10:00" "2h" "Hall" None None 50
           "Bronze" st signedUpStaff None confirmedStaff pointsAwarded
           closedBefore "2025-01-01T00:00:00.000Z".

(** open, three sign-ups, never closed *)
Definition evOpen : Event.t :=
  mkEv "e1" "2030-01-01" (Some Open) (Some ["a"; "b"; "c"]) None None None.
(** closed once with a and b; a already has the points *)
Definition evClosed : Event.t :=
  mkEv "e2" "2030-01-01" (Some Closed) (Some ["a"; "b"; "c"])
       (Some ["a"; "b"]) (Some ["a"]) (Some true).
(** cancelled, in the future, sign-ups purged *)
Definition evCancelled : Event.t :=
  mkEv "e4" "2030-01-01" (Some Cancelled) (Some []) None None None.
(** open, in the past *)
Definition evPast : Event.t :=
  mkEv "e5" "2020-01-01" (Some Open) (Some ["b"]) None None None.
(** open, the only sign-up has a phone number and no chat id *)
Definition evPhone : Event.t :=
  mkEv "e6" "2030-01-01" (Some Open) (Some ["d"]) None None None.

Definition st0 : Store :=
  mkStore
    (list_to_map [("e1", evOpen); ("e2", evClosed); ("e4", evCancelled);
                  ("e5", evPast); ("e6", evPhone)])
    (list_to_map [("adm", adm); ("a", staffA); ("b", staffB); ("c", staffC);
                  ("d", staffD)])
    levels0 ∅
    (Some (mkTelegramSettings true (Some "bot-token")))
    (Some (mkWhatsAppSettings true (Some "pn-1") (Some "wa-token"))).

(** Request bodies: one that tries to overwrite the membership fields, one
    that moves the event, one that repeats what is stored. *)
Definition dataOverride : EventData.t :=
  EventData.mk None (Some "Renamed") None None None None None None None None
               None None (Some ["zzz"]) None (Some ["zzz"]) None (Some false)
               (Some "1999-01-01T00:00:00.000Z").

Definition dataLocation : EventData.t :=
  EventData.mk None None None None None None (Some "Barn") None None None
               None None None None None None None None.

Definition dataSame : EventData.t :=
  EventData.mk None (Some "Workshop") (Some "2030-01-01") None (Some "10:00")
               (Some "2h") (Some "Hall") None None (Some 50) (Some "Bronze")
               (Some Open) None None None None None None.

End Fixture.

(** ** Requests seen from outside *)

Module Requests.
Import Server Observe Engine.

(** The HTTP status of a reply. *)
Definition code {A} (r : Reply A) : Z :=
  match r with
  | Json _ => 200
  | Error c _ => c
  end.

(** Status, store and trace of a request, whatever its body type. *)
Definition outcome (env : Env) (c : Call) (st : Store)
    : Z * Store * list Effect :=
  match c with
  | Signup auth eventId =>
    let '(r, st', tr) := signup env auth eventId st in (code r, st', tr)
  | CancelSignup auth eventId =>
    let '(r, st', tr) := cancelSignup auth eventId st in (code r, st', tr)
  | AdminSignup auth eventId staffIds =>
    let '(r, st', tr) := adminSignup env auth eventId staffIds st in
    (code r, st', tr)
  | UpdateEvent auth eventId eventData =>
    let '(r, st', tr) := updateEvent env auth eventId eventData st in
    (code r, st', tr)
  | CancelEvent auth eventId =>
    let '(r, st', tr) := cancelEvent env auth eventId st in (code r, st', tr)
  | ReinstateEvent auth eventId =>
    let '(r, st', tr) := reinstateEvent auth eventId st in (code r, st', tr)
  | CloseEvent auth eventId approvedStaffIds =>
    let '(r, st', tr) := closeEvent env auth eventId approvedStaffIds st in
    (code r, st', tr)
  | ConfirmOne auth eventId staffId =>
    let '(r, st', tr) := confirmOne env auth eventId staffId st in
    (code r, st', tr)
  | ConfirmAll auth eventId =>
    let '(r, st', tr) := confirmAll env auth eventId st in (code r, st', tr)
  end.

Definition callAuth (c : Call) : Auth :=
  match c with
  | Signup auth _ | CancelSignup auth _ | AdminSignup auth _ _
  | UpdateEvent auth _ _ | CancelEvent auth _ | ReinstateEvent auth _
  | CloseEvent auth _ _ | ConfirmOne auth _ _ | ConfirmAll auth _ => auth
  end.

Definition callEvent (c : Call) : string :=
  match c with
  | Signup _ eventId | CancelSignup _ eventId | AdminSignup _ eventId _
  | UpdateEvent _ eventId _ | CancelEvent _ eventId | ReinstateEvent _ eventId
  | CloseEvent _ eventId _ | ConfirmOne _ eventId _ | ConfirmAll _ eventId =>
    eventId
  end.

(** The handlers that start with the admin check. *)
Definition adminOnly (c : Call) : bool :=
  match c with
  | Signup _ _ | CancelSignup _ _ => false
  | _ => true
  end.

(** The caller is authenticated and has an admin record. *)
Definition callerIsAdmin (st : Store) (auth : Auth) : Prop :=
  match auth with
  | Authenticated userId => isAdmin st userId
  | AuthFailed _ => False
  end.

(** The caller passes the checks the handler starts with. *)
Definition callerOk (st : Store) (c : Call) : Prop :=
  match callAuth c with
  | Authenticated userId => adminOnly c = true → isAdmin st userId
  | AuthFailed _ => False
  end.

(** What these requests leave alone: the level table, the channel
    settings, the events other than the one named, which event ids exist,
    and who has a record with which role. *)
Definition framed (eventId : string) (st st' : Store) : Prop :=
  levels st' = levels st ∧
  telegramSettings st' = telegramSettings st ∧
  whatsappSettings st' = whatsappSettings st ∧
  (∀ id, id ≠ eventId → events st' !! id = events st !! id) ∧
  (∀ id, is_Some (events st' !! id) ↔ is_Some (events st !! id)) ∧
  (∀ id, Staff.role <$> users st' !! id = Staff.role <$> users st !! id).

(** No event lists a staff id twice in [signedUpStaff]. *)
Definition signedUpOnce (st : Store) : Prop :=
  ∀ id e, events st !! id = Some e → NoDup (signedUp e).

(** Every event is stored under its own id. *)
Definition keyedById (st : Store) : Prop :=
  ∀ k e, events st !! k = Some e → Event.id e = k.

(** The list of an admin sign-up names nobody twice. *)
Definition namesOnce (c : Call) : Prop :=
  match c with
  | AdminSignup _ _ staffIds => NoDup staffIds
  | _ => True
  end.

(** What an entry of a trace says about the store the request started
    from: a Telegram attempt needs connected settings and goes to the chat
    id (or else the username) of the record of the staff id, its result is
    the one of [sendTelegramMessage]; an e-mail needs the API key; nothing
    goes out over WhatsApp. *)
Definition explained (env : Env) (st : Store) (x : Effect) : Prop :=
  match x with
  | Deliver Telegram staffId address _ ok =>
    telegramConnected st = true ∧
    (∃ staff, users st !! staffId = Some staff ∧
              orString (Staff.telegramChatId staff)
                       (Staff.telegramUsername staff) = Some address) ∧
    ok = telegramResult env st address
  | Deliver Email staffId _ _ _ =>
    channelConfigured env st Email = true ∧ is_Some (users st !! staffId)
  | Deliver WhatsApp _ _ _ _ => False
  | _ => True
  end.

End Requests.

(** ** Staff, points and event administration *)

Module Admin.
Import Server.

(** The handlers of this part are followed through the reply and the
    state [Σ] they leave.  An error reply ends the handler. *)
Definition St (Σ A : Type) : Type := Σ -> Reply A * Σ.

Global Instance St_ret {Σ} : MRet (St Σ) := fun A a s => (Json a, s).

Global Instance St_bind {Σ} : MBind (St Σ) := fun A B f m s =>
  match m s with
  | (Json a, s1) => f a s1
  | (Error code e, s1) => (Error code e, s1)
  end.

Definition refuse {Σ A} (code : Z) (error : string) : St Σ A :=
  fun s => (Error code error, s).

(** A step of the handlers above, without its trace. *)
Definition lift {A} (m : M A) : St Store A := fun st => (m st).1.

(** [kv.del] on the event and user tables. *)
Definition kvDelEvent (id : string) : St Store unit :=
  fun st => (Json tt, set_events (delete id) st).

Definition kvDelUser (id : string) : St Store unit :=
  fun st => (Json tt, set_users (delete id) st).

Fixpoint forEachSt {Σ A} (l : list A) (body : A -> St Σ unit) : St Σ unit :=
  match l with
  | [] => mret tt
  | x :: l' => body x ;; forEachSt l' body
  end.

(** [!s] on a string that may be missing from the request body. *)
Definition falsy (s : option string) : bool :=
  match s with
  | Some s => isEmpty s
  | None => true
  end.

(** *** DELETE /events/:id *)
Definition deleteEvent (auth : Auth) (eventId : string) : St Store unit :=
  userId ← lift (requireAuth auth);
  lift (requireAdmin userId) ;;
  kvDelEvent eventId.

(** *** PUT /staff/:id

    [name], [email] and [level] are the strings the client sends; [phone]
    and [telegramUsername] go through [x || '']. *)
Definition updateStaff (auth : Auth) (staffId name email : string)
    (phone : option string) (level : string)
    (telegramUsername : option string) : St Store Staff.t :=
  userId ← lift (requireAuth auth);
  lift (requireAdmin userId) ;;
  staff ← lift (kvGetUser staffId);
  match staff with
  | None => refuse 404 "Staff member not found"
  | Some staff =>
    let updatedStaff :=
      Staff.mk email name
               (Some (LevelResolver.orEmpty (orString phone None)))
               (Some (LevelResolver.orEmpty (orString telegramUsername None)))
               (Some (LevelResolver.orEmpty (orString telegramUsername None)))
               (Staff.points staff) level (Staff.role staff) in
    lift (kvSetUser staffId updatedStaff) ;;
    mret updatedStaff
  end.

(** *** DELETE /staff/:id

    The loop runs over the events read before it, and writes each changed
    event under its own [id]. *)
Definition removeSignup (staffId : string) (event : Event.t) : St Store unit :=
  match Event.signedUpStaff event with
  | Some signedUpStaff =>
    if includes signedUpStaff staffId
    then
      let updatedEvent :=
        Event.with_signedUpStaff
          (filter (fun id => id ≠ staffId) signedUpStaff) event in
      lift (kvSetEvent (Event.id event) updatedEvent)
    else mret tt
  | None => mret tt
  end.

Definition deleteStaff (auth : Auth) (staffId : string) : St Store unit :=
  userId ← lift (requireAuth auth);
  lift (requireAdmin userId) ;;
  staff ← lift (kvGetUser staffId);
  match staff with
  | None => refuse 404 "Staff member not found"
  | Some staff =>
    if decide (Staff.role staff = Admin)
    then refuse 403 "Cannot delete admin users"
    else
      st ← lift getStore;
      (* kv.getByPrefix('event:') *)
      let events := (map_to_list (events st)).*2 in
      forEachSt events (removeSignup staffId) ;;
      kvDelUser staffId
  end.

(** [event.signedUpStaff && event.signedUpStaff.includes(staffId)] *)
Definition signedUpFor (staffId : string) (event : Event.t) : bool :=
  match Event.signedUpStaff event with
  | Some signedUpStaff => includes signedUpStaff staffId
  | None => false
  end.

(** The event the loop of [DELETE /staff/:id] leaves in place of [event]. *)
Definition withoutStaff (staffId : string) (event : Event.t) : Event.t :=
  match Event.signedUpStaff event with
  | Some signedUpStaff =>
    if includes signedUpStaff staffId
    then Event.with_signedUpStaff
           (filter (fun id => id ≠ staffId) signedUpStaff) event
    else event
  | None => event
  end.

(** *** POST /points/adjust

    The e-mail the handler sends after the two writes changes neither the
    store nor the reply and is left out. *)
Record AdjustResult := mkAdjustResult {
  ar_staff : Staff.t;
  ar_adjustment : Adjustment.t;
  ar_leveledUp : bool
}.

Definition adjustPoints (env : Env) (auth : Auth) (staffId : option string)
    (points : option Z) (reason : option string) : St Store AdjustResult :=
  userId ← lift (requireAuth auth);
  lift (requireAdmin userId) ;;
  if falsy staffId || bool_decide (points = None) || falsy reason
  then refuse 400 "Staff ID, points, and reason are required"
  else
    let staffId := LevelResolver.orEmpty staffId in
    let points := default 0 points in
    let reason := LevelResolver.orEmpty reason in
    staff ← lift (kvGetUser staffId);
    match staff with
    | None => refuse 404 "Staff member not found"
    | Some staff =>
      let oldLevel := Staff.level staff in
      let newPoints := Z.max 0 (Staff.points staff + points) in
      newLevel ← lift (calculateLevelM newPoints);
      let updatedStaff := Staff.with_points_level newPoints newLevel staff in
      lift (kvSetUser staffId updatedStaff) ;;
      let adjustmentId := pretty (now env) in
      let adjustment :=
        Adjustment.mk adjustmentId staffId points reason
                      (toISOString env (now env)) userId None in
      lift (kvSetAdjustment adjustmentId adjustment) ;;
      mret (mkAdjustResult updatedStaff adjustment
              (negb (String.eqb oldLevel newLevel)))
    end.

(** *** GET /adjustments *)
Record Transaction := mkTransaction {
  tx_id : string;
  tx_staffId : string;
  tx_staffName : string;
  tx_points : Z;
  tx_reason : string;
  tx_timestamp : string;
  tx_adminId : string;
  tx_eventId : option string
}.

(** [staff?.name || 'Unknown Staff'] *)
Definition staffNameOr (staff : option Staff.t) : string :=
  match staff with
  | Some staff =>
    if isEmpty (Staff.name staff) then "Unknown Staff" else Staff.name staff
  | None => "Unknown Staff"
  end.

Definition transactionOf (st : Store) (adj : Adjustment.t) : Transaction :=
  let staff := users st !! Adjustment.staffId adj in
  mkTransaction (Adjustment.id adj) (Adjustment.staffId adj)
                (staffNameOr staff) (Adjustment.points adj)
                (Adjustment.reason adj) (Adjustment.timestamp adj)
                (Adjustment.adminId adj) (Adjustment.eventId adj).

Definition getAdjustments (auth : Auth)
    : St Store (list Adjustment.t * list Transaction) :=
  userId ← lift (requireAuth auth);
  lift (requireAdmin userId) ;;
  st ← lift getStore;
  (* kv.getByPrefix('adjustment:') *)
  let adjustments := (map_to_list (adjustments st)).*2 in
  mret (adjustments, transactionOf st <$> adjustments).

End Admin.

(** ** The level table *)

Module Levels.
Import Server Admin LevelResolver.

(** The records under the [level:] keys. *)
Abbreviation Table := (gmap string Level.t).

(** [kv.getByPrefix('level:')] *)
Definition getByPrefix (t : Table) : list Level.t := (map_to_list t).*2.

Definition kvGetLevel (id : string) : St Table (option Level.t) :=
  fun t => (Json (t !! id), t).

Definition kvSetLevel (id : string) (level : Level.t) : St Table unit :=
  fun t => (Json tt, <[id := level]> t).

Definition kvDelLevel (id : string) : St Table unit :=
  fun t => (Json tt, delete id t).

Definition kvLevels : St Table (list Level.t) :=
  fun t => (Json (getByPrefix t), t).

(** [verifyAuth] and the admin check, which read the user table [st]. *)
Definition asAdmin (st : Store) (auth : Auth) : St Table string :=
  fun t =>
    (((userId ← requireAuth auth; requireAdmin userId ;; mret userId) st).1.1,
     t).

Definition with_order (order : Z) (level : Level.t) : Level.t :=
  Level.mk (Level.id level) (Level.name level) (Level.minPoints level) order.

(** *** POST /levels *)
Definition addLevel (env : Env) (st : Store) (auth : Auth)
    (name : option string) (minPoints : option Z) : St Table Level.t :=
  asAdmin st auth ;;
  if falsy name || bool_decide (minPoints = None)
  then refuse 400 "Name and minPoints are required"
  else
    let levelId := pretty (now env) in
    levels ← kvLevels;
    let level :=
      Level.mk levelId (orEmpty name) (default 0 minPoints)
               (Z.of_nat (length levels)) in
    kvSetLevel levelId level ;;
    mret level.

(** *** PUT /levels/:id

    [name] and [minPoints] are the values the client sends. *)
Definition updateLevel (st : Store) (auth : Auth) (levelId name : string)
    (minPoints : Z) : St Table Level.t :=
  asAdmin st auth ;;
  existingLevel ← kvGetLevel levelId;
  match existingLevel with
  | None => refuse 404 "Level not found"
  | Some existingLevel =>
    let updatedLevel :=
      Level.mk (Level.id existingLevel) name minPoints
               (Level.order existingLevel) in
    kvSetLevel levelId updatedLevel ;;
    mret updatedLevel
  end.

(** *** DELETE /levels/:id *)
Definition deleteLevel (st : Store) (auth : Auth) (levelId : string)
    : St Table unit :=
  asAdmin st auth ;;
  kvDelLevel levelId.

(** *** POST /levels/reorder *)

(** [sortedLevels.findIndex(l => l.id === levelId)], with the element. *)
Definition findIndex (levelId : string) (sortedLevels : list Level.t)
    : option (nat * Level.t) :=
  list_find (fun l => Level.id l = levelId) sortedLevels.

Definition reorderLevel (st : Store) (auth : Auth)
    (levelId direction : option string) : St Table (list Level.t) :=
  asAdmin st auth ;;
  if falsy levelId || falsy direction
     || (negb (String.eqb (orEmpty direction) "up")
         && negb (String.eqb (orEmpty direction) "down"))
  then refuse 400 "Valid levelId and direction (up/down) are required"
  else
    let up := String.eqb (orEmpty direction) "up" in
    levels ← kvLevels;
    let sortedLevels := sortBy byOrderAsc levels in
    match findIndex (orEmpty levelId) sortedLevels with
    | None => refuse 404 "Level not found"
    | Some (currentIndex, current) =>
      if (up && (currentIndex =? 0)%nat)
         || (negb up && (S currentIndex =? length sortedLevels)%nat)
      then refuse 400 "Cannot move level in that direction"
      else
        let swapIndex :=
          if up then (currentIndex - 1)%nat else (currentIndex + 1)%nat in
        match sortedLevels !! swapIndex with
        | None =>
          (* reading [.order] of [undefined] throws, into the [catch] *)
          refuse 500 "Failed to reorder levels"
        | Some other =>
          let temp := Level.order current in
          let current := with_order (Level.order other) current in
          let other := with_order temp other in
          kvSetLevel (Level.id current) current ;;
          kvSetLevel (Level.id other) other ;;
          kvLevels
        end
    end.

(** Every level is stored under its own id. *)
Definition keyed (t : Table) : Prop :=
  ∀ k level, t !! k = Some level → Level.id level = k.

(** No two levels have the same [order]. *)
Definition ordersDistinct (t : Table) : Prop :=
  ∀ k1 k2 l1 l2, t !! k1 = Some l1 → t !! k2 = Some l2 →
                 Level.order l1 = Level.order l2 → k1 = k2.

(** The orders are [0 .. n - 1] for a table of [n] levels. *)
Definition ordersDense (t : Table) : Prop :=
  Level.order <$> getByPrefix t ≡ₚ Z.of_nat <$> seq 0 (size t).

End Levels.

(** ** What the screens compute *)

Module Screens.
Import Server Observe LevelResolver.

(** [sortedLevels.find(l => l.name === name)] *)
Definition findByName (sortedLevels : list Level.t) (name : string)
    : option Level.t :=
  find (fun l => String.eqb (Level.name l) name) sortedLevels.

(** [canAccessEvent] of the event list, with [currentLevel] the level of
    the staff member who is logged in. *)
Definition canAccessEvent (levels : list Level.t) (currentLevel : string)
    (event : Event.t) : bool :=
  let sortedLevels := sortBy byOrderAsc levels in
  let currentLevelObj := findByName sortedLevels currentLevel in
  let requiredLevelObj :=
    findByName sortedLevels (Event.requiredLevel event) in
  match currentLevelObj with
  | None => false
  | Some currentLevelObj =>
    match requiredLevelObj with
    | None => false
    | Some requiredLevelObj =>
      Level.order requiredLevelObj <=? Level.order currentLevelObj
    end
  end.

(** The callback of [staffMembers.filter] in [POST /events], which tells
    who is notified of a new event; [eventLevel] is the level found for
    the event. *)
Definition canAccess (sortedLevels : list Level.t) (eventLevel : Level.t)
    (staff : Staff.t) : bool :=
  if isEmpty (Staff.level staff) then false
  else
    match findByName sortedLevels (Staff.level staff) with
    | Some staffLevel => Level.order eventLevel <=? Level.order staffLevel
    | None => false
    end.

(** [getUnconfirmedCount] of the staffing overview. *)
Definition getUnconfirmedCount (event : Event.t) : nat :=
  let selectedStaff := default [] (Event.confirmedStaff event) in
  let awarded := default [] (Event.pointsAwarded event) in
  length (filter (fun id => negb (includes awarded id) = true) selectedStaff).

(** Level names tell levels apart. *)
Definition namesDistinct (levels : list Level.t) : Prop :=
  ∀ l1 l2, l1 ∈ levels → l2 ∈ levels → Level.name l1 = Level.name l2 →
           l1 = l2.

(** A level that asks for more points does not come earlier in the
    order. *)
Definition ordersFollowPoints (levels : list Level.t) : Prop :=
  ∀ l1 l2, l1 ∈ levels → l2 ∈ levels →
           Level.minPoints l1 ≤ Level.minPoints l2 →
           Level.order l1 ≤ Level.order l2.

End Screens.

(** ** Date strings *)

Module DateUtils.
Import Server.

(** [s.split(sep)] for a separator of one character. *)
Fixpoint split (sep : ascii) (s : string) : list string :=
  match s with
  | EmptyString => [EmptyString]
  | String c s' =>
    if Ascii.eqb c sep then EmptyString :: split sep s'
    else
      match split sep s' with
      | [] => [String c EmptyString]
      | part :: parts => String c part :: parts
      end
  end.

(** The separator does not occur in [s]. *)
Definition noSep (sep : ascii) (s : string) : Prop :=
  Forall (fun c => c ≠ sep) (list_ascii_of_string s).

(** An element of a destructured array inside a template literal: a
    missing one prints as [undefined]. *)
Definition part (parts : list string) (i : nat) : string :=
  default "undefined" (parts !! i).

(** [formatDateToDDMMYYYY] *)
Definition formatDateToDDMMYYYY (dateString : string) : string :=
  if isEmpty dateString then EmptyString
  else
    let parts := split "-" dateString in
    let year := part parts 0 in
    let month := part parts 1 in
    let day := part parts 2 in
    day +:+ "/" +:+ month +:+ "/" +:+ year.

(** [formatDateToYYYYMMDD] *)
Definition formatDateToYYYYMMDD (dateString : string) : string :=
  if isEmpty dateString then EmptyString
  else
    let parts := split "/" dateString in
    let day := part parts 0 in
    let month := part parts 1 in
    let year := part parts 2 in
    year +:+ "-" +:+ month +:+ "-" +:+ day.

(** [parseInt(s, 10)] on a string of digits. *)
Definition parseInt (s : string) : Z :=
  foldl (fun n c => 10 * n + (Z.of_nat (nat_of_ascii c) - 48)) 0
        (list_ascii_of_string s).

(** [new Date(year, month, 0).getDate()]: the number of days of month
    [month], counted from 1, in the Gregorian calendar. *)
Definition isLeapYear (year : Z) : bool :=
  ((year mod 4 =? 0) && negb (year mod 100 =? 0)) || (year mod 400 =? 0).

Definition daysInMonth (year month : Z) : Z :=
  if month =? 2 then (if isLeapYear year then 29 else 28)
  else if (month =? 4) || (month =? 6) || (month =? 9) || (month =? 11)
       then 30
       else 31.

(** [dateString.match(/^(\d{2})\/(\d{2})\/(\d{4})$/)]: the three groups. *)
Definition matchDDMMYYYY (dateString : string)
    : option (string * string * string) :=
  match list_ascii_of_string dateString with
  | [d1; d2; s1; m1; m2; s2; y1; y2; y3; y4] =>
    if forallb isDigit [d1; d2; m1; m2; y1; y2; y3; y4]
       && Ascii.eqb s1 "/" && Ascii.eqb s2 "/"
    then Some (string_of_list_ascii [d1; d2],
               string_of_list_ascii [m1; m2],
               string_of_list_ascii [y1; y2; y3; y4])
    else None
  | _ => None
  end.

(** [isValidDDMMYYYY] *)
Definition isValidDDMMYYYY (dateString : string) : bool :=
  match matchDDMMYYYY dateString with
  | None => false
  | Some (d, m, y) =>
    let day := parseInt d in
    let month := parseInt m in
    let year := parseInt y in
    if (year <? 1900) || (2099 <? year) then false
    else if (month <? 1) || (12 <? month) then false
    else if (day <? 1) || (daysInMonth year month <? day) then false
    else true
  end.

End DateUtils.

(** ** More sample data for the examples *)

Module Samples.
Import Server Engine Fixture.

(** The body of a reply, or [d] for an error reply. *)
Definition body {A} (d : A) (r : Reply A) : A :=
  match r with
  | Json a => a
  | Error _ _ => d
  end.

(** Three levels with orders 0, 1 and 2. *)
Definition bronze : Level.t := Level.mk "l1" "Bronze" 0 0.
Definition silver : Level.t := Level.mk "l2" "Silver" 100 1.
Definition gold : Level.t := Level.mk "l3" "Gold" 300 2.

Definition table0 : gmap string Level.t :=
  list_to_map [("l1", bronze); ("l2", silver); ("l3", gold)].

(** The sample store with one adjustment on record for staff member a. *)
Definition earlier : Adjustment.t :=
  Adjustment.mk "900" "a" 50 "Completed Event: Workshop" "900" "adm"
                (Some "e2").

Definition stLog : Store := set_adjustments (fun _ => {["900" := earlier]}) st0.

(** The sample store without its staff records. *)
Definition stNoUsers : Store := set_users (fun _ => ∅) st0.

End Samples.

(** * Properties *)

(** ** Level resolution *)

Module LevelResolverFacts.
Import LevelResolver.

Section Sorting.
Context {A : Type} (cmp : A -> A -> Z).

Lemma elem_of_insertBy (x y : A) (l : list A) :
  y ∈ insertBy cmp x l ↔ y = x ∨ y ∈ l.
Proof.
  induction l as [|z l IH]; simpl.
  - rewrite list_elem_of_singleton, elem_of_nil. tauto.
  - destruct (0 <? cmp x z); rewrite !elem_of_cons; [rewrite IH|]; tauto.
Qed.

Lemma elem_of_sortBy (y : A) (l : list A) : y ∈ sortBy cmp l ↔ y ∈ l.
Proof.
  induction l as [|x l IH]; simpl; [tauto|].
  rewrite elem_of_insertBy, elem_of_cons, IH. tauto.
Qed.

Lemma sortBy_nil_inv (l : list A) : sortBy cmp l = [] → l = [].
Proof.
  destruct l as [|x l]; [done|]. simpl. intros H.
  assert (Hx : x ∈ insertBy cmp x (sortBy cmp l))
    by (apply elem_of_insertBy; auto).
  rewrite H in Hx. by apply elem_of_nil in Hx.
Qed.

(** Sorting by a key: the comparator is the difference of two keys. *)
Variable key : A -> Z.
Hypothesis cmp_key : ∀ a b, cmp a b = key a - key b.

Lemma insertBy_sorted (x : A) (l : list A) :
  StronglySorted (fun a b => key a ≤ key b) l →
  StronglySorted (fun a b => key a ≤ key b) (insertBy cmp x l).
Proof.
  induction 1 as [|z l Hs IH Hz]; simpl.
  - repeat constructor.
  - destruct (Z.ltb_spec 0 (cmp x z)) as [Hlt|Hge]; rewrite cmp_key in *.
    + constructor; [exact IH|].
      apply Forall_forall. intros y Hy.
      apply elem_of_insertBy in Hy as [->|Hy]; [lia|].
      rewrite Forall_forall in Hz. by apply Hz.
    + constructor; [by constructor|].
      constructor; [lia|].
      eapply Forall_impl; [exact Hz|]. simpl. intros; lia.
Qed.

Lemma sortBy_sorted (l : list A) :
  StronglySorted (fun a b => key a ≤ key b) (sortBy cmp l).
Proof.
  induction l as [|x l IH]; simpl; [constructor|].
  by apply insertBy_sorted.
Qed.

(** The first element that passes an upward-closed test on a sorted list
    has the least key among those that pass. *)
Lemma find_sorted_least (f : A -> bool) (l : list A) (x : A) :
  StronglySorted (fun a b => key a ≤ key b) l →
  find f l = Some x →
  x ∈ l ∧ f x = true ∧ ∀ y, y ∈ l → f y = true → key x ≤ key y.
Proof.
  induction 1 as [|z l Hs IH Hz]; simpl; [done|].
  destruct (f z) eqn:Hfz.
  - intros [= ->]. split; [left|]. split; [done|].
    intros y Hy _. apply elem_of_cons in Hy as [->|Hy]; [lia|].
    rewrite Forall_forall in Hz. by apply Hz.
  - intros Hfind. destruct (IH Hfind) as (Hx & Hfx & Hmin).
    split; [by right|]. split; [done|].
    intros y Hy Hfy. apply elem_of_cons in Hy as [->|Hy]; [congruence|].
    by apply Hmin.
Qed.

Lemma head_sorted_least (l : list A) (x : A) :
  StronglySorted (fun a b => key a ≤ key b) l →
  head l = Some x → x ∈ l ∧ ∀ y, y ∈ l → key x ≤ key y.
Proof.
  destruct 1 as [|z l Hs Hz]; simpl; [done|].
  intros [= ->]. split; [left|].
  intros y Hy. apply elem_of_cons in Hy as [->|Hy]; [lia|].
  rewrite Forall_forall in Hz. by apply Hz.
Qed.

End Sorting.

Lemma find_none_all {A} (f : A -> bool) (l : list A) :
  find f l = None → ∀ y, y ∈ l → f y = false.
Proof.
  intros H y Hy. apply list_elem_of_In in Hy. by eapply find_none.
Qed.

Lemma find_is_some {A} (f : A -> bool) (l : list A) (y : A) :
  y ∈ l → f y = true → is_Some (find f l).
Proof.
  intros Hy Hf. destruct (find f l) eqn:E; [eauto|].
  pose proof (find_none_all f l E y Hy). congruence.
Qed.

Section TieBreak.
Variable points : Z.

(** Where the first qualifying level sits once one more level is put in
    front of the listing. *)
Lemma find_insertBy_desc (x : Level.t) (s : list Level.t) :
  StronglySorted (fun a b => - Level.minPoints a ≤ - Level.minPoints b) s →
  find (qualifies points) (insertBy byMinPointsDesc x s)
  = if qualifies points x
    then match find (qualifies points) s with
         | Some y => if Level.minPoints x <? Level.minPoints y
                     then Some y else Some x
         | None => Some x
         end
    else find (qualifies points) s.
Proof.
  induction 1 as [|y s Hs IH Hy]; simpl.
  - by destruct (qualifies points x).
  - unfold byMinPointsDesc at 1.
    destruct (Z.ltb_spec 0 (Level.minPoints y - Level.minPoints x))
      as [Hlt|Hge]; simpl.
    + rewrite IH. destruct (qualifies points y) eqn:Hqy; [|done].
      destruct (qualifies points x); [|done].
      by destruct (Z.ltb_spec (Level.minPoints x) (Level.minPoints y));
        [|lia].
    + destruct (qualifies points x); [|done].
      destruct (qualifies points y) eqn:Hqy.
      * by destruct (Z.ltb_spec (Level.minPoints x) (Level.minPoints y));
          [lia|].
      * destruct (find (qualifies points) s) as [z|] eqn:Hz; [|done].
        apply find_some in Hz as [Hz _]. apply list_elem_of_In in Hz.
        rewrite Forall_forall in Hy. specialize (Hy z Hz).
        by destruct (Z.ltb_spec (Level.minPoints x) (Level.minPoints z));
          [lia|].
Qed.

(** The level the loop returns is the first of the listing among the
    qualifying levels of greatest [minPoints]. *)
Lemma find_sortBy_first_best (levels : list Level.t) (best : Level.t) :
  find (qualifies points) (sortBy byMinPointsDesc levels) = Some best →
  ∃ before after,
    levels = before ++ best :: after ∧
    (∀ l, l ∈ before → Level.minPoints l ≤ points →
          Level.minPoints l < Level.minPoints best) ∧
    (∀ l, l ∈ after → Level.minPoints l ≤ points →
          Level.minPoints l ≤ Level.minPoints best).
Proof.
  revert best. induction levels as [|x rest IH]; intros best; simpl; [done|].
  rewrite find_insertBy_desc
    by (apply (sortBy_sorted byMinPointsDesc (fun l => - Level.minPoints l));
        intros a b; unfold byMinPointsDesc; lia).
  destruct (qualifies points x) eqn:Hqx.
  - destruct (find (qualifies points) (sortBy byMinPointsDesc rest))
      as [y|] eqn:Hy.
    + destruct (IH y eq_refl) as (before & after & -> & Hb & Ha).
      destruct (Z.ltb_spec (Level.minPoints x) (Level.minPoints y)).
      * intros [= <-]. exists (x :: before), after. split; [done|].
        split; [|done]. intros l Hl Hq.
        apply elem_of_cons in Hl as [->|Hl]; [done|by apply Hb].
      * intros [= <-]. exists [], (before ++ y :: after). split; [done|].
        split; [intros l Hl; by apply elem_of_nil in Hl|].
        intros l Hl Hq. rewrite elem_of_app, elem_of_cons in Hl.
        destruct Hl as [Hl|[->|Hl]]; [specialize (Hb l Hl Hq)| |
                                      specialize (Ha l Hl Hq)]; lia.
    + intros [= <-]. exists [], rest. split; [done|].
      split; [intros l Hl; by apply elem_of_nil in Hl|].
      intros l Hl Hq.
      pose proof (find_none_all (qualifies points) _ Hy l) as Hn.
      rewrite elem_of_sortBy in Hn. specialize (Hn Hl).
      unfold qualifies in Hn. apply Z.leb_gt in Hn. lia.
  - intros Hbest. destruct (IH best Hbest) as (before & after & -> & Hb & Ha).
    exists (x :: before), after. split; [done|]. split; [|done].
    intros l Hl Hq. apply elem_of_cons in Hl as [->|Hl]; [|by apply Hb].
    unfold qualifies in Hqx. apply Z.leb_gt in Hqx. lia.
Qed.

End TieBreak.

(** C5.  [calculateLevel]: with no levels it answers the empty string;
    when some level has [minPoints ≤ points] it answers the name of a
    level whose [minPoints] is the greatest among those, and of several
    such levels the one the store lists first; when none qualifies it
    answers the name of a level of smallest [order]. *)
Theorem calculateLevel_spec (levels : list Level.t) (points : Z) :
  (levels = [] → calculateLevel levels points = EmptyString) ∧
  ((∃ l, l ∈ levels ∧ Level.minPoints l ≤ points) →
   ∃ before best after,
     levels = before ++ best :: after ∧
     Level.minPoints best ≤ points ∧
     (∀ l, l ∈ levels → Level.minPoints l ≤ points →
           Level.minPoints l ≤ Level.minPoints best) ∧
     (∀ l, l ∈ before → Level.minPoints l ≤ points →
           Level.minPoints l < Level.minPoints best) ∧
     calculateLevel levels points = Level.name best) ∧
  (levels ≠ [] → (∀ l, l ∈ levels → points < Level.minPoints l) →
   ∃ lowest, lowest ∈ levels ∧
     (∀ l, l ∈ levels → Level.order lowest ≤ Level.order l) ∧
     calculateLevel levels points = Level.name lowest).
Proof.
  split; [by intros ->|].
  assert (Hdesc : StronglySorted
            (fun a b => - Level.minPoints a ≤ - Level.minPoints b)
            (sortBy byMinPointsDesc levels)).
  { apply (sortBy_sorted byMinPointsDesc (fun l => - Level.minPoints l)).
    intros a b. unfold byMinPointsDesc. lia. }
  split.
  - intros (l & Hl & Hq).
    destruct (find_is_some (qualifies points)
                (sortBy byMinPointsDesc levels) l) as [best Hbest].
    { by apply elem_of_sortBy. }
    { by apply Z.leb_le. }
    destruct (find_sorted_least _ _ _ _ Hdesc Hbest) as (Hin & Hf & _).
    destruct (find_sortBy_first_best points levels best Hbest)
      as (before & after & Hsplit & Hb & Ha).
    exists before, best, after. apply Z.leb_le in Hf.
    split; [done|]. split; [done|]. split; [|split; [done|]].
    + intros l' Hl' Hq'. rewrite Hsplit, elem_of_app, elem_of_cons in Hl'.
      destruct Hl' as [Hl'|[->|Hl']];
        [specialize (Hb l' Hl' Hq')| |specialize (Ha l' Hl' Hq')]; lia.
    + unfold calculateLevel. destruct levels; [by apply elem_of_nil in Hl|].
      by rewrite Hbest.
  - intros Hne Hnone.
    assert (Hfind : find (qualifies points)
                         (sortBy byMinPointsDesc levels) = None).
    { destruct (find _ _) as [x|] eqn:E; [|done].
      destruct (find_sorted_least _ _ _ _ Hdesc E) as (Hin & Hf & _).
      apply elem_of_sortBy in Hin. apply Z.leb_le in Hf.
      specialize (Hnone x Hin). lia. }
    assert (Hasc : StronglySorted
              (fun a b => Level.order a ≤ Level.order b)
              (sortBy byOrderAsc (sortBy byMinPointsDesc levels))).
    { by apply (sortBy_sorted byOrderAsc Level.order). }
    destruct (sortBy byOrderAsc (sortBy byMinPointsDesc levels))
      as [|lowest rest] eqn:Es.
    { apply sortBy_nil_inv, sortBy_nil_inv in Es. done. }
    destruct (head_sorted_least _ _ _ Hasc eq_refl) as (Hin & Hmin).
    exists lowest. rewrite <- Es in Hin, Hmin.
    split; [by apply elem_of_sortBy, elem_of_sortBy in Hin|].
    split.
    + intros l Hl. apply Hmin. by apply elem_of_sortBy, elem_of_sortBy.
    + unfold calculateLevel. destruct levels; [done|].
      by rewrite Hfind, Es.
Qed.

Lemma calculateLevel_spec_witness :
  calculateLevel [] 150 = EmptyString ∧
  (∃ before best after,
     Fixture.levels0 = before ++ best :: after ∧
     Level.minPoints best ≤ 150 ∧
     (∀ l, l ∈ Fixture.levels0 → Level.minPoints l ≤ 150 →
           Level.minPoints l ≤ Level.minPoints best) ∧
     (∀ l, l ∈ before → Level.minPoints l ≤ 150 →
           Level.minPoints l < Level.minPoints best) ∧
     calculateLevel Fixture.levels0 150 = Level.name best) ∧
  (∃ lowest, lowest ∈ Fixture.levels0 ∧
     (∀ l, l ∈ Fixture.levels0 → Level.order lowest ≤ Level.order l) ∧
     calculateLevel Fixture.levels0 (-5) = Level.name lowest).
Proof.
  split; [by apply (calculateLevel_spec [] 150)|].
  split.
  - apply (calculateLevel_spec Fixture.levels0 150).
    exists (Level.mk "l2" "Silver" 100 2).
    split; [right; left | simpl; lia].
  - apply (calculateLevel_spec Fixture.levels0 (-5)); [discriminate|].
    intros l Hl.
    repeat (apply elem_of_cons in Hl as [->|Hl]); simpl; try lia.
    by apply elem_of_nil in Hl.
Defined.

(** Two levels share the greatest qualifying threshold: the one listed
    first is returned. *)
Example calculateLevel_tie_first_listed :
  calculateLevel [Level.mk "x" "Late" 100 2; Level.mk "y" "Early" 100 1;
                  Level.mk "z" "Low" 0 3] 150 = "Late".
Proof. reflexivity. Qed.

Example calculateLevel_on_the_thresholds :
  calculateLevel Fixture.levels0 0 = "Bronze" ∧
  calculateLevel Fixture.levels0 99 = "Bronze" ∧
  calculateLevel Fixture.levels0 100 = "Silver" ∧
  calculateLevel Fixture.levels0 1000 = "Gold" ∧
  calculateLevel Fixture.levels0 (-5) = "Bronze".
Proof. repeat split; reflexivity. Qed.

End LevelResolverFacts.

(** ** Running the handlers *)

Module ServerFacts.
Import Server Observe Engine.

(** Unfold one layer of the monad. *)
Ltac run :=
  unfold mbind, M_bind, mret, M_ret, fail, getStore, emit; simpl.

Lemma includes_true (l : list string) (x : string) :
  includes l x = true ↔ x ∈ l.
Proof. unfold includes. apply bool_decide_eq_true. Qed.

Lemma includes_false (l : list string) (x : string) :
  includes l x = false ↔ x ∉ l.
Proof. unfold includes. apply bool_decide_eq_false. Qed.

Lemma elem_of_without (l other : list string) (id : string) :
  id ∈ without l other ↔ id ∈ l ∧ id ∉ other.
Proof.
  unfold without. rewrite list_elem_of_filter, negb_true_iff, includes_false.
  tauto.
Qed.

Lemma without_self (l : list string) : without l l = [].
Proof.
  destruct (without l l) as [|x r] eqn:E; [done|].
  assert (Hx : x ∈ without l l) by (rewrite E; left).
  apply elem_of_without in Hx. tauto.
Qed.

Lemma isEmpty_false (s : string) : isEmpty s = false ↔ s ≠ EmptyString.
Proof. unfold isEmpty. apply String.eqb_neq. Qed.

Lemma requireAdmin_ok (st : Store) (userId : string) :
  isAdmin st userId → requireAdmin userId st = (Json tt, st, []).
Proof.
  intros (u & Hu & Hr). unfold requireAdmin, kvGetUser. run.
  rewrite Hu. by rewrite decide_True.
Qed.

Lemma requireAdmin_decide st userId :
  (isAdmin st userId ∧ requireAdmin userId st = (Json tt, st, [])) ∨
  requireAdmin userId st = (Error 403 "Admin access required", st, []).
Proof.
  unfold requireAdmin, kvGetUser, isAdmin. run.
  destruct (users st !! userId) as [u|]; [|by right].
  destruct (decide (Staff.role u = Admin)); [left; eauto | by right].
Qed.

(** A loop whose body only appends to the trace. *)
Lemma forEach_run {A} (l : list A) (body : A -> M unit)
    (out : A -> list Effect) (st : Store) :
  (∀ x, body x st = (Json tt, st, out x)) →
  forEach l body st = (Json tt, st, flat_map out l).
Proof.
  intros Hbody. induction l as [|x l IH]; simpl; [done|].
  run. by rewrite Hbody, IH.
Qed.

Section Loops.
Variable env : Env.

Lemma telegramOne_run st kind staffId staff :
  telegramOne env kind staffId staff st
  = (Json tt, st, telegramOut env st kind staffId staff).
Proof.
  unfold telegramOne, telegramOut, sendTelegramMessage.
  destruct (noChatId env _); run; done.
Qed.

Lemma telegramToIds_run st kind ids :
  telegramToIds env kind ids st
  = (Json tt, st, flat_map (telegramOutId env st kind) ids).
Proof.
  unfold telegramToIds. apply forEach_run. intros staffId.
  unfold kvGetUser, telegramOutId. run.
  destruct (users st !! staffId) as [staff|]; [|done].
  by rewrite telegramOne_run.
Qed.

Lemma attempts_app tr1 tr2 :
  attempts (tr1 ++ tr2) = attempts tr1 ++ attempts tr2.
Proof. unfold attempts. apply omap_app. Qed.

Lemma attempts_telegramOutId st kind ids :
  attempts (flat_map (telegramOutId env st kind) ids)
  = (fun id => (Telegram, id, kind)) <$>
      filter (fun id => telegramReachable env st id = true) ids.
Proof.
  induction ids as [|id ids IH]; simpl; [done|].
  rewrite attempts_app, IH, filter_cons.
  unfold telegramOutId, telegramReachable, telegramOut, hasChatId.
  destruct (users st !! id) as [staff|].
  - by destruct (noChatId env _).
  - done.
Qed.

End Loops.

(** ** Closing an event *)

Section Close.
Variable env : Env.



Lemma closeEvent_run st userId eventId event A :
  isAdmin st userId →
  eventId ≠ EmptyString →
  events st !! eventId = Some event →
  let updatedEvent :=
    Event.with_hasBeenClosedBefore true
      (Event.with_status Closed (Event.with_confirmedStaff A event)) in
  closeEvent env (Authenticated userId) eventId A st
  = (Json updatedEvent,
     set_events <[eventId := updatedEvent]> st,
     KvSetEvent eventId updatedEvent ::
       (if telegramConnected st
        then flat_map (telegramOutId env st Selected) (newlySelected event A)
             ++ flat_map (telegramOutId env st NotSelected)
                         (newlyDeselected event A)
        else [])).
Proof.
  intros Hadm Hid Hev. simpl. unfold closeEvent, kvGetEvent, kvSetEvent. run.
  rewrite requireAdmin_ok by done.
  apply isEmpty_false in Hid. rewrite Hid. simpl. rewrite Hev. simpl.
  change (telegramConnected (set_events _ st)) with (telegramConnected st).
  destruct (telegramConnected st); [|done].
  rewrite !telegramToIds_run. simpl. by rewrite app_nil_r.
Qed.


End Close.

Lemma isAdmin_st0 : isAdmin Fixture.st0 "adm".
Proof. exists Fixture.adm. split; reflexivity. Qed.


(** ** Cancelling a sign-up *)

Lemma cancelSignup_run st userId eventId event :
  events st !! eventId = Some event →
  let updatedEvent :=
    Event.with_signUpTimestamps
      (delete userId (default ∅ (Event.signUpTimestamps event)))
      (Event.with_signedUpStaff
         (filter (fun id => id ≠ userId) (signedUp event)) event) in
  cancelSignup (Authenticated userId) eventId st
  = (Json updatedEvent, set_events <[eventId := updatedEvent]> st,
     [KvSetEvent eventId updatedEvent]).
Proof.
  intros Hev. unfold cancelSignup, kvGetEvent, kvSetEvent. run.
  by rewrite Hev.
Qed.

(** C10.  Cancelling a sign-up succeeds for every authenticated caller on
    an existing event, signed up or not: the stored event loses exactly the
    caller's id in [signedUpStaff] and the caller's key in
    [signUpTimestamps], every other field and every other record stays,
    and a second call answers and stores the same event. *)
Theorem cancelSignup_removes_caller_idempotent st userId eventId event :
  events st !! eventId = Some event →
  ∃ updatedEvent st1 ts,
    cancelSignup (Authenticated userId) eventId st
    = (Json updatedEvent, st1, [KvSetEvent eventId updatedEvent]) ∧
    events st1 = <[eventId := updatedEvent]> (events st) ∧
    (users st1, levels st1, adjustments st1, telegramSettings st1,
     whatsappSettings st1)
    = (users st, levels st, adjustments st, telegramSettings st,
       whatsappSettings st) ∧
    Event.signedUpStaff updatedEvent
    = Some (filter (fun id => id ≠ userId) (signedUp event)) ∧
    (∀ id, id ∈ signedUp updatedEvent ↔ id ∈ signedUp event ∧ id ≠ userId) ∧
    Event.signUpTimestamps updatedEvent = Some ts ∧
    ts !! userId = None ∧
    (∀ k, k ≠ userId →
          ts !! k = default ∅ (Event.signUpTimestamps event) !! k) ∧
    Event.with_signUpTimestamps ∅ (Event.with_signedUpStaff [] updatedEvent)
    = Event.with_signUpTimestamps ∅ (Event.with_signedUpStaff [] event) ∧
    cancelSignup (Authenticated userId) eventId st1
    = (Json updatedEvent, st1, [KvSetEvent eventId updatedEvent]).
Proof.
  intros Hev. eexists _, _, _.
  split; [by apply cancelSignup_run|].
  split; [done|]. split; [done|]. split; [done|].
  split.
  { intros id. unfold signedUp at 1. simpl.
    rewrite list_elem_of_filter. tauto. }
  split; [done|].
  split; [apply lookup_delete_eq|].
  split; [intros k Hk; by apply lookup_delete_ne|].
  split; [done|].
  rewrite (cancelSignup_run _ userId eventId
             (Event.with_signUpTimestamps
                (delete userId (default ∅ (Event.signUpTimestamps event)))
                (Event.with_signedUpStaff
                   (filter (fun id => id ≠ userId) (signedUp event)) event)))
    by apply lookup_insert_eq.
  unfold signedUp. simpl.
  rewrite delete_delete_eq, list_filter_filter_l by done.
  unfold set_events. simpl. by rewrite insert_insert_eq.
Qed.

(** The caller below never signed up for the event. *)
Lemma cancelSignup_removes_caller_idempotent_witness :
  ∃ updatedEvent st1,
    cancelSignup (Authenticated "d") "e1" Fixture.st0
    = (Json updatedEvent, st1, [KvSetEvent "e1" updatedEvent]) ∧
    signedUp updatedEvent = ["a"; "b"; "c"] ∧
    cancelSignup (Authenticated "d") "e1" st1
    = (Json updatedEvent, st1, [KvSetEvent "e1" updatedEvent]).
Proof.
  destruct (cancelSignup_removes_caller_idempotent Fixture.st0 "d" "e1"
              Fixture.evOpen)
    as (updatedEvent & st1 & ts & Hrun & _ & _ & Hs & _ & _ & _ & _ & _
        & Hagain).
  - reflexivity.
  - exists updatedEvent, st1. split; [exact Hrun|]. split; [|exact Hagain].
    unfold signedUp. rewrite Hs. reflexivity.
Defined.

(** ** Editing an event *)

Section Update.
Variable env : Env.

Lemma updateEvent_run st userId eventId existingEvent eventData :
  isAdmin st userId →
  events st !! eventId = Some existingEvent →
  let updatedEvent := mergeEvent eventId existingEvent eventData in
  let eventStatus := default Open (Event.status updatedEvent) in
  let changes := diffFields env existingEvent updatedEvent in
  updateEvent env (Authenticated userId) eventId eventData st
  = (Json updatedEvent,
     set_events <[eventId := updatedEvent]> st,
     KvSetEvent eventId updatedEvent ::
       (if bool_decide (eventStatus ≠ Draft) && (0 <? length changes)%nat
           && telegramConnected st
        then flat_map (telegramOutId env st (EventUpdated changes))
                      (staffToNotify eventStatus updatedEvent)
        else [])).
Proof.
  intros Hadm Hev. simpl. unfold updateEvent, kvGetEvent, kvSetEvent. run.
  rewrite requireAdmin_ok by done. simpl. rewrite Hev. simpl.
  rewrite without_self. simpl.
  destruct (bool_decide (default Open _ ≠ Draft)); simpl; [|done].
  destruct (0 <? length (diffFields env _ _))%nat; simpl; [|done].
  destruct (0 <? length (staffToNotify _ _))%nat eqn:Hn; simpl.
  - change (telegramConnected (set_events _ st)) with (telegramConnected st).
    destruct (telegramConnected st); [|done].
    rewrite telegramToIds_run. simpl. by rewrite app_nil_r.
  - apply Nat.ltb_ge in Hn.
    destruct (staffToNotify _ _); [|simpl in Hn; lia].
    simpl. by destruct (telegramConnected st).
Qed.

Lemma length_changeLine {A} `{EqDecision A} (old new : A) (line : string) :
  length (changeLine old new line) = differs old new.
Proof. unfold changeLine, differs. by case_decide. Qed.

Lemma length_diffFields old new :
  length (diffFields env old new) = differingFields old new.
Proof.
  unfold diffFields, differingFields.
  rewrite !length_app, !length_changeLine. lia.
Qed.

Lemma elem_of_changeLine {A} `{EqDecision A} (old new : A) (line : string) :
  old ≠ new → line ∈ changeLine old new line.
Proof. intros Hne. unfold changeLine. rewrite decide_True by done. left. Qed.

Lemma attempts_updateTrace st eventStatus changes updatedEvent :
  attempts
    (if bool_decide (eventStatus ≠ Draft) && (0 <? length changes)%nat
        && telegramConnected st
     then flat_map (telegramOutId env st (EventUpdated changes))
                   (staffToNotify eventStatus updatedEvent)
     else [])
  = if (0 <? length changes)%nat && telegramConnected st
    then (fun id => (Telegram, id, EventUpdated changes)) <$>
           filter (fun id => telegramReachable env st id = true)
                  (staffToNotify eventStatus updatedEvent)
    else [].
Proof.
  destruct (0 <? length changes)%nat, (telegramConnected st);
    rewrite ?andb_false_r; simpl; try done.
  rewrite andb_true_r.
  destruct (bool_decide_reflect (eventStatus ≠ Draft)) as [Hd|Hd].
  - apply attempts_telegramOutId.
  - apply dec_stable in Hd. by rewrite Hd.
Qed.

(** C8.  An edit always saves the merged event.  When none of the nine
    compared fields differs nobody is sent an update; when some do, the
    update goes to [signedUpStaff] for an open event (an event stored
    without a status counts as open), to [confirmedStaff] for a closed one
    and to nobody for any other status, and carries one line per
    differing field, the description and notes lines being the fixed
    texts. *)
Theorem updateEvent_notifies_by_status st userId eventId existingEvent
    eventData :
  isAdmin st userId →
  events st !! eventId = Some existingEvent →
  let updatedEvent := mergeEvent eventId existingEvent eventData in
  let changes := diffFields env existingEvent updatedEvent in
  ∃ st' tr recipients,
    updateEvent env (Authenticated userId) eventId eventData st
    = (Json updatedEvent, st', tr) ∧
    events st' !! eventId = Some updatedEvent ∧
    length changes = differingFields existingEvent updatedEvent ∧
    (Event.description existingEvent ≠ Event.description updatedEvent →
     "Description updated" ∈ changes) ∧
    (Event.notes existingEvent ≠ Event.notes updatedEvent →
     "Notes updated" ∈ changes) ∧
    match Event.status updatedEvent with
    | Some Open | None => recipients = signedUp existingEvent
    | Some Closed => recipients = confirmed existingEvent
    | Some _ => recipients = []
    end ∧
    (differingFields existingEvent updatedEvent = 0%nat → attempts tr = []) ∧
    (differingFields existingEvent updatedEvent ≠ 0%nat →
     attempts tr
     = if telegramConnected st
       then (fun id => (Telegram, id, EventUpdated changes)) <$>
              filter (fun id => telegramReachable env st id = true) recipients
       else []).
Proof.
  intros Hadm Hev. cbv zeta.
  pose proof (updateEvent_run st userId eventId existingEvent eventData
                Hadm Hev) as Hrun. cbv zeta in Hrun.
  pose proof (length_diffFields existingEvent
                (mergeEvent eventId existingEvent eventData)) as Hlen.
  set (updatedEvent := mergeEvent eventId existingEvent eventData) in *.
  set (changes := diffFields env existingEvent updatedEvent) in *.
  eexists _, _, (staffToNotify (default Open (Event.status updatedEvent))
                               updatedEvent).
  split; [exact Hrun|].
  split; [apply lookup_insert_eq|].
  split; [exact Hlen|].
  split.
  { intros Hne. unfold changes, diffFields.
    rewrite !elem_of_app. do 7 right. left. by apply elem_of_changeLine. }
  split.
  { intros Hne. unfold changes, diffFields.
    rewrite !elem_of_app. do 8 right. by apply elem_of_changeLine. }
  split.
  { by destruct (Event.status updatedEvent) as [[]|]. }
  change (attempts (?x :: ?l)) with (attempts l).
  rewrite attempts_updateTrace, <- Hlen.
  destruct (length changes); simpl.
  - split; [done|]. intros Hn. lia.
  - split; [done|]. intros _. done.
Qed.

End Update.

(** The spec's example: only the location of an open event is edited. *)
Lemma updateEvent_notifies_by_status_witness :
  ∃ st' tr,
    updateEvent Fixture.env0 (Authenticated "adm") "e1" Fixture.dataLocation
                Fixture.st0
    = (Json (mergeEvent "e1" Fixture.evOpen Fixture.dataLocation), st', tr) ∧
    attempts tr
    = (fun id => (Telegram, id,
                  EventUpdated ["Location: " +:+ quoted "Hall" +:+ " → "
                                  +:+ quoted "Barn"]))
        <$> ["a"; "b"; "c"].
Proof.
  destruct (updateEvent_notifies_by_status Fixture.env0 Fixture.st0 "adm" "e1"
              Fixture.evOpen Fixture.dataLocation)
    as (st' & tr & recipients & Hrun & _ & _ & _ & _ & Hrec & _ & Hatt).
  - exists Fixture.adm. split; reflexivity.
  - reflexivity.
  - exists st', tr. split; [exact Hrun|].
    simpl in Hrec. rewrite Hatt, Hrec by (vm_compute; discriminate).
    reflexivity.
Defined.

(** Saving what is already stored notifies nobody. *)
Example updateEvent_same_payload_silent :
  ∃ st',
    updateEvent Fixture.env0 (Authenticated "adm") "e1" Fixture.dataSame
                Fixture.st0
    = (Json Fixture.evOpen, st', [KvSetEvent "e1" Fixture.evOpen]).
Proof. eexists. reflexivity. Qed.


(** ** How each request changes the event table *)

Section Steps.
Variable env : Env.

Ltac stay := left; reflexivity.
Ltac replace_event :=
  right; eexists _, _; split; [eassumption|]; split; [reflexivity|].

Lemma signup_eventStep auth eventId st :
  eventStep eventId frame st (signup env auth eventId st).1.2.
Proof.
  unfold signup, kvGetEvent, kvSetEvent.
  destruct auth as [userId|]; run; [|stay].
  destruct (isEmpty eventId); [stay|]. simpl.
  destruct (events st !! eventId) as [event|] eqn:Hev; [|stay]. simpl.
  destruct (match Event.signedUpStaff event with
            | Some l => includes l userId
            | None => false
            end); [stay|].
  destruct (match parseDate env _ with
            | Some t => t <? now env
            | None => false
            end); [stay|].
  simpl. replace_event; done.
Qed.

Lemma cancelSignup_eventStep auth eventId st :
  eventStep eventId frame st (cancelSignup auth eventId st).1.2.
Proof.
  unfold cancelSignup, kvGetEvent, kvSetEvent.
  destruct auth as [userId|]; run; [|stay].
  destruct (events st !! eventId) as [event|] eqn:Hev; [|stay]. simpl.
  replace_event; done.
Qed.

Lemma adminSignup_eventStep auth eventId staffIds st :
  eventStep eventId frame st (adminSignup env auth eventId staffIds st).1.2.
Proof.
  unfold adminSignup, kvGetEvent, kvSetEvent.
  destruct auth as [userId|]; run; [|stay].
  destruct (requireAdmin_decide st userId) as [[_ H]|H]; rewrite H; [|stay].
  simpl.
  destruct (isEmpty eventId); [stay|]. simpl.
  destruct (events st !! eventId) as [event|] eqn:Hev; [|stay]. simpl.
  destruct (bool_decide (Event.status event = Some Cancelled)); [stay|].
  destruct (without staffIds _); [stay|].
  simpl. replace_event; done.
Qed.

Lemma reinstateEvent_eventStep auth eventId st :
  eventStep eventId frame st (reinstateEvent auth eventId st).1.2.
Proof.
  unfold reinstateEvent, kvGetEvent, kvSetEvent.
  destruct auth as [userId|]; run; [|stay].
  destruct (requireAdmin_decide st userId) as [[_ H]|H]; rewrite H; [|stay].
  simpl.
  destruct (events st !! eventId) as [event|] eqn:Hev; [|stay]. simpl.
  replace_event; done.
Qed.


Lemma cancelEmailOne_run u st :
  cancelEmailOne env u st = (Json tt, st, cancelEmailOut env u).
Proof.
  unfold cancelEmailOne, cancelEmailOut.
  destruct (resendApiKey env) as [key|]; [|done].
  by destruct (isEmpty key).
Qed.

Lemma cancelEvent_run st userId eventId existingEvent :
  isAdmin st userId →
  events st !! eventId = Some existingEvent →
  let cancelledEvent := Event.with_status Cancelled existingEvent in
  let participatingStaff :=
    filter (fun u => includes (signedUp existingEvent) u.1 = true)
           (map_to_list (users st)) in
  cancelEvent env (Authenticated userId) eventId st
  = match signedUp existingEvent with
    | [] => (Json cancelledEvent,
             set_events <[eventId := cancelledEvent]> st,
             [KvSetEvent eventId cancelledEvent])
    | _ :: _ =>
      let purgedEvent := Event.with_signedUpStaff [] cancelledEvent in
      (Json purgedEvent,
       set_events <[eventId := purgedEvent]> st,
       KvSetEvent eventId cancelledEvent ::
         flat_map (cancelEmailOut env) participatingStaff
         ++ (if telegramConnected st
             then flat_map (fun u => telegramOut env st EventCancelled u.1 u.2)
                           participatingStaff
             else [])
         ++ [KvSetEvent eventId purgedEvent])
    end.
Proof.
  intros Hadm Hev. cbv zeta. unfold cancelEvent, kvGetEvent, kvSetEvent. run.
  rewrite requireAdmin_ok by done. simpl. rewrite Hev. simpl.
  unfold signedUp.
  destruct (Event.signedUpStaff existingEvent) as [[|s rest]|]; simpl; try done.
  rewrite (forEach_run _ _ (cancelEmailOut env))
    by (intros; apply cancelEmailOne_run).
  simpl.
  change (telegramConnected (set_events _ st)) with (telegramConnected st).
  destruct (telegramConnected st).
  - rewrite (forEach_run _ _
       (fun u => telegramOut env (set_events
          <[eventId := Event.with_status Cancelled existingEvent]> st)
          EventCancelled u.1 u.2))
      by (intros; apply telegramOne_run).
    simpl. unfold set_events. simpl. rewrite insert_insert_eq, ?app_nil_r.
    done.
  - simpl. unfold set_events. simpl. rewrite insert_insert_eq. done.
Qed.


Lemma cancelEvent_eventStep auth eventId st :
  eventStep eventId frame st (cancelEvent env auth eventId st).1.2.
Proof.
  destruct auth as [userId|]; [|stay].
  destruct (requireAdmin_decide st userId) as [[Hadm _]|H].
  - destruct (events st !! eventId) as [event|] eqn:Hev.
    + rewrite (cancelEvent_run st userId eventId event) by done.
      destruct (signedUp event); replace_event; done.
    + unfold cancelEvent, kvGetEvent. run.
      rewrite requireAdmin_ok by done. simpl. rewrite Hev. stay.
  - unfold cancelEvent. run. rewrite H. stay.
Qed.

Lemma closeEvent_eventStep auth eventId A st :
  eventStep eventId
            (fun e e' => Event.pointsAwarded e' = Event.pointsAwarded e ∧
                         Event.confirmedStaff e' = Some A)
            st (closeEvent env auth eventId A st).1.2.
Proof.
  destruct auth as [userId|]; [|stay].
  destruct (requireAdmin_decide st userId) as [[Hadm Hok]|H].
  - destruct (isEmpty eventId) eqn:Hid.
    { unfold closeEvent. run. rewrite Hok. simpl. rewrite Hid. stay. }
    apply isEmpty_false in Hid.
    destruct (events st !! eventId) as [event|] eqn:Hev.
    + rewrite (closeEvent_run env st userId eventId event) by done.
      replace_event; done.
    + unfold closeEvent, kvGetEvent. run. rewrite Hok. simpl.
      apply isEmpty_false in Hid. rewrite Hid. simpl. rewrite Hev. stay.
  - unfold closeEvent. run. rewrite H. stay.
Qed.

Lemma updateEvent_eventStep auth eventId eventData st :
  eventStep eventId
            (fun e e' => e' = mergeEvent eventId e eventData)
            st (updateEvent env auth eventId eventData st).1.2.
Proof.
  destruct auth as [userId|]; [|stay].
  destruct (requireAdmin_decide st userId) as [[Hadm Hok]|H].
  - destruct (events st !! eventId) as [event|] eqn:Hev.
    + rewrite (updateEvent_run env st userId eventId event) by done.
      replace_event; done.
    + unfold updateEvent, kvGetEvent. run. rewrite Hok. simpl.
      rewrite Hev. stay.
  - unfold updateEvent. run. rewrite H. stay.
Qed.

(** The replies of [confirmOne]: an error that leaves everything as it
    was, or the award. *)
Lemma confirmOne_cases auth eventId staffId st :
  (∃ code error,
     confirmOne env auth eventId staffId st = (Error code error, st, [])) ∨
  (∃ userId event staff tr,
     auth = Authenticated userId ∧ isAdmin st userId ∧
     events st !! eventId = Some event ∧
     users st !! staffId = Some staff ∧
     staffId ∈ confirmed event ∧ (staffId ∉ awarded event) ∧
     (let newPoints := Staff.points staff + Event.points event in
     let newLevel := LevelResolver.calculateLevel (levels st) newPoints in
     let updatedStaff := Staff.with_points_level newPoints newLevel staff in
     let updatedEvent :=
       Event.with_pointsAwarded (awarded event ++ [staffId]) event in
     let adjustment :=
       Adjustment.mk (pretty (now env)) staffId (Event.points event)
         (completedReason event) (toISOString env (now env)) userId
         (Some eventId) in
     confirmOne env auth eventId staffId st
     = (Json (mkConfirmResult updatedStaff updatedEvent adjustment
                (negb (String.eqb (Staff.level staff) newLevel))),
        set_adjustments <[pretty (now env) := adjustment]>
          (set_events <[eventId := updatedEvent]>
             (set_users <[staffId := updatedStaff]> st)),
        KvSetUser staffId updatedStaff :: KvSetEvent eventId updatedEvent
          :: KvSetAdjustment (pretty (now env)) adjustment :: tr) ∧
     (∀ x, x ∈ tr → isWrite x = false))).
Proof.
  unfold confirmOne, kvGetEvent, kvGetUser, kvSetEvent, kvSetUser,
    kvSetAdjustment, calculateLevelM.
  destruct auth as [userId|]; run; [|left; eauto].
  destruct (requireAdmin_decide st userId) as [[Hadm Hok]|H];
    [rewrite Hok|rewrite H; left; eauto]. simpl.
  destruct (isEmpty eventId || isEmpty staffId); [left; eauto|]. simpl.
  destruct (events st !! eventId) as [event|] eqn:Hev; [|left; eauto]. simpl.
  destruct (users st !! staffId) as [staff|] eqn:Hst; [|left; eauto]. simpl.
  destruct (includes _ staffId) eqn:Haw; [left; eauto|].
  destruct (includes (default [] (Event.confirmedStaff event)) staffId)
    eqn:Hco; simpl; [|left; eauto].
  apply includes_false in Haw. apply includes_true in Hco.
  right. exists userId, event, staff.
  destruct (sendEmail env (Staff.email staff)) as [[address ok]|]; simpl.
  - exists [Deliver Email staffId address PointsEarned ok].
    split_and!; try done.
    intros x Hx. apply list_elem_of_singleton in Hx. by subst.
  - exists []. split_and!; try done.
    intros x Hx. by apply elem_of_nil in Hx.
Qed.


(** The award loop writes staff records and adjustments of the ids it is
    given, and nothing else. *)
Lemma awardLoop_run event eventId userId ids acc st :
  ∃ acc' st' tr,
    awardLoop env event eventId userId ids acc st = (Json acc', st', tr) ∧
    events st' = events st ∧
    (∀ x, x ∈ tr →
          ∃ id, id ∈ ids ∧
                ((∃ s, x = KvSetUser id s) ∨
                 (∃ k a, x = KvSetAdjustment k a ∧
                         Adjustment.staffId a = id))).
Proof.
  revert acc st. induction ids as [|staffId rest IH]; intros acc st; simpl.
  - exists acc, st, []. split; [done|]. split; [done|].
    intros x Hx. by apply elem_of_nil in Hx.
  - unfold kvGetUser, calculateLevelM, kvSetUser, kvSetAdjustment. run.
    destruct (users st !! staffId) as [staff|]; simpl.
    + match goal with
      | |- context [awardLoop env event eventId userId rest ?a ?s] =>
        destruct (IH a s) as (acc' & st' & tr & Hrun & Hev & Htr);
        rewrite Hrun
      end.
      eexists _, _, _. split; [reflexivity|]. split; [by rewrite Hev|].
      intros x Hx. rewrite !elem_of_cons in Hx.
      destruct Hx as [->|[->|Hx]].
      * exists staffId. split; [left|]. left. eauto.
      * exists staffId. split; [left|]. right. eauto.
      * destruct (Htr x Hx) as (id & Hid & Hcase).
        exists id. split; [by right|done].
    + destruct (IH acc st) as (acc' & st' & tr & Hrun & Hev & Htr).
      rewrite Hrun. eexists _, _, _. split; [reflexivity|]. split; [done|].
      intros x Hx. destruct (Htr x Hx) as (id & Hid & Hcase).
      exists id. split; [by right|done].
Qed.

Lemma confirmAll_cases auth eventId st :
  (∃ code error,
     confirmAll env auth eventId st = (Error code error, st, [])) ∨
  (∃ userId event result st1 tr1,
     auth = Authenticated userId ∧ isAdmin st userId ∧
     events st !! eventId = Some event ∧
     events st1 = events st ∧
     (let staffToConfirm := without (confirmed event) (awarded event) in
      let updatedEvent :=
        Event.with_pointsAwarded (awarded event ++ staffToConfirm) event in
      confirmAll env auth eventId st
      = (Json result, set_events <[eventId := updatedEvent]> st1,
         tr1 ++ [KvSetEvent eventId updatedEvent]) ∧
      ca_event result = updatedEvent ∧
      ∀ x, x ∈ tr1 →
           ∃ id, id ∈ staffToConfirm ∧
                 ((∃ s, x = KvSetUser id s) ∨
                  (∃ k a, x = KvSetAdjustment k a ∧
                          Adjustment.staffId a = id)))).
Proof.
  unfold confirmAll, kvGetEvent, kvSetEvent.
  destruct auth as [userId|]; run; [|left; eauto].
  destruct (requireAdmin_decide st userId) as [[Hadm Hok]|H];
    [rewrite Hok|rewrite H; left; eauto]. simpl.
  destruct (isEmpty eventId); [left; eauto|]. simpl.
  destruct (events st !! eventId) as [event|] eqn:Hev; [|left; eauto]. simpl.
  fold (confirmed event) (awarded event).
  destruct (without (confirmed event) (awarded event)) as [|s0 rest] eqn:Hw;
    [left; eauto|].
  destruct (awardLoop_run event eventId userId (s0 :: rest) ([], [], []) st)
    as (acc' & st' & tr & Hrun & Hev' & Htr).
  rewrite Hrun. simpl.
  right. exists userId, event. eexists _, st', tr.
  cbv zeta. rewrite Hw. split_and!; try done.
Qed.


Lemma confirmOne_eventStep auth eventId staffId st :
  eventStep eventId
            (fun e e' => confirmed e' = confirmed e ∧
                         awarded e' = awarded e ++ [staffId] ∧
                         staffId ∈ confirmed e ∧ staffId ∉ awarded e)
            st (confirmOne env auth eventId staffId st).1.2.
Proof.
  destruct (confirmOne_cases auth eventId staffId st)
    as [(code & error & ->)|(userId & event & staff & tr & _ & _ & Hev & _
                             & Hco & Haw & Hrun & _)]; [stay|].
  cbv zeta in Hrun. rewrite Hrun. replace_event. done.
Qed.

Lemma confirmAll_eventStep auth eventId st :
  eventStep eventId
            (fun e e' => confirmed e' = confirmed e ∧
                         awarded e'
                         = awarded e ++ without (confirmed e) (awarded e))
            st (confirmAll env auth eventId st).1.2.
Proof.
  destruct (confirmAll_cases auth eventId st)
    as [(code & error & ->)|(userId & event & result & st1 & tr1 & _ & _
                             & Hev & Hev1 & Hrun & _)]; [stay|].
  cbv zeta in Hrun. rewrite Hrun. unfold eventStep. simpl. rewrite Hev1.
  replace_event. done.
Qed.

Lemma eventStep_preserves (P : Event.t -> Prop) eventId R st st' :
  eventStep eventId R st st' →
  (∀ e e', events st !! eventId = Some e → R e e' → P e → P e') →
  (∀ id e, events st !! id = Some e → P e) →
  ∀ id e, events st' !! id = Some e → P e.
Proof.
  intros [Heq|(e0 & e0' & Hlk & Heq & HR)] Hstep Hinv id e;
    rewrite Heq; [apply Hinv|].
  destruct (decide (eventId = id)) as [->|Hne].
  - rewrite lookup_insert_eq. intros [= <-]. eauto.
  - rewrite lookup_insert_ne by done. apply Hinv.
Qed.

Lemma eventStep_weaken (R R' : Event.t -> Event.t -> Prop) eventId st st' :
  (∀ e e', R e e' → R' e e') →
  eventStep eventId R st st' → eventStep eventId R' st st'.
Proof.
  intros HR [Heq|(e & e' & H1 & H2 & H3)]; [by left|].
  right. exists e, e'. eauto.
Qed.

Lemma NoDup_award_all (confirmedStaff pointsAwarded : list string) :
  NoDup pointsAwarded → NoDup confirmedStaff →
  NoDup (pointsAwarded ++ without confirmedStaff pointsAwarded).
Proof.
  intros Ha Hc. apply NoDup_app. split; [done|]. split.
  - intros x Hx Hw. apply elem_of_without in Hw. tauto.
  - by apply NoDup_filter.
Qed.

Lemma NoDup_award_one (pointsAwarded : list string) (staffId : string) :
  NoDup pointsAwarded → staffId ∉ pointsAwarded →
  NoDup (pointsAwarded ++ [staffId]).
Proof.
  intros Ha Hn. apply NoDup_app. split; [done|]. split.
  - intros x Hx Hs. apply list_elem_of_singleton in Hs. by subst.
  - apply NoDup_singleton.
Qed.

Lemma award_step_once c st :
  isAward c →
  awardedOnce st ∧ confirmedOnce st →
  awardedOnce (step env c st) ∧ confirmedOnce (step env c st).
Proof.
  intros Hc [Ha Hco].
  assert (Hboth : ∀ id e, events (step env c st) !! id = Some e →
                          NoDup (awarded e) ∧ NoDup (confirmed e)).
  { destruct c; try done; simpl.
    - eapply eventStep_preserves; [apply confirmOne_eventStep| |by eauto].
      intros e e' _ (-> & -> & _ & Hn) [H1 H2].
      split; [by apply NoDup_award_one|done].
    - eapply eventStep_preserves; [apply confirmAll_eventStep| |by eauto].
      intros e e' _ (-> & ->) [H1 H2].
      split; [by apply NoDup_award_all|done]. }
  split; intros id e Hlk; by apply (Hboth id e).
Qed.

Lemma award_run_once calls st :
  Forall isAward calls →
  awardedOnce st ∧ confirmedOnce st →
  awardedOnce (run env calls st) ∧ confirmedOnce (run env calls st).
Proof.
  intros Hcalls. revert st.
  induction Hcalls as [|c calls Hc _ IH]; intros st Hinv; [done|].
  simpl. apply IH. by apply award_step_once.
Qed.

End Steps.

(** ** What an edit cannot touch *)

(** C9.  Whatever the request body carries, the event stored after an edit
    has the [signedUpStaff], [confirmedStaff], [hasBeenClosedBefore] and
    [createdAt] of the event stored before it; for an admin the stored
    event is the merge of the old event and the body, and it is the
    reply. *)
Theorem updateEvent_keeps_membership env auth eventId eventData st
    existingEvent :
  events st !! eventId = Some existingEvent →
  ∃ reply st' tr storedEvent,
    updateEvent env auth eventId eventData st = (reply, st', tr) ∧
    events st' !! eventId = Some storedEvent ∧
    Event.signedUpStaff storedEvent = Event.signedUpStaff existingEvent ∧
    Event.confirmedStaff storedEvent = Event.confirmedStaff existingEvent ∧
    Event.hasBeenClosedBefore storedEvent
    = Event.hasBeenClosedBefore existingEvent ∧
    Event.createdAt storedEvent = Event.createdAt existingEvent ∧
    (∀ userId, auth = Authenticated userId → isAdmin st userId →
               storedEvent = mergeEvent eventId existingEvent eventData ∧
               reply = Json storedEvent).
Proof.
  intros Hev.
  destruct (updateEvent env auth eventId eventData st) as [[reply st'] tr]
    eqn:Hrun.
  exists reply, st', tr.
  pose proof (updateEvent_eventStep env auth eventId eventData st) as Hstep.
  rewrite Hrun in Hstep. simpl in Hstep.
  destruct Hstep as [Heq|(e & e' & Hlk & Heq & ->)].
  - exists existingEvent. rewrite Heq. split_and!; try done.
    intros userId -> Hadm.
    rewrite (updateEvent_run env st userId eventId existingEvent) in Hrun
      by done.
    injection Hrun as <- <- <-. simpl in Heq.
    apply (f_equal (lookup eventId)) in Heq.
    rewrite lookup_insert_eq, Hev in Heq. injection Heq as Heq.
    split; [by symmetry | by f_equal].
  - rewrite Hev in Hlk. injection Hlk as <-.
    exists (mergeEvent eventId existingEvent eventData).
    rewrite Heq, lookup_insert_eq. split_and!; try done.
    intros userId -> Hadm.
    rewrite (updateEvent_run env st userId eventId existingEvent) in Hrun
      by done.
    by injection Hrun as <- <- <-.
Qed.

Lemma updateEvent_keeps_membership_witness :
  ∃ reply st' tr storedEvent,
    updateEvent Fixture.env0 (Authenticated "adm") "e2" Fixture.dataOverride
                Fixture.st0
    = (reply, st', tr) ∧
    events st' !! "e2" = Some storedEvent ∧
    Event.signedUpStaff storedEvent = Some ["a"; "b"; "c"] ∧
    Event.confirmedStaff storedEvent = Some ["a"; "b"] ∧
    Event.hasBeenClosedBefore storedEvent = Some true ∧
    Event.createdAt storedEvent = "2025-01-01T00:00:00.000Z".
Proof.
  destruct (updateEvent_keeps_membership Fixture.env0 (Authenticated "adm")
              "e2" Fixture.dataOverride Fixture.st0 Fixture.evClosed)
    as (reply & st' & tr & storedEvent & Hrun & Hst & H1 & H2 & H3 & H4 & _).
  - reflexivity.
  - exists reply, st', tr, storedEvent. rewrite H1, H2, H3, H4.
    split_and!; done.
Defined.

(** ** Awarding points *)

Section Awards.
Variable env : Env.

(** The award guard.  Over any sequence of [confirmOne] and
    [confirmAll] requests [pointsAwarded] keeps listing every staff id at
    most once, provided no [confirmedStaff] list names an id twice;
    [confirmOne] for a pair already in [pointsAwarded] is an error that
    writes nothing; and [confirmAll] writes staff records and adjustments
    only for ids of [confirmedStaff] that are not in [pointsAwarded]. *)
Theorem awards_at_most_once :
  (∀ calls st,
     Forall isAward calls → awardedOnce st → confirmedOnce st →
     awardedOnce (run env calls st)) ∧
  (∀ auth eventId staffId st event,
     events st !! eventId = Some event → staffId ∈ awarded event →
     ∃ code error,
       confirmOne env auth eventId staffId st = (Error code error, st, [])) ∧
  (∀ auth eventId st event r st' tr,
     events st !! eventId = Some event →
     confirmAll env auth eventId st = (r, st', tr) →
     ∀ x, x ∈ tr →
          (∃ e, x = KvSetEvent eventId e) ∨
          ∃ id, id ∈ confirmed event ∧ (id ∉ awarded event) ∧
                ((∃ s, x = KvSetUser id s) ∨
                 (∃ k a, x = KvSetAdjustment k a ∧
                         Adjustment.staffId a = id))).
Proof.
  split; [|split].
  - intros calls st Hcalls Ha Hc. by apply award_run_once.
  - intros auth eventId staffId st event Hev Hin.
    destruct (confirmOne_cases env auth eventId staffId st)
      as [?|(userId & event' & staff & tr & _ & _ & Hev' & _ & _ & Hn & _)];
      [done|].
    rewrite Hev in Hev'. injection Hev' as <-. done.
  - intros auth eventId st event r st' tr Hev Hrun x Hx.
    destruct (confirmAll_cases env auth eventId st)
      as [(code & error & Herr)
         |(userId & event' & result & st1 & tr1 & _ & _ & Hev' & _ & Hrun'
           & _ & Htr)].
    + rewrite Herr in Hrun. injection Hrun as <- <- <-.
      by apply elem_of_nil in Hx.
    + rewrite Hev in Hev'. injection Hev' as <-.
      cbv zeta in Hrun'. rewrite Hrun' in Hrun. injection Hrun as <- <- <-.
      apply elem_of_app in Hx as [Hx|Hx].
      * right. destruct (Htr x Hx) as (id & Hid & Hcase).
        apply elem_of_without in Hid as [Hc Ha]. eauto.
      * left. apply list_elem_of_singleton in Hx. eauto.
Qed.

(** C3, as the code has it.  A request keeps [pointsAwarded ⊆
    confirmedStaff] on every event unless it is a close whose approved
    list leaves out an awarded staff member or an edit whose body carries
    [pointsAwarded]; a close by an admin leaves [pointsAwarded] as it was
    and replaces [confirmedStaff], so the inclusion holds after it exactly
    when every awarded id is approved. *)
Theorem awarded_stay_confirmed :
  (∀ c st,
     awardedAreConfirmed st → keepsAwarded st c →
     awardedAreConfirmed (step env c st)) ∧
  (∀ st userId eventId event A,
     isAdmin st userId → eventId ≠ EmptyString →
     events st !! eventId = Some event →
     ∃ updatedEvent,
       events (step env (CloseEvent (Authenticated userId) eventId A) st)
         !! eventId = Some updatedEvent ∧
       awarded updatedEvent = awarded event ∧
       confirmed updatedEvent = A ∧
       (awarded updatedEvent ⊆ confirmed updatedEvent ↔ awarded event ⊆ A)).
Proof.
  split.
  - intros c st Hinv Hkeep. unfold awardedAreConfirmed in *.
    assert (Hframe : ∀ eventId st',
              eventStep eventId frame st st' →
              ∀ id e, events st' !! id = Some e → awarded e ⊆ confirmed e).
    { intros eventId st' Hstep.
      apply (eventStep_preserves (fun e => awarded e ⊆ confirmed e)
               eventId frame st st' Hstep); [|done].
      intros e0 e0' _ [H1 H2]. unfold awarded, confirmed. by rewrite H1, H2. }
    destruct c; simpl in *.
    + eapply Hframe, signup_eventStep.
    + eapply Hframe, cancelSignup_eventStep.
    + eapply Hframe, adminSignup_eventStep.
    + eapply Hframe.
      eapply eventStep_weaken; [|apply updateEvent_eventStep].
      intros e0 e0' ->. split; [|done]. simpl. by rewrite Hkeep.
    + eapply Hframe, cancelEvent_eventStep.
    + eapply Hframe, reinstateEvent_eventStep.
    + apply (eventStep_preserves (fun e => awarded e ⊆ confirmed e)
               eventId _ st _
               (closeEvent_eventStep env auth eventId approvedStaffIds st));
        [|done].
      intros e0 e0' Hlk [H1 H2] _. unfold awarded, confirmed.
      rewrite H1, H2. by apply Hkeep.
    + apply (eventStep_preserves (fun e => awarded e ⊆ confirmed e)
               eventId _ st _
               (confirmOne_eventStep env auth eventId staffId st)); [|done].
      intros e0 e0' _ (-> & -> & Hin & _) Hsub x Hx.
      apply elem_of_app in Hx as [Hx|Hx]; [by apply Hsub|].
      apply list_elem_of_singleton in Hx. by subst.
    + apply (eventStep_preserves (fun e => awarded e ⊆ confirmed e)
               eventId _ st _
               (confirmAll_eventStep env auth eventId st)); [|done].
      intros e0 e0' _ (-> & ->) Hsub x Hx.
      apply elem_of_app in Hx as [Hx|Hx]; [by apply Hsub|].
      apply elem_of_without in Hx. tauto.
  - intros st userId eventId event A Hadm Hid Hev. simpl.
    rewrite (closeEvent_run env st userId eventId event) by done.
    eexists. split; [apply lookup_insert_eq|]. done.
Qed.

(** C4, as the code has it.  [confirmOne] for a staff id that is not in
    [confirmedStaff] is an error that writes nothing and sends nothing,
    whoever calls.  For an admin and non-empty ids the reply is 404 when
    the staff id has no record, and otherwise 400: already awarded when
    the id is in [pointsAwarded], not selected when it is not. *)
Theorem confirmOne_unselected_writes_nothing auth eventId staffId st event :
  events st !! eventId = Some event →
  staffId ∉ confirmed event →
  ∃ code error,
    confirmOne env auth eventId staffId st = (Error code error, st, []) ∧
    (∀ userId,
       auth = Authenticated userId → isAdmin st userId →
       eventId ≠ EmptyString → staffId ≠ EmptyString →
       match users st !! staffId with
       | None => code = 404 ∧ error = "Staff member not found"
       | Some _ =>
         code = 400 ∧
         error = if includes (awarded event) staffId
                 then "Points already awarded to this staff member"
                 else "Staff member was not selected for this event"
       end).
Proof.
  intros Hev Hn. apply includes_false in Hn.
  unfold confirmOne, kvGetEvent, kvGetUser.
  destruct auth as [userId|]; run.
  2: { eexists _, _. split; [done|]. intros ? [=]. }
  destruct (requireAdmin_decide st userId) as [[Hadm Hok]|H].
  2: { rewrite H. eexists _, _. split; [done|]. intros ? [= <-] (u & Hu & Hr).
       exfalso. revert H. unfold requireAdmin, kvGetUser. run.
       rewrite Hu, decide_True by done. done. }
  rewrite Hok. simpl.
  destruct (isEmpty eventId) eqn:He; simpl.
  { eexists _, _. split; [done|]. intros ? _ _ Hne.
    apply isEmpty_false in Hne. congruence. }
  destruct (isEmpty staffId) eqn:Hs; simpl.
  { eexists _, _. split; [done|]. intros ? _ _ _ Hne.
    apply isEmpty_false in Hne. congruence. }
  rewrite Hev. simpl.
  destruct (users st !! staffId) as [staff|]; simpl.
  2: { eexists _, _. split; [done|]. done. }
  fold (awarded event) (confirmed event). unfold confirmed in Hn.
  fold (confirmed event) in Hn.
  destruct (includes (awarded event) staffId).
  { eexists _, _. split; [done|]. done. }
  rewrite Hn. simpl. eexists _, _. split; [done|]. done.
Qed.

End Awards.

Lemma confirmedOnce_st0 : confirmedOnce Fixture.st0.
Proof.
  intros id e H. apply elem_of_list_to_map_2 in H.
  repeat (apply elem_of_cons in H as [[= -> ->]|H]);
    try (apply (bool_decide_unpack _); by vm_compute).
  by apply elem_of_nil in H.
Qed.

Lemma awardedOnce_st0 : awardedOnce Fixture.st0.
Proof.
  intros id e H. apply elem_of_list_to_map_2 in H.
  repeat (apply elem_of_cons in H as [[= -> ->]|H]);
    try (apply (bool_decide_unpack _); by vm_compute).
  by apply elem_of_nil in H.
Qed.

Lemma awardedAreConfirmed_st0 : awardedAreConfirmed Fixture.st0.
Proof.
  intros id e H. apply elem_of_list_to_map_2 in H.
  repeat (apply elem_of_cons in H as [[= -> ->]|H]);
    try (apply (bool_decide_unpack _); by vm_compute).
  by apply elem_of_nil in H.
Qed.

(** Confirm everyone, confirm b again, confirm everyone again. *)
Lemma awards_at_most_once_witness :
  awardedOnce
    (run Fixture.env0
         [ConfirmAll (Authenticated "adm") "e2";
          ConfirmOne (Authenticated "adm") "e2" "b";
          ConfirmAll (Authenticated "adm") "e2"]
         Fixture.st0).
Proof.
  apply (proj1 (awards_at_most_once Fixture.env0)).
  - repeat constructor.
  - exact awardedOnce_st0.
  - exact confirmedOnce_st0.
Defined.

(** C2 at the failing input: the open event is closed with an approved
    list that names a twice, which the close handler stores as it is; one
    [confirmAll], from a store in which no [pointsAwarded] has a repeated
    id, then credits a twice and lists a twice in [pointsAwarded]. *)
Lemma confirmAll_awards_repeated_id_twice :
  let st1 := step Fixture.env0
                  (CloseEvent (Authenticated "adm") "e1" ["a"; "a"])
                  Fixture.st0 in
  let st2 := run Fixture.env0 [ConfirmAll (Authenticated "adm") "e1"] st1 in
  awardedOnce st1 ∧
  confirmed <$> events st1 !! "e1" = Some ["a"; "a"] ∧
  awarded <$> events st1 !! "e1" = Some [] ∧
  Staff.points <$> users st1 !! "a" = Some 0 ∧
  awarded <$> events st2 !! "e1" = Some ["a"; "a"] ∧
  Staff.points <$> users st2 !! "a" = Some 100 ∧
  ¬ awardedOnce st2.
Proof.
  split.
  { unfold awardedOnce. simpl.
    apply (eventStep_preserves (fun e => NoDup (awarded e)) "e1" _
             Fixture.st0 _
             (closeEvent_eventStep Fixture.env0 (Authenticated "adm") "e1"
                ["a"; "a"] Fixture.st0)); [|exact awardedOnce_st0].
    intros e e' _ [H1 _] Hn. unfold awarded. by rewrite H1. }
  do 5 (split; [reflexivity|]).
  intros H.
  specialize (H "e1" _ eq_refl). vm_compute in H.
  apply NoDup_cons in H as [Hn _]. apply Hn. left.
Qed.

(** Re-closing with a list that still has the awarded a. *)
Lemma awarded_stay_confirmed_witness :
  awardedAreConfirmed
    (step Fixture.env0 (CloseEvent (Authenticated "adm") "e2" ["a"; "c"])
          Fixture.st0).
Proof.
  apply (proj1 (awarded_stay_confirmed Fixture.env0)).
  - exact awardedAreConfirmed_st0.
  - intros e [= <-]. apply (bool_decide_unpack _). by vm_compute.
Defined.

(** C3 fails on the code as it is stated: a was confirmed and awarded,
    the event is closed again with b alone, and a stays in
    [pointsAwarded]. *)
Lemma reclose_drops_awarded_staff :
  let st' := step Fixture.env0 (CloseEvent (Authenticated "adm") "e2" ["b"])
                  Fixture.st0 in
  awardedAreConfirmed Fixture.st0 ∧
  awarded <$> events st' !! "e2" = Some ["a"] ∧
  confirmed <$> events st' !! "e2" = Some ["b"] ∧
  ¬ awardedAreConfirmed st'.
Proof.
  split; [exact awardedAreConfirmed_st0|].
  split; [reflexivity|]. split; [reflexivity|].
  intros H. specialize (H "e2" _ eq_refl "a"). vm_compute in H.
  assert (Hin : "a" ∈ ["b"]) by (apply H; left).
  apply list_elem_of_singleton in Hin. discriminate.
Qed.

Lemma confirmOne_unselected_writes_nothing_witness :
  ∃ error,
    confirmOne Fixture.env0 (Authenticated "adm") "e2" "c" Fixture.st0
    = (Error 400 error, Fixture.st0, []) ∧
    error = "Staff member was not selected for this event".
Proof.
  destruct (confirmOne_unselected_writes_nothing Fixture.env0
              (Authenticated "adm") "e2" "c" Fixture.st0 Fixture.evClosed)
    as (code & error & Hrun & Hcode).
  - reflexivity.
  - apply (bool_decide_unpack _). by vm_compute.
  - destruct (Hcode "adm") as [-> ->].
    + reflexivity.
    + exact isAdmin_st0.
    + discriminate.
    + discriminate.
    + exists "Staff member was not selected for this event".
      split; [exact Hrun | reflexivity].
Defined.

(** C4 fails on the code as it is stated: the staff id below is in no
    [confirmedStaff] list and has no record, and the reply is the 404 of
    a missing record, not the 400 of a refused award. *)
Lemma confirmOne_unknown_staff_not_found :
  ("ghost" ∉ confirmed Fixture.evClosed) ∧
  confirmOne Fixture.env0 (Authenticated "adm") "e2" "ghost" Fixture.st0
  = (Error 404 "Staff member not found", Fixture.st0, []) ∧
  ¬ ∃ error st' tr,
      confirmOne Fixture.env0 (Authenticated "adm") "e2" "ghost" Fixture.st0
      = (Error 400 error, st', tr).
Proof.
  split; [apply (bool_decide_unpack _); by vm_compute|].
  split; [reflexivity|].
  intros (error & st' & tr & H). vm_compute in H. discriminate.
Qed.

(** ** Cancelling an event *)

Section Cancel.
Variable env : Env.

Lemma attempts_cancelEmailOut (l : list (string * Staff.t)) st :
  attempts (flat_map (cancelEmailOut env) l)
  = if channelConfigured env st Email
    then (fun u => (Email, u.1, EventCancelled)) <$> l
    else [].
Proof.
  unfold cancelEmailOut. simpl.
  induction l as [|u l IH]; simpl.
  - by destruct (resendApiKey env) as [key|]; [destruct (isEmpty key)|].
  - rewrite attempts_app, IH.
    destruct (resendApiKey env) as [key|]; [|done].
    by destruct (isEmpty key).
Qed.

Lemma attempts_telegramOut (l : list (string * Staff.t)) st kind :
  attempts (flat_map (fun u => telegramOut env st kind u.1 u.2) l)
  = (fun u => (Telegram, u.1, kind)) <$>
      filter (fun u => hasChatId env u.2 = true) l.
Proof.
  induction l as [|u l IH]; simpl; [done|].
  rewrite attempts_app, IH, filter_cons.
  unfold telegramOut, hasChatId.
  by destruct (noChatId env _).
Qed.

Lemma elem_of_participating st (l : list string) id staff :
  (id, staff) ∈ filter (fun u => includes l u.1 = true)
                       (map_to_list (users st))
  ↔ id ∈ l ∧ users st !! id = Some staff.
Proof.
  rewrite list_elem_of_filter, elem_of_map_to_list. simpl.
  by rewrite includes_true.
Qed.

(** C6, as the code has it.  Cancelling stores the event as cancelled,
    then reaches every signed-up id that has a staff record: by e-mail when
    the API key is set, by Telegram when Telegram is connected and the
    record has a chat id, never by WhatsApp; then, after the last attempt
    and whatever the attempts returned, stores the event again with
    [signedUpStaff] empty. *)
Theorem cancelEvent_notifies_then_purges st userId eventId existingEvent :
  isAdmin st userId →
  events st !! eventId = Some existingEvent →
  ∃ finalEvent st' deliveries,
    cancelEvent env (Authenticated userId) eventId st
    = (Json finalEvent, st',
       KvSetEvent eventId (Event.with_status Cancelled existingEvent)
         :: deliveries
         ++ match signedUp existingEvent with
            | [] => []
            | _ => [KvSetEvent eventId finalEvent]
            end) ∧
    events st' !! eventId = Some finalEvent ∧
    Event.status finalEvent = Some Cancelled ∧
    signedUp finalEvent = [] ∧
    (∀ x, x ∈ deliveries → isWrite x = false) ∧
    (∀ id staff,
       id ∈ signedUp existingEvent → users st !! id = Some staff →
       (channelConfigured env st Email = true →
        (Email, id, EventCancelled) ∈ attempts deliveries) ∧
       (channelConfigured env st Telegram = true →
        hasChatId env staff = true →
        (Telegram, id, EventCancelled) ∈ attempts deliveries)) ∧
    (∀ ch id kind,
       (ch, id, kind) ∈ attempts deliveries →
       ch ≠ WhatsApp ∧ kind = EventCancelled ∧
       id ∈ signedUp existingEvent ∧ is_Some (users st !! id)).
Proof.
  intros Hadm Hev.
  pose proof (cancelEvent_run env st userId eventId existingEvent Hadm Hev)
    as Hrun. cbv zeta in Hrun.
  destruct (signedUp existingEvent) as [|s rest] eqn:Hs.
  { exists (Event.with_status Cancelled existingEvent). eexists _, [].
    split; [exact Hrun|]. split; [apply lookup_insert_eq|].
    split; [done|]. split; [by unfold signedUp in *|].
    split; [intros x Hx; by apply elem_of_nil in Hx|].
    split; [intros id staff Hid; by apply elem_of_nil in Hid|].
    intros ch id kind Hx. by apply elem_of_nil in Hx. }
  set (participatingStaff :=
         filter (fun u => includes (s :: rest) u.1 = true)
                (map_to_list (users st))) in *.
  exists (Event.with_signedUpStaff []
            (Event.with_status Cancelled existingEvent)).
  eexists _,
    (flat_map (cancelEmailOut env) participatingStaff
     ++ (if telegramConnected st
         then flat_map (fun u => telegramOut env st EventCancelled u.1 u.2)
                       participatingStaff
         else [])).
  split; [by rewrite <- app_assoc|].
  split; [apply lookup_insert_eq|]. split; [done|]. split; [done|].
  assert (Hatt : attempts
            (flat_map (cancelEmailOut env) participatingStaff
             ++ (if telegramConnected st
                 then flat_map
                        (fun u => telegramOut env st EventCancelled u.1 u.2)
                        participatingStaff
                 else []))
          = (if channelConfigured env st Email
             then (fun u => (Email, u.1, EventCancelled))
                    <$> participatingStaff
             else [])
            ++ (if telegramConnected st
                then (fun u => (Telegram, u.1, EventCancelled)) <$>
                       filter (fun u => hasChatId env u.2 = true)
                              participatingStaff
                else [])).
  { rewrite attempts_app, (attempts_cancelEmailOut _ st).
    destruct (telegramConnected st); [|done].
    by rewrite attempts_telegramOut. }
  split.
  { intros x Hx. apply elem_of_app in Hx as [Hx|Hx].
    - apply list_elem_of_In, in_flat_map in Hx as (u & _ & Hx).
      unfold cancelEmailOut in Hx.
      destruct (resendApiKey env) as [key|]; [|done].
      destruct (isEmpty key); [done|]. by destruct Hx as [<-|[]].
    - destruct (telegramConnected st); [|by apply elem_of_nil in Hx].
      apply list_elem_of_In, in_flat_map in Hx as (u & _ & Hx).
      unfold telegramOut in Hx. destruct (noChatId env _); [done|].
      by destruct Hx as [<-|[]]. }
  split.
  { intros id staff Hid Hst. rewrite Hatt.
    assert (Hp : (id, staff) ∈ participatingStaff)
      by (by apply elem_of_participating).
    split.
    - intros ->. apply elem_of_app. left.
      apply list_elem_of_fmap. by exists (id, staff).
    - simpl. intros -> Hchat. apply elem_of_app. right.
      apply list_elem_of_fmap. exists (id, staff). split; [done|].
      by apply list_elem_of_filter. }
  intros ch id kind. rewrite Hatt, elem_of_app.
  intros [Hx|Hx].
  - destruct (channelConfigured env st Email); [|by apply elem_of_nil in Hx].
    apply list_elem_of_fmap in Hx as ([id' staff] & [= -> -> ->] & Hu).
    apply elem_of_participating in Hu as [Hid Hst]. eauto.
  - destruct (telegramConnected st); [|by apply elem_of_nil in Hx].
    apply list_elem_of_fmap in Hx as ([id' staff] & [= -> -> ->] & Hu).
    apply list_elem_of_filter in Hu as [_ Hu].
    apply elem_of_participating in Hu as [Hid Hst]. eauto.
Qed.

End Cancel.

(** The open event with three sign-ups; b has a user name and no chat id
    field, and the loop takes the user name. *)
Lemma cancelEvent_notifies_then_purges_witness :
  ∃ finalEvent st' deliveries,
    cancelEvent Fixture.env0 (Authenticated "adm") "e1" Fixture.st0
    = (Json finalEvent, st',
       KvSetEvent "e1" (Event.with_status Cancelled Fixture.evOpen)
         :: deliveries ++ [KvSetEvent "e1" finalEvent]) ∧
    signedUp finalEvent = [] ∧
    (Email, "a", EventCancelled) ∈ attempts deliveries ∧
    (Telegram, "b", EventCancelled) ∈ attempts deliveries.
Proof.
  destruct (cancelEvent_notifies_then_purges Fixture.env0 Fixture.st0 "adm"
              "e1" Fixture.evOpen)
    as (finalEvent & st' & deliveries & Hrun & _ & _ & Hs & _ & Hatt & _).
  - exact isAdmin_st0.
  - reflexivity.
  - exists finalEvent, st', deliveries.
    split; [exact Hrun|]. split; [exact Hs|].
    split.
    + apply (Hatt "a" Fixture.staffA); [|reflexivity..].
      apply (bool_decide_unpack _). by vm_compute.
    + apply (Hatt "b" Fixture.staffB); [|reflexivity..].
      apply (bool_decide_unpack _). by vm_compute.
Defined.

(** C6 fails on the code as it is stated: d signed up, Telegram and
    WhatsApp are both connected, and the only attempt made for d is the
    e-mail: d has no chat id, and cancellation never uses WhatsApp. *)
Lemma cancelEvent_skips_configured_channels :
  ∃ st' tr,
    signedUp Fixture.evPhone = ["d"] ∧
    channelConfigured Fixture.env0 Fixture.st0 Telegram = true ∧
    channelConfigured Fixture.env0 Fixture.st0 WhatsApp = true ∧
    cancelEvent Fixture.env0 (Authenticated "adm") "e6" Fixture.st0
    = (Json (Event.with_signedUpStaff []
               (Event.with_status Cancelled Fixture.evPhone)), st', tr) ∧
    attempts tr = [(Email, "d", EventCancelled)] ∧
    ((Telegram, "d", EventCancelled) ∉ attempts tr) ∧
    ((WhatsApp, "d", EventCancelled) ∉ attempts tr).
Proof.
  eexists _, _. do 5 (split; [reflexivity|]).
  split; intros H; apply list_elem_of_singleton in H; discriminate.
Qed.

(** ** Signing up *)

Section Signup.
Variable env : Env.

(** The two refusals of the sign-up handler: both are 400 replies that
    write nothing. *)
Lemma signup_refusals st userId eventId event :
  eventId ≠ EmptyString →
  events st !! eventId = Some event →
  (userId ∈ signedUp event →
   Event.signedUpStaff event ≠ None →
   signup env (Authenticated userId) eventId st
   = (Error 400 "Already signed up for this event", st, [])) ∧
  (userId ∉ signedUp event →
   ∀ t, parseDate env (Event.date event +:+ "T" +:+ Event.time event)
        = Some t →
        t < now env →
        signup env (Authenticated userId) eventId st
        = (Error 400 "Cannot sign up for past events", st, [])).
Proof.
  intros Hid Hev. apply isEmpty_false in Hid.
  unfold signup, kvGetEvent, signedUp. run. rewrite Hid. simpl.
  rewrite Hev. simpl. split.
  - intros Hin Hsome. destruct (Event.signedUpStaff event) as [l|]; [|done].
    apply includes_true in Hin. simpl in Hin. by rewrite Hin.
  - intros Hn t Ht Hlt. apply includes_false in Hn.
    destruct (Event.signedUpStaff event) as [l|]; simpl in *;
      rewrite ?Hn, Ht; by destruct (Z.ltb_spec t (now env)); [|lia].
Qed.

(** The handler never reads [status]: whoever is not yet signed up for an
    event that is not in the past is added, whatever the status. *)
Lemma signup_ignores_status st userId eventId event :
  eventId ≠ EmptyString →
  events st !! eventId = Some event →
  userId ∉ signedUp event →
  (∀ t, parseDate env (Event.date event +:+ "T" +:+ Event.time event)
        = Some t → now env ≤ t) →
  let updatedEvent :=
    Event.with_signUpTimestamps
      (<[userId := toISOString env (now env)]>
         (default ∅ (Event.signUpTimestamps event)))
      (Event.with_signedUpStaff (signedUp event ++ [userId]) event) in
  signup env (Authenticated userId) eventId st
  = (Json updatedEvent, set_events <[eventId := updatedEvent]> st,
     [KvSetEvent eventId updatedEvent]).
Proof.
  intros Hid Hev Hn Hfut. apply isEmpty_false in Hid.
  apply includes_false in Hn.
  unfold signup, kvGetEvent, kvSetEvent, signedUp in *. run. rewrite Hid. simpl.
  rewrite Hev. simpl.
  assert (Hs : match Event.signedUpStaff event with
               | Some l => includes l userId
               | None => false
               end = false)
    by (by destruct (Event.signedUpStaff event)).
  rewrite Hs.
  destruct (parseDate env _) as [t|] eqn:Ht; [|done].
  specialize (Hfut t eq_refl).
  by destruct (Z.ltb_spec t (now env)); [lia|].
Qed.

End Signup.

(** C7 at the failing input: a staff member signs up for the cancelled
    event and is added to it, while the admin sign-up for the same event
    is refused. *)
Theorem signup_cancelled_event_accepted :
  ∃ updatedEvent st',
    Event.status Fixture.evCancelled = Some Cancelled ∧
    signup Fixture.env0 (Authenticated "a") "e4" Fixture.st0
    = (Json updatedEvent, st', [KvSetEvent "e4" updatedEvent]) ∧
    Event.status updatedEvent = Some Cancelled ∧
    signedUp updatedEvent = ["a"] ∧
    events st' !! "e4" = Some updatedEvent ∧
    adminSignup Fixture.env0 (Authenticated "adm") "e4" ["a"] Fixture.st0
    = (Error 400 "Cannot sign up staff for cancelled events", Fixture.st0, []).
Proof. eexists _, _. repeat split; reflexivity. Qed.

(** The refusals that do hold, on the open events of the deployment. *)
Example signup_twice_and_past_refused :
  signup Fixture.env0 (Authenticated "a") "e1" Fixture.st0
  = (Error 400 "Already signed up for this event", Fixture.st0, []) ∧
  signup Fixture.env0 (Authenticated "a") "e5" Fixture.st0
  = (Error 400 "Cannot sign up for past events", Fixture.st0, []).
Proof. split; reflexivity. Qed.

End ServerFacts.

(** ** Every request, seen from outside *)

Module RequestFacts.
Import Server Observe Engine Requests ServerFacts.

Section Cases.
Variable env : Env.

Ltac refused := left; eexists _, _; split; [reflexivity|done].

(** The replies of the four handlers that send nothing: a refusal that
    leaves everything as it was, or the stored event replaced. *)
Lemma signup_cases auth eventId st :
  (∃ code error,
     signup env auth eventId st = (Error code error, st, []) ∧ code ≠ 200) ∨
  (∃ userId event,
     auth = Authenticated userId ∧ events st !! eventId = Some event ∧
     (userId ∉ signedUp event) ∧
     let updatedEvent :=
       Event.with_signUpTimestamps
         (<[userId := toISOString env (now env)]>
            (default ∅ (Event.signUpTimestamps event)))
         (Event.with_signedUpStaff (signedUp event ++ [userId]) event) in
     signup env auth eventId st
     = (Json updatedEvent, set_events <[eventId := updatedEvent]> st,
        [KvSetEvent eventId updatedEvent])).
Proof.
  unfold signup, kvGetEvent, kvSetEvent.
  destruct auth as [userId|]; run; [|refused].
  destruct (isEmpty eventId); [refused|]. simpl.
  destruct (events st !! eventId) as [event|] eqn:Hev; [|refused]. simpl.
  destruct (match Event.signedUpStaff event with
            | Some l => includes l userId
            | None => false
            end) eqn:Hin; [refused|].
  destruct (match parseDate env _ with
            | Some t => t <? now env
            | None => false
            end); [refused|].
  simpl. right. exists userId, event. split_and!; try done.
  unfold signedUp. destruct (Event.signedUpStaff event); simpl.
  - by apply includes_false.
  - apply not_elem_of_nil.
Qed.

Lemma cancelSignup_cases auth eventId st :
  (∃ code error,
     cancelSignup auth eventId st = (Error code error, st, []) ∧
     code ≠ 200) ∨
  (∃ userId event,
     auth = Authenticated userId ∧ events st !! eventId = Some event ∧
     let updatedEvent :=
       Event.with_signUpTimestamps
         (delete userId (default ∅ (Event.signUpTimestamps event)))
         (Event.with_signedUpStaff
            (filter (fun id => id ≠ userId) (signedUp event)) event) in
     cancelSignup auth eventId st
     = (Json updatedEvent, set_events <[eventId := updatedEvent]> st,
        [KvSetEvent eventId updatedEvent])).
Proof.
  destruct auth as [userId|]; [|refused].
  destruct (events st !! eventId) as [event|] eqn:Hev.
  - right. exists userId, event. split_and!; try done.
    by apply cancelSignup_run.
  - unfold cancelSignup, kvGetEvent. run. rewrite Hev. refused.
Qed.

Lemma adminSignup_cases auth eventId staffIds st :
  (∃ code error,
     adminSignup env auth eventId staffIds st = (Error code error, st, []) ∧
     code ≠ 200) ∨
  (∃ userId event,
     auth = Authenticated userId ∧ isAdmin st userId ∧
     events st !! eventId = Some event ∧
     Event.status event ≠ Some Cancelled ∧
     let newStaffIds := without staffIds (signedUp event) in
     let updatedEvent :=
       Event.with_signUpTimestamps
         (foldl (fun m staffId => <[staffId := toISOString env (now env)]> m)
                (default ∅ (Event.signUpTimestamps event)) newStaffIds)
         (Event.with_signedUpStaff (signedUp event ++ newStaffIds) event) in
     newStaffIds ≠ [] ∧
     adminSignup env auth eventId staffIds st
     = (Json (updatedEvent, length newStaffIds),
        set_events <[eventId := updatedEvent]> st,
        [KvSetEvent eventId updatedEvent])).
Proof.
  unfold adminSignup, kvGetEvent, kvSetEvent.
  destruct auth as [userId|]; run; [|refused].
  destruct (requireAdmin_decide st userId) as [[Hadm H]|H]; rewrite H;
    [|refused].
  simpl.
  destruct (isEmpty eventId); [refused|]. simpl.
  destruct (events st !! eventId) as [event|] eqn:Hev; [|refused]. simpl.
  destruct (bool_decide (Event.status event = Some Cancelled)) eqn:Hc;
    [refused|].
  apply bool_decide_eq_false in Hc. fold (signedUp event).
  destruct (without staffIds (signedUp event)) as [|s l] eqn:Hw; [refused|].
  simpl. right. exists userId, event. cbv zeta. rewrite Hw.
  split_and!; done.
Qed.

Lemma reinstateEvent_cases auth eventId st :
  (∃ code error,
     reinstateEvent auth eventId st = (Error code error, st, []) ∧
     code ≠ 200) ∨
  (∃ userId event,
     auth = Authenticated userId ∧ isAdmin st userId ∧
     events st !! eventId = Some event ∧
     let reinstatedEvent := Event.with_status Upcoming event in
     reinstateEvent auth eventId st
     = (Json reinstatedEvent, set_events <[eventId := reinstatedEvent]> st,
        [KvSetEvent eventId reinstatedEvent])).
Proof.
  unfold reinstateEvent, kvGetEvent, kvSetEvent.
  destruct auth as [userId|]; run; [|refused].
  destruct (requireAdmin_decide st userId) as [[Hadm H]|H]; rewrite H;
    [|refused].
  simpl.
  destruct (events st !! eventId) as [event|] eqn:Hev; [|refused]. simpl.
  right. by exists userId, event.
Qed.

(** The three handlers that notify are refused, or the caller is an admin
    and the event exists: [cancelEvent_run], [closeEvent_run] and
    [updateEvent_run] then give the reply. *)
Lemma cancelEvent_cases auth eventId st :
  (∃ code error,
     cancelEvent env auth eventId st = (Error code error, st, []) ∧
     code ≠ 200) ∨
  (∃ userId event,
     auth = Authenticated userId ∧ isAdmin st userId ∧
     events st !! eventId = Some event).
Proof.
  destruct auth as [userId|]; [|refused].
  destruct (requireAdmin_decide st userId) as [[Hadm Hok]|H].
  - destruct (events st !! eventId) as [event|] eqn:Hev.
    + right. by exists userId, event.
    + unfold cancelEvent, kvGetEvent. run. rewrite Hok. simpl. rewrite Hev.
      refused.
  - unfold cancelEvent. run. rewrite H. refused.
Qed.

Lemma closeEvent_cases auth eventId A st :
  (∃ code error,
     closeEvent env auth eventId A st = (Error code error, st, []) ∧
     code ≠ 200) ∨
  (∃ userId event,
     auth = Authenticated userId ∧ isAdmin st userId ∧
     eventId ≠ EmptyString ∧ events st !! eventId = Some event).
Proof.
  destruct auth as [userId|]; [|refused].
  destruct (requireAdmin_decide st userId) as [[Hadm Hok]|H].
  - destruct (isEmpty eventId) eqn:Hid.
    { unfold closeEvent. run. rewrite Hok. simpl. rewrite Hid. refused. }
    destruct (events st !! eventId) as [event|] eqn:Hev.
    + apply isEmpty_false in Hid. right. by exists userId, event.
    + unfold closeEvent, kvGetEvent. run. rewrite Hok. simpl.
      rewrite Hid. simpl. rewrite Hev. refused.
  - unfold closeEvent. run. rewrite H. refused.
Qed.

Lemma updateEvent_cases auth eventId eventData st :
  (∃ code error,
     updateEvent env auth eventId eventData st = (Error code error, st, []) ∧
     code ≠ 200) ∨
  (∃ userId event,
     auth = Authenticated userId ∧ isAdmin st userId ∧
     events st !! eventId = Some event).
Proof.
  destruct auth as [userId|]; [|refused].
  destruct (requireAdmin_decide st userId) as [[Hadm Hok]|H].
  - destruct (events st !! eventId) as [event|] eqn:Hev.
    + right. by exists userId, event.
    + unfold updateEvent, kvGetEvent. run. rewrite Hok. simpl.
      rewrite Hev. refused.
  - unfold updateEvent. run. rewrite H. refused.
Qed.

(** The award loop leaves the events, the level table and the settings
    alone, keeps every record's role, and touches no record of an id it
    was not given. *)
Lemma awardLoop_store event eventId userId ids acc st :
  ∃ acc' st' tr,
    awardLoop env event eventId userId ids acc st = (Json acc', st', tr) ∧
    events st' = events st ∧ levels st' = levels st ∧
    telegramSettings st' = telegramSettings st ∧
    whatsappSettings st' = whatsappSettings st ∧
    (∀ id, Staff.role <$> users st' !! id = Staff.role <$> users st !! id) ∧
    (∀ id, id ∉ ids → users st' !! id = users st !! id).
Proof.
  revert acc st. induction ids as [|staffId rest IH]; intros acc st; simpl.
  - by exists acc, st, [].
  - unfold kvGetUser, calculateLevelM, kvSetUser, kvSetAdjustment. run.
    destruct (users st !! staffId) as [staff|] eqn:Hst; simpl.
    + match goal with
      | |- context [awardLoop env event eventId userId rest ?a ?s] =>
        destruct (IH a s) as (acc' & st' & tr & Hrun & Hev & Hl & Ht & Hw
                              & Hro & Hot);
        rewrite Hrun
      end.
      eexists _, _, _. split; [reflexivity|]. split_and!; try done.
      * intros id. rewrite Hro. simpl.
        destruct (decide (staffId = id)) as [->|Hne].
        -- by rewrite lookup_insert_eq, Hst.
        -- by rewrite lookup_insert_ne.
      * intros id Hid. rewrite not_elem_of_cons in Hid.
        rewrite Hot by tauto. simpl. rewrite lookup_insert_ne; [done|].
        intros ->. tauto.
    + destruct (IH acc st) as (acc' & st' & tr & Hrun & Hev & Hl & Ht & Hw
                               & Hro & Hot).
      rewrite Hrun. eexists _, _, _. split; [reflexivity|].
      split_and!; try done.
      intros id Hid. rewrite not_elem_of_cons in Hid. apply Hot. tauto.
Qed.

Lemma framed_refl eventId st : framed eventId st st.
Proof. by unfold framed. Qed.

Lemma framed_set_events eventId e e' st :
  events st !! eventId = Some e →
  framed eventId st (set_events <[eventId := e']> st).
Proof.
  intros He. unfold framed. simpl. split_and!; try done.
  - intros id Hne. by rewrite lookup_insert_ne.
  - intros id. destruct (decide (eventId = id)) as [<-|Hne].
    + rewrite lookup_insert_eq, He. split; eauto.
    + by rewrite lookup_insert_ne.
Qed.

Lemma confirmOne_shape auth eventId staffId st :
  (∃ code error,
     confirmOne env auth eventId staffId st = (Error code error, st, []) ∧
     code ≠ 200) ∨
  (∃ userId e a st' tr,
     auth = Authenticated userId ∧ isAdmin st userId ∧
     events st !! eventId = Some e ∧
     confirmOne env auth eventId staffId st = (Json a, st', tr) ∧
     framed eventId st st' ∧ ∀ x, x ∈ tr → explained env st x).
Proof.
  unfold confirmOne, kvGetEvent, kvGetUser, kvSetEvent, kvSetUser,
    kvSetAdjustment, calculateLevelM.
  destruct auth as [userId|]; run; [|refused].
  destruct (requireAdmin_decide st userId) as [[Hadm Hok]|H];
    [rewrite Hok|rewrite H; refused]. simpl.
  destruct (isEmpty eventId || isEmpty staffId); [refused|]. simpl.
  destruct (events st !! eventId) as [event|] eqn:Hev; [|refused]. simpl.
  destruct (users st !! staffId) as [staff|] eqn:Hst; [|refused]. simpl.
  destruct (includes _ staffId) eqn:Haw; [refused|].
  destruct (includes (default [] (Event.confirmedStaff event)) staffId)
    eqn:Hco; simpl; [|refused].
  right. exists userId, event.
  assert (Hfr : ∀ e' s' k a,
    Staff.role s' = Staff.role staff →
    framed eventId st
      (set_adjustments <[k := a]>
         (set_events <[eventId := e']> (set_users <[staffId := s']> st)))).
  { intros e' s' k a Hrole. unfold framed. simpl. split_and!; try done.
    - intros id Hne. by rewrite lookup_insert_ne.
    - intros id. destruct (decide (eventId = id)) as [<-|Hne].
      + rewrite lookup_insert_eq, Hev. split; eauto.
      + by rewrite lookup_insert_ne.
    - intros id. destruct (decide (staffId = id)) as [<-|Hne].
      + rewrite lookup_insert_eq, Hst. simpl. by rewrite Hrole.
      + by rewrite lookup_insert_ne. }
  unfold sendEmail.
  destruct (resendApiKey env) as [key|] eqn:Hkey; simpl;
    [destruct (isEmpty key) eqn:Hk; simpl|];
    eexists _, _, _;
    (split_and!; [done|done|done|reflexivity|by apply Hfr|]);
    intros x Hx; rewrite ?elem_of_cons, ?elem_of_nil in Hx;
    destruct Hx as [->|[->|[->|Hx]]]; try done.
  destruct Hx as [->|[]]. simpl. rewrite Hkey, Hk, Hst. eauto.
Qed.

Lemma confirmAll_shape auth eventId st :
  (∃ code error,
     confirmAll env auth eventId st = (Error code error, st, []) ∧
     code ≠ 200) ∨
  (∃ userId e a st' tr,
     auth = Authenticated userId ∧ isAdmin st userId ∧
     events st !! eventId = Some e ∧
     confirmAll env auth eventId st = (Json a, st', tr) ∧
     framed eventId st st').
Proof.
  unfold confirmAll, kvGetEvent, kvSetEvent.
  destruct auth as [userId|]; run; [|refused].
  destruct (requireAdmin_decide st userId) as [[Hadm Hok]|H];
    [rewrite Hok|rewrite H; refused]. simpl.
  destruct (isEmpty eventId); [refused|]. simpl.
  destruct (events st !! eventId) as [event|] eqn:Hev; [|refused]. simpl.
  destruct (without _ _) as [|s0 rest] eqn:Hw; [refused|].
  destruct (awardLoop_store event eventId userId (s0 :: rest) ([], [], []) st)
    as (acc' & st' & tr & Hrun & Hev' & Hl & Ht & Hwa & Hro & _).
  rewrite Hrun. simpl.
  right. exists userId, event. eexists _, _, _.
  split_and!; [done|done|done|reflexivity|].
  unfold framed. simpl. rewrite Hev'. split_and!; try done.
  - intros id Hne. by rewrite lookup_insert_ne.
  - intros id. destruct (decide (eventId = id)) as [<-|Hne].
    + rewrite lookup_insert_eq, Hev. split; eauto.
    + by rewrite lookup_insert_ne.
Qed.

(** Every request ends in one of two ways. *)
Lemma outcome_cases c st :
  (∃ code, outcome env c st = (code, st, []) ∧ code ≠ 200) ∨
  (∃ st' tr,
     outcome env c st = (200, st', tr) ∧ callerOk st c ∧
     is_Some (events st !! callEvent c) ∧ framed (callEvent c) st st' ∧
     (¬ isAward c →
      users st' = users st ∧ adjustments st' = adjustments st)).
Proof.
  destruct c; simpl.
  - destruct (signup_cases auth eventId st)
      as [(code & error & -> & Hc)|(u & e & -> & He & _ & ->)];
      [left; eauto|].
    right. eexists _, _. split_and!; [done|done|eauto| |done].
    by eapply framed_set_events.
  - destruct (cancelSignup_cases auth eventId st)
      as [(code & error & -> & Hc)|(u & e & -> & He & ->)];
      [left; eauto|].
    right. eexists _, _. split_and!; [done|done|eauto| |done].
    by eapply framed_set_events.
  - destruct (adminSignup_cases auth eventId staffIds st)
      as [(code & error & -> & Hc)
         |(u & e & -> & Ha & He & _ & _ & ->)]; [left; eauto|].
    right. eexists _, _. split_and!; [done|by intros _|eauto| |done].
    by eapply framed_set_events.
  - destruct (updateEvent_cases auth eventId eventData st)
      as [(code & error & -> & Hc)|(u & e & -> & Ha & He)]; [left; eauto|].
    rewrite (updateEvent_run env st u eventId e) by done.
    right. eexists _, _. split_and!; [done|by intros _|eauto| |done].
    by eapply framed_set_events.
  - destruct (cancelEvent_cases auth eventId st)
      as [(code & error & -> & Hc)|(u & e & -> & Ha & He)]; [left; eauto|].
    rewrite (cancelEvent_run env st u eventId e) by done.
    right. destruct (signedUp e); eexists _, _;
      (split_and!; [done|by intros _|eauto| |done]);
      by eapply framed_set_events.
  - destruct (reinstateEvent_cases auth eventId st)
      as [(code & error & -> & Hc)|(u & e & -> & Ha & He & ->)];
      [left; eauto|].
    right. eexists _, _. split_and!; [done|by intros _|eauto| |done].
    by eapply framed_set_events.
  - destruct (closeEvent_cases auth eventId approvedStaffIds st)
      as [(code & error & -> & Hc)|(u & e & -> & Ha & Hid & He)];
      [left; eauto|].
    rewrite (closeEvent_run env st u eventId e) by done.
    right. eexists _, _. split_and!; [done|by intros _|eauto| |done].
    by eapply framed_set_events.
  - destruct (confirmOne_shape auth eventId staffId st)
      as [(code & error & -> & Hc)
         |(u & e & a & st' & tr & -> & Ha & He & -> & Hfr & _)];
      [left; eauto|].
    right. eexists _, _. split_and!; [done|by intros _|eauto|done|].
    intros Hn. by destruct Hn.
  - destruct (confirmAll_shape auth eventId st)
      as [(code & error & -> & Hc)
         |(u & e & a & st' & tr & -> & Ha & He & -> & Hfr)]; [left; eauto|].
    right. eexists _, _. split_and!; [done|by intros _|eauto|done|].
    intros Hn. by destruct Hn.
Qed.

Lemma outcome_step c st : (outcome env c st).1.2 = step env c st.
Proof.
  destruct c; simpl;
    match goal with |- context [match ?x with _ => _ end] =>
      by destruct x as [[? ?] ?] end.
Qed.

(** A request that is not answered with 200 leaves the store as it was and
    the trace empty: no write and no message precedes a refusal. *)
Theorem refused_requests_change_nothing c st code st' tr :
  outcome env c st = (code, st', tr) → code ≠ 200 → st' = st ∧ tr = [].
Proof.
  intros Hout Hcode.
  destruct (outcome_cases c st)
    as [(code' & H & _)|(st1 & tr1 & H & _)]; rewrite H in Hout.
  - by injection Hout as <- <- <-.
  - injection Hout as H1 H2 H3. congruence.
Qed.

(** A request answered with 200 came from an authenticated caller, an
    admin for the admin-only handlers, and named a stored event. *)
Theorem served_requests_are_authorized c st st' tr :
  outcome env c st = (200, st', tr) →
  callerOk st c ∧ is_Some (events st !! callEvent c).
Proof.
  intros Hout.
  destruct (outcome_cases c st)
    as [(code' & H & Hc)|(st1 & tr1 & H & Hok & Hev & _)]; rewrite H in Hout.
  - injection Hout as H1 H2 H3. congruence.
  - done.
Qed.

(** A request changes no event but the one it names, creates and deletes
    no event, changes nobody's role, and leaves the level table and the
    channel settings alone; only the two award handlers write staff
    records or adjustments. *)
Theorem request_frame c st :
  framed (callEvent c) st (step env c st) ∧
  (¬ isAward c →
   users (step env c st) = users st ∧
   adjustments (step env c st) = adjustments st).
Proof.
  rewrite <- outcome_step.
  destruct (outcome_cases c st)
    as [(code' & -> & _)|(st1 & tr1 & -> & _ & _ & Hfr & Hua)]; simpl.
  - split; [apply framed_refl|done].
  - done.
Qed.

(** Over any sequence of requests the level table, the channel settings,
    the set of event ids and everybody's role stay what they were. *)
Theorem run_frame calls st :
  levels (run env calls st) = levels st ∧
  telegramSettings (run env calls st) = telegramSettings st ∧
  whatsappSettings (run env calls st) = whatsappSettings st ∧
  (∀ id, is_Some (events (run env calls st) !! id)
         ↔ is_Some (events st !! id)) ∧
  (∀ id, Staff.role <$> users (run env calls st) !! id
         = Staff.role <$> users st !! id).
Proof.
  revert st. induction calls as [|c calls IH]; intros st; simpl; [done|].
  destruct (IH (step env c st)) as (Hl & Ht & Hw & He & Hr).
  destruct (request_frame c st) as [(Hl' & Ht' & Hw' & _ & He' & Hr') _].
  split_and!; [congruence..| |].
  - intros id. by rewrite He, He'.
  - intros id. by rewrite Hr, Hr'.
Qed.

(** A failed token check is answered with 401 before anything else is
    looked at. *)
Theorem unauthenticated_401 c st error :
  callAuth c = AuthFailed error → outcome env c st = (401, st, []).
Proof. destruct c; simpl; by intros ->. Qed.

(** A caller without an admin record gets 403 from every admin-only
    handler, whatever the request says. *)
Theorem non_admin_403 c st userId :
  callAuth c = Authenticated userId → adminOnly c = true →
  ¬ isAdmin st userId → outcome env c st = (403, st, []).
Proof.
  intros Hauth Hadm Hnot.
  assert (Hr : requireAdmin userId st
               = (Error 403 "Admin access required", st, [])).
  { destruct (requireAdmin_decide st userId) as [[? _]|?]; done. }
  destruct c; simpl in *; try done; subst auth.
  - unfold adminSignup. run. by rewrite Hr.
  - unfold updateEvent. run. by rewrite Hr.
  - unfold cancelEvent. run. by rewrite Hr.
  - unfold reinstateEvent. run. by rewrite Hr.
  - unfold closeEvent. run. by rewrite Hr.
  - unfold confirmOne. run. by rewrite Hr.
  - unfold confirmAll. run. by rewrite Hr.
Qed.

End Cases.

Section Traces.
Variable env : Env.

Lemma explained_telegramOut st kind staffId staff x :
  telegramConnected st = true → users st !! staffId = Some staff →
  x ∈ telegramOut env st kind staffId staff → explained env st x.
Proof.
  intros Hc Hst. unfold telegramOut.
  destruct (orString _ _) as [chatId|] eqn:Hchat; simpl; [|by intros ?%elem_of_nil].
  destruct (isEmpty chatId || trimIsEmpty env chatId);
    [by intros ?%elem_of_nil|].
  intros ->%list_elem_of_singleton. simpl. eauto.
Qed.

Lemma explained_telegramOutId st kind ids x :
  telegramConnected st = true →
  x ∈ flat_map (telegramOutId env st kind) ids → explained env st x.
Proof.
  intros Hc Hx. apply list_elem_of_In, in_flat_map in Hx.
  destruct Hx as (id & _ & Hx). apply list_elem_of_In in Hx.
  unfold telegramOutId in Hx.
  destruct (users st !! id) as [staff|] eqn:Hst; [|by apply elem_of_nil in Hx].
  by eapply explained_telegramOut.
Qed.

(** Every entry of the trace of a request is accounted for by the store
    the request started from: a Telegram attempt is made only with
    connected settings, to the chat id (or else the username) on the
    record of the staff id, and its result is the one of
    [sendTelegramMessage]; an e-mail needs the API key and a record; none
    of these handlers sends over WhatsApp. *)
Theorem deliveries_explained c st x :
  x ∈ (outcome env c st).2 → explained env st x.
Proof.
  destruct c; simpl.
  - destruct (signup_cases env auth eventId st)
      as [(code & error & -> & _)|(u & e & -> & _ & _ & ->)]; simpl.
    + by intros ?%elem_of_nil.
    + by intros ->%list_elem_of_singleton.
  - destruct (cancelSignup_cases auth eventId st)
      as [(code & error & -> & _)|(u & e & -> & _ & ->)]; simpl.
    + by intros ?%elem_of_nil.
    + by intros ->%list_elem_of_singleton.
  - destruct (adminSignup_cases env auth eventId staffIds st)
      as [(code & error & -> & _)|(u & e & -> & _ & _ & _ & _ & ->)]; simpl.
    + by intros ?%elem_of_nil.
    + by intros ->%list_elem_of_singleton.
  - destruct (updateEvent_cases env auth eventId eventData st)
      as [(code & error & -> & _)|(u & e & -> & Ha & He)]; simpl.
    { by intros ?%elem_of_nil. }
    rewrite (updateEvent_run env st u eventId e) by done. simpl.
    rewrite elem_of_cons. intros [->|Hx]; [done|].
    destruct (telegramConnected st) eqn:Hc;
      [|by rewrite andb_false_r in Hx; apply elem_of_nil in Hx].
    destruct (_ && _); [|by apply elem_of_nil in Hx].
    by eapply explained_telegramOutId.
  - destruct (cancelEvent_cases env auth eventId st)
      as [(code & error & -> & _)|(u & e & -> & Ha & He)]; simpl.
    { by intros ?%elem_of_nil. }
    rewrite (cancelEvent_run env st u eventId e) by done.
    destruct (signedUp e) as [|s rest]; simpl.
    { by intros ->%list_elem_of_singleton. }
    rewrite elem_of_cons, !elem_of_app. intros [->|[Hx|[Hx|Hx]]]; [done| | |].
    + apply list_elem_of_In, in_flat_map in Hx.
      destruct Hx as ([id staff] & Hin & Hx).
      apply list_elem_of_In, list_elem_of_filter in Hin.
      destruct Hin as [_ Hin%elem_of_map_to_list].
      apply list_elem_of_In in Hx. unfold cancelEmailOut in Hx. simpl in *.
      destruct (resendApiKey env) as [key|] eqn:Hkey;
        [|by apply elem_of_nil in Hx].
      destruct (isEmpty key) eqn:Hk; [by apply elem_of_nil in Hx|].
      apply list_elem_of_singleton in Hx as ->. simpl. rewrite Hkey, Hk.
      split; [done|eauto].
    + destruct (telegramConnected st) eqn:Hc; [|by apply elem_of_nil in Hx].
      apply list_elem_of_In, in_flat_map in Hx.
      destruct Hx as ([id staff] & Hin & Hx).
      apply list_elem_of_In, list_elem_of_filter in Hin.
      destruct Hin as [_ Hin%elem_of_map_to_list].
      apply list_elem_of_In in Hx. by eapply explained_telegramOut.
    + by apply list_elem_of_singleton in Hx as ->.
  - destruct (reinstateEvent_cases auth eventId st)
      as [(code & error & -> & _)|(u & e & -> & _ & _ & ->)]; simpl.
    + by intros ?%elem_of_nil.
    + by intros ->%list_elem_of_singleton.
  - destruct (closeEvent_cases env auth eventId approvedStaffIds st)
      as [(code & error & -> & _)|(u & e & -> & Ha & Hid & He)]; simpl.
    { by intros ?%elem_of_nil. }
    rewrite (closeEvent_run env st u eventId e) by done. simpl.
    rewrite elem_of_cons. intros [->|Hx]; [done|].
    destruct (telegramConnected st) eqn:Hc; [|by apply elem_of_nil in Hx].
    apply elem_of_app in Hx as [Hx|Hx]; by eapply explained_telegramOutId.
  - destruct (confirmOne_shape env auth eventId staffId st)
      as [(code & error & -> & _)
         |(u & e & a & st' & tr & -> & _ & _ & -> & _ & Htr)]; simpl.
    + by intros ?%elem_of_nil.
    + apply Htr.
  - destruct (confirmAll_cases env auth eventId st)
      as [(code & error & ->)
         |(u & e & r & st1 & tr1 & -> & _ & _ & _ & Hrun & _ & Htr)]; simpl.
    { by intros ?%elem_of_nil. }
    cbv zeta in Hrun, Htr. rewrite Hrun. simpl.
    rewrite elem_of_app, list_elem_of_singleton. intros [Hx| ->]; [|done].
    destruct (Htr x Hx) as (id & _ & [[s ->]|(k & a & -> & _)]); done.
Qed.

End Traces.

Section Behaviour.
Variable env : Env.

Ltac stay := left; reflexivity.
Ltac replace_event :=
  right; eexists _, _; split; [eassumption|]; split; [reflexivity|].

Lemma step_event c st :
  eventStep (callEvent c)
            (fun e e' => (namesOnce c →
                          NoDup (signedUp e) → NoDup (signedUp e')) ∧
                         (Event.id e = callEvent c →
                          Event.id e' = callEvent c))
            st (step env c st).
Proof.
  destruct c; simpl in *.
  - destruct (signup_cases env auth eventId st)
      as [(code & error & -> & _)|(u & e & -> & He & Hn & ->)]; [stay|].
    replace_event. simpl. split; [|done].
    intros _ Hnd. by apply NoDup_award_one.
  - destruct (cancelSignup_cases auth eventId st)
      as [(code & error & -> & _)|(u & e & -> & He & ->)]; [stay|].
    replace_event. simpl. split; [|done].
    intros _ Hnd. by apply NoDup_filter.
  - destruct (adminSignup_cases env auth eventId staffIds st)
      as [(code & error & -> & _)|(u & e & -> & _ & He & _ & _ & ->)];
      [stay|].
    replace_event. simpl. split; [|done].
    intros Hc Hnd. apply NoDup_app. split; [done|].
    split; [|by apply NoDup_filter].
    intros x Hx Hw. apply elem_of_without in Hw. tauto.
  - destruct (updateEvent_cases env auth eventId eventData st)
      as [(code & error & -> & _)|(u & e & -> & Ha & He)]; [stay|].
    rewrite (updateEvent_run env st u eventId e) by done.
    replace_event. done.
  - destruct (cancelEvent_cases env auth eventId st)
      as [(code & error & -> & _)|(u & e & -> & Ha & He)]; [stay|].
    rewrite (cancelEvent_run env st u eventId e) by done.
    destruct (signedUp e) eqn:Hs; replace_event; simpl; (split; [|done]).
    + unfold signedUp in *. simpl. by rewrite Hs.
    + intros _ _. apply NoDup_nil_2.
  - destruct (reinstateEvent_cases auth eventId st)
      as [(code & error & -> & _)|(u & e & -> & _ & He & ->)]; [stay|].
    replace_event. done.
  - destruct (closeEvent_cases env auth eventId approvedStaffIds st)
      as [(code & error & -> & _)|(u & e & -> & Ha & Hid & He)]; [stay|].
    rewrite (closeEvent_run env st u eventId e) by done.
    replace_event. done.
  - destruct (confirmOne_cases env auth eventId staffId st)
      as [(code & error & ->)|(u & e & staff & tr & _ & _ & He & _
                               & _ & _ & Hrun & _)]; [stay|].
    cbv zeta in Hrun. rewrite Hrun. replace_event. done.
  - destruct (confirmAll_cases env auth eventId st)
      as [(code & error & ->)|(u & e & result & st1 & tr1 & _ & _
                               & He & He1 & Hrun & _)]; [stay|].
    cbv zeta in Hrun. rewrite Hrun. unfold eventStep. simpl. rewrite He1.
    replace_event. done.
Qed.

(** Nobody is signed up twice for an event, and no sequence of requests
    changes that, as long as no admin sign-up names a staff id twice. *)
Theorem signups_stay_unique calls st :
  Forall namesOnce calls → signedUpOnce st →
  signedUpOnce (run env calls st).
Proof.
  intros Hcalls. revert st.
  induction Hcalls as [|c calls Hc _ IH]; intros st Hinv; [done|].
  simpl. apply IH. unfold signedUpOnce.
  eapply eventStep_preserves; [apply step_event| |exact Hinv].
  intros e e' _ [HR _]. by apply HR.
Qed.

(** Every event is stored under its own id, and every request keeps it
    so: the handlers that write an event under [events st !! eventId]
    keep its [id], and an edit sets it to the key. *)
Theorem events_stay_keyed_by_id calls st :
  keyedById st → keyedById (run env calls st).
Proof.
  revert st. induction calls as [|c calls IH]; intros st Hinv; [done|].
  simpl. apply IH. intros k e.
  destruct (step_event c st) as [->|(e0 & e' & He0 & -> & _ & Hid)].
  - apply Hinv.
  - destruct (decide (callEvent c = k)) as [<-|Hne].
    + rewrite lookup_insert_eq. intros [= <-]. apply Hid. by apply Hinv.
    + rewrite lookup_insert_ne by done. apply Hinv.
Qed.

(** Closing an event again with the list it was closed with sends no
    message and stores the event it found, with status closed. *)
Theorem reclose_same_list_is_silent st userId eventId event A :
  isAdmin st userId → eventId ≠ EmptyString →
  events st !! eventId = Some event →
  Event.hasBeenClosedBefore event = Some true →
  Event.confirmedStaff event = Some A →
  let closedEvent := Event.with_status Closed event in
  closeEvent env (Authenticated userId) eventId A st
  = (Json closedEvent, set_events <[eventId := closedEvent]> st,
     [KvSetEvent eventId closedEvent]).
Proof.
  intros Hadm Hid Hev Hcl Hco. cbv zeta.
  rewrite (closeEvent_run env st userId eventId event) by done.
  assert (Hsel : newlySelected event A = []).
  { unfold newlySelected. rewrite Hcl, Hco. simpl. apply without_self. }
  assert (Hdes : newlyDeselected event A = []).
  { unfold newlyDeselected. rewrite Hcl, Hco. simpl.
    destruct (filter _ _) as [|x r] eqn:E; [done|].
    assert (Hx : x ∈ x :: r) by left. rewrite <- E in Hx.
    apply list_elem_of_filter in Hx as [Hx _].
    by destruct (includes A x). }
  rewrite Hsel, Hdes. simpl.
  assert (Heq : Event.with_hasBeenClosedBefore true
                  (Event.with_status Closed
                     (Event.with_confirmedStaff A event))
                = Event.with_status Closed event).
  { destruct event. simpl in *. by subst. }
  rewrite Heq. by destruct (telegramConnected st).
Qed.

(** Cancelling and then reinstating an event does not bring the sign-ups
    back: the event ends with status upcoming and nobody signed up, while
    its selection and its awards are the ones it had. *)
Theorem cancel_then_reinstate_loses_signups st userId eventId event :
  isAdmin st userId → events st !! eventId = Some event →
  let st' := run env [CancelEvent (Authenticated userId) eventId;
                      ReinstateEvent (Authenticated userId) eventId] st in
  ∃ e', events st' !! eventId = Some e' ∧
        Event.status e' = Some Upcoming ∧ signedUp e' = [] ∧
        confirmed e' = confirmed event ∧ awarded e' = awarded event ∧
        (∀ id, id ≠ eventId → events st' !! id = events st !! id).
Proof.
  intros Hadm Hev. simpl.
  rewrite (cancelEvent_run env st userId eventId event) by done.
  set (st1 := (match signedUp event with [] => _ | _ => _ end).1.2).
  assert (H1 : ∃ e1, st1 = set_events <[eventId := e1]> st ∧
                     signedUp e1 = [] ∧ confirmed e1 = confirmed event ∧
                     awarded e1 = awarded event).
  { subst st1. destruct (signedUp event) eqn:Hs; eexists; split;
      try reflexivity; split_and!; done. }
  destruct H1 as (e1 & -> & Hs1 & Hc1 & Ha1).
  assert (Hadm1 : isAdmin (set_events <[eventId := e1]> st) userId) by done.
  destruct (reinstateEvent_cases (Authenticated userId) eventId
              (set_events <[eventId := e1]> st))
    as [(code & error & Hrun & _)|(u & e & [= <-] & _ & He & Hrun)].
  { exfalso. revert Hrun. unfold reinstateEvent, kvGetEvent. run.
    rewrite requireAdmin_ok by done. simpl. by rewrite lookup_insert_eq. }
  simpl in He. rewrite lookup_insert_eq in He. injection He as <-.
  cbv zeta in Hrun. rewrite Hrun. simpl.
  exists (Event.with_status Upcoming e1). rewrite lookup_insert_eq.
  split_and!; try done.
  intros id Hne. by rewrite !lookup_insert_ne.
Qed.

Lemma filter_others (l : list string) (x : string) :
  x ∉ l → filter (fun id => id ≠ x) l = l.
Proof.
  induction l as [|y l IH]; [done|]. rewrite not_elem_of_cons.
  intros [Hne Hl]. rewrite filter_cons_True by done. by rewrite IH.
Qed.

(** Signing up and then cancelling the sign-up gives back the list of
    sign-ups the event had; the caller's time stamp is gone. *)
Theorem signup_then_cancel_restores st userId eventId event e1 st1 tr1 :
  events st !! eventId = Some event →
  signup env (Authenticated userId) eventId st = (Json e1, st1, tr1) →
  ∃ e2 st2 tr2,
    cancelSignup (Authenticated userId) eventId st1 = (Json e2, st2, tr2) ∧
    events st2 = <[eventId := e2]> (events st) ∧
    signedUp e2 = signedUp event ∧
    default ∅ (Event.signUpTimestamps e2)
    = delete userId (default ∅ (Event.signUpTimestamps event)) ∧
    Event.with_signUpTimestamps ∅ (Event.with_signedUpStaff [] e2)
    = Event.with_signUpTimestamps ∅ (Event.with_signedUpStaff [] event).
Proof.
  intros Hev Hrun.
  destruct (signup_cases env (Authenticated userId) eventId st)
    as [(code & error & H & _)|(u & e & [= <-] & He & Hn & H)];
    rewrite H in Hrun; [done|].
  rewrite Hev in He. injection He as <-.
  injection Hrun as <- <- <-.
  eexists _, _, _. split.
  { apply cancelSignup_run. simpl. apply lookup_insert_eq. }
  simpl. split_and!.
  - by rewrite insert_insert_eq.
  - unfold signedUp. simpl. fold (signedUp event).
    rewrite filter_app, filter_cons_False, filter_nil, app_nil_r by tauto.
    by apply filter_others.
  - by rewrite delete_insert_eq.
  - by destruct event.
Qed.

Lemma lookup_foldl_insert (v : string) (l : list string)
    (m : gmap string string) (id : string) :
  foldl (fun m k => <[k := v]> m) m l !! id
  = if decide (id ∈ l) then Some v else m !! id.
Proof.
  revert m. induction l as [|k l IH]; intros m; simpl; [done|].
  rewrite IH. destruct (decide (id ∈ l)) as [Hin|Hin].
  - rewrite decide_True; [done|by right].
  - destruct (decide (k = id)) as [->|Hne].
    + rewrite lookup_insert_eq, decide_True; [done|left].
    + rewrite lookup_insert_ne by done.
      rewrite decide_False; [done|].
      rewrite elem_of_cons. intros [->|?]; done.
Qed.

(** An admin sign-up that is served adds exactly the named ids that were
    missing, stamps them with the current time and keeps the stamps of
    those already signed up; it asks nothing about the ids, the date or
    the level. *)
Theorem adminSignup_adds_the_missing st auth eventId staffIds event e1 n
    st1 tr1 :
  events st !! eventId = Some event →
  adminSignup env auth eventId staffIds st = (Json (e1, n), st1, tr1) →
  events st1 = <[eventId := e1]> (events st) ∧
  signedUp e1 = signedUp event ++ without staffIds (signedUp event) ∧
  (∀ id, id ∈ signedUp e1 ↔ id ∈ signedUp event ∨ id ∈ staffIds) ∧
  n = length (without staffIds (signedUp event)) ∧ (0 < n)%nat ∧
  (∀ id, default ∅ (Event.signUpTimestamps e1) !! id
         = if decide (id ∈ staffIds ∧ id ∉ signedUp event)
           then Some (toISOString env (now env))
           else default ∅ (Event.signUpTimestamps event) !! id).
Proof.
  intros Hev Hrun.
  destruct (adminSignup_cases env auth eventId staffIds st)
    as [(code & error & H & _)|(u & e & -> & _ & He & _ & Hne & H)];
    rewrite H in Hrun; [done|].
  rewrite Hev in He. injection He as <-.
  injection Hrun as <- <- <-. simpl. split_and!; try done.
  - intros id. unfold signedUp at 1. simpl.
    rewrite elem_of_app, elem_of_without.
    destruct (decide (id ∈ signedUp event)); tauto.
  - destruct (without staffIds (signedUp event)); [done|simpl; lia].
  - intros id. rewrite lookup_foldl_insert.
    destruct (decide (id ∈ without staffIds _)) as [Hin|Hin];
      rewrite elem_of_without in Hin.
    + by rewrite decide_True.
    + by rewrite decide_False.
Qed.

Lemma framed_isAdmin eventId st st' userId :
  framed eventId st st' → isAdmin st userId → isAdmin st' userId.
Proof.
  intros (_ & _ & _ & _ & _ & Hro) (u & Hu & Hadm).
  specialize (Hro userId). rewrite Hu in Hro. simpl in Hro.
  destruct (users st' !! userId) as [u'|] eqn:Hu'; [|done].
  exists u'. split; [done|]. simpl in Hro. congruence.
Qed.

Lemma without_awarded_all (confirmedStaff pointsAwarded : list string) :
  without confirmedStaff
          (pointsAwarded ++ without confirmedStaff pointsAwarded) = [].
Proof.
  destruct (without _ (_ ++ _)) as [|x r] eqn:E; [done|].
  assert (Hx : x ∈ x :: r) by left. rewrite <- E in Hx.
  apply elem_of_without in Hx as [Hc Hn].
  rewrite elem_of_app, elem_of_without in Hn.
  destruct (decide (x ∈ pointsAwarded)); tauto.
Qed.

(** What a served confirm-all leaves behind. *)
Lemma confirmAll_served auth eventId st r st1 tr :
  confirmAll env auth eventId st = (Json r, st1, tr) →
  ∃ userId event,
    auth = Authenticated userId ∧ isAdmin st userId ∧
    isEmpty eventId = false ∧ events st !! eventId = Some event ∧
    without (confirmed event) (awarded event) ≠ [] ∧
    events st1 = <[eventId := ca_event r]> (events st) ∧
    ca_event r
    = Event.with_pointsAwarded
        (awarded event ++ without (confirmed event) (awarded event)) event ∧
    ca_confirmedCount r
    = length (without (confirmed event) (awarded event)) ∧
    framed eventId st st1.
Proof.
  unfold confirmAll, kvGetEvent, kvSetEvent.
  destruct auth as [userId|]; run; [|done].
  destruct (requireAdmin_decide st userId) as [[Hadm Hok]|H];
    [rewrite Hok|by rewrite H]. simpl.
  destruct (isEmpty eventId) eqn:Hid; [done|]. simpl.
  destruct (events st !! eventId) as [event|] eqn:Hev; [|done]. simpl.
  fold (confirmed event) (awarded event).
  destruct (without (confirmed event) (awarded event)) as [|s0 rest] eqn:Hw;
    [done|].
  destruct (awardLoop_store env event eventId userId (s0 :: rest)
              ([], [], []) st)
    as (acc' & st' & tr' & Hrun & Hev' & Hl & Ht & Hwa & Hro & _).
  rewrite Hrun. simpl. intros [= <- <- <-]. simpl.
  exists userId, event. rewrite Hw. split_and!; try done.
  { by rewrite Hev'. }
  unfold framed. simpl. rewrite Hev'. split_and!; try done.
  - intros id Hne. by rewrite lookup_insert_ne.
  - intros id. destruct (decide (eventId = id)) as [<-|Hne].
    + rewrite lookup_insert_eq, Hev. split; eauto.
    + by rewrite lookup_insert_ne.
Qed.

(** A served confirm-all completes the event: everybody selected is
    marked as awarded, and the same request sent again is refused with 400
    and writes nothing. *)
Theorem confirmAll_twice_is_refused st auth eventId r st1 tr :
  confirmAll env auth eventId st = (Json r, st1, tr) →
  (∀ id, id ∈ confirmed (ca_event r) → id ∈ awarded (ca_event r)) ∧
  confirmAll env auth eventId st1
  = (Error 400 "No staff members awaiting point confirmation", st1, []).
Proof.
  intros Hrun.
  destruct (confirmAll_served _ _ _ _ _ _ Hrun)
    as (userId & event & -> & Hadm & Hid & Hev & _ & Hev1 & Hr & _ & Hfr).
  assert (Hco : confirmed (ca_event r) = confirmed event) by by rewrite Hr.
  assert (Haw : awarded (ca_event r)
                = awarded event ++ without (confirmed event) (awarded event))
    by by rewrite Hr.
  split.
  - rewrite Hco, Haw. intros id Hid'.
    rewrite elem_of_app, elem_of_without.
    destruct (decide (id ∈ awarded event)); tauto.
  - unfold confirmAll, kvGetEvent. run.
    rewrite (requireAdmin_ok st1 userId) by (by eapply framed_isAdmin).
    simpl. rewrite Hid. simpl. rewrite Hev1, lookup_insert_eq. simpl.
    fold (confirmed (ca_event r)) (awarded (ca_event r)).
    by rewrite Hco, Haw, without_awarded_all.
Qed.

(** A served confirmation credits the staff member with exactly the
    points of the event, sets the level to the one [calculateLevel] gives
    for the new total, and records the same amount in the adjustment. *)
Theorem confirmOne_credits_event_points st auth eventId staffId r st1 tr :
  confirmOne env auth eventId staffId st = (Json r, st1, tr) →
  ∃ staff event,
    users st !! staffId = Some staff ∧ events st !! eventId = Some event ∧
    users st1 = <[staffId := cr_staff r]> (users st) ∧
    cr_staff r
    = Staff.with_points_level
        (Staff.points staff + Event.points event)
        (LevelResolver.calculateLevel
           (levels st) (Staff.points staff + Event.points event))
        staff ∧
    adjustments st1
    = <[Adjustment.id (cr_adjustment r) := cr_adjustment r]>
        (adjustments st) ∧
    Adjustment.staffId (cr_adjustment r) = staffId ∧
    Adjustment.points (cr_adjustment r)
    = Staff.points (cr_staff r) - Staff.points staff ∧
    Adjustment.eventId (cr_adjustment r) = Some eventId ∧
    (cr_leveledUp r = true ↔ Staff.level (cr_staff r) ≠ Staff.level staff).
Proof.
  intros Hrun.
  destruct (confirmOne_cases env auth eventId staffId st)
    as [(code & error & H)|(u & event & staff & tr' & _ & _ & Hev & Hst
                            & _ & _ & H & _)];
    cbv zeta in H; rewrite H in Hrun; [done|].
  injection Hrun as <- <- <-. exists staff, event. simpl.
  split_and!; try done.
  - destruct staff; simpl. lia.
  - rewrite negb_true_iff, String.eqb_neq. destruct staff; simpl.
    split; intros Hne Heq; by apply Hne.
Qed.

(** The sign-up handler reads the event and nothing else: the caller's
    record, role and level, the level table and the event's required
    level and status play no part in the reply or in what is written. *)
Theorem signup_reads_only_the_event auth eventId st1 st2 :
  events st1 !! eventId = events st2 !! eventId →
  (signup env auth eventId st1).1.1 = (signup env auth eventId st2).1.1 ∧
  (signup env auth eventId st1).2 = (signup env auth eventId st2).2 ∧
  events (signup env auth eventId st1).1.2 !! eventId
  = events (signup env auth eventId st2).1.2 !! eventId.
Proof.
  intros Heq. unfold signup, kvGetEvent, kvSetEvent.
  destruct auth as [userId|]; run; [|by split_and!].
  destruct (isEmpty eventId); [by split_and!|]. simpl. rewrite <- Heq.
  destruct (events st1 !! eventId) as [event|] eqn:He;
    [|split_and!; simpl; congruence].
  simpl.
  destruct (match Event.signedUpStaff event with
            | Some l => includes l userId
            | None => false
            end); [split_and!; simpl; congruence|].
  destruct (match parseDate env _ with
            | Some t => t <? now env
            | None => false
            end); [split_and!; simpl; congruence|].
  simpl. by rewrite !lookup_insert_eq.
Qed.

End Behaviour.

End RequestFacts.

(** ** Staff, points and event administration *)

Module AdminFacts.
Import Server Observe Engine Requests Admin ServerFacts.

Ltac runS :=
  unfold mbind, St_bind, mret, St_ret, lift, refuse, kvGetUser, kvGetEvent,
    getStore, requireAuth, fail;
  simpl.

Lemma adminCheck_ok {A} (k : string -> St Store A) (st : Store)
    (userId : string) :
  isAdmin st userId →
  (userId ← lift (requireAuth (Authenticated userId));
   lift (requireAdmin userId) ;; k userId) st = k userId st.
Proof.
  intros Hadm. unfold mbind, St_bind, lift. simpl.
  by rewrite requireAdmin_ok.
Qed.

Lemma adminCheck_refused {A} (k : string -> St Store A) (st : Store)
    (auth : Auth) :
  ¬ callerIsAdmin st auth →
  ∃ code error,
    (userId ← lift (requireAuth auth);
     lift (requireAdmin userId) ;; k userId) st = (Error code error, st) ∧
    (code = 401 ∨ code = 403).
Proof.
  intros Hnot. unfold mbind, St_bind, lift.
  destruct auth as [userId|error]; simpl; [|eauto].
  destruct (requireAdmin_decide st userId) as [[Hadm _]|Hr]; [done|].
  rewrite Hr. simpl. eauto.
Qed.

(** *** Deleting a staff member *)

Lemma lookup_fold_touch (f : Event.t -> Event.t) (touch : Event.t -> bool)
    (l : list (string * Event.t)) (m0 : gmap string Event.t) (k : string) :
  NoDup l.*1 →
  (∀ k e, (k, e) ∈ l → m0 !! k = Some e) →
  (∀ e, touch e = false → f e = e) →
  foldl (fun m ke => if touch ke.2 then <[ke.1 := f ke.2]> m else m) m0 l !! k
  = if decide (k ∈ l.*1) then f <$> m0 !! k else m0 !! k.
Proof.
  intros Hnd Hl Hf. revert m0 Hl.
  induction l as [|[k0 e0] l IH]; intros m0 Hl; simpl; [done|].
  apply NoDup_cons in Hnd as [Hk0 Hnd].
  rewrite IH; [|done|].
  - destruct (decide (k = k0)) as [->|Hne].
    + rewrite decide_False by done. rewrite decide_True by left.
      rewrite (Hl k0 e0) by left. simpl.
      destruct (touch e0) eqn:Ht; simpl.
      * by rewrite lookup_insert_eq.
      * rewrite (Hl k0 e0) by left. by rewrite Hf.
    + assert (Hm : (if touch e0 then <[k0 := f e0]> m0 else m0) !! k
                   = m0 !! k).
      { destruct (touch e0); [by rewrite lookup_insert_ne|done]. }
      rewrite Hm. destruct (decide (k ∈ l.*1)) as [Hin|Hin].
      * rewrite decide_True; [done|by right].
      * rewrite decide_False; [done|]. rewrite elem_of_cons. tauto.
  - intros k' e' Hin.
    assert (k' ≠ k0).
    { intros ->. apply Hk0. apply list_elem_of_fmap. by exists (k0, e'). }
    destruct (touch e0); [rewrite lookup_insert_ne by done|];
      apply Hl; by right.
Qed.


Lemma withoutStaff_untouched staffId e :
  signedUpFor staffId e = false → withoutStaff staffId e = e.
Proof.
  unfold signedUpFor, withoutStaff.
  destruct (Event.signedUpStaff e); [|done]. by intros ->.
Qed.

Lemma removeLoop_run staffId (l : list (string * Event.t)) st :
  (∀ k e, (k, e) ∈ l → Event.id e = k) →
  forEachSt l.*2 (removeSignup staffId) st
  = (Json tt,
     set_events
       (fun m => foldl (fun m ke =>
                          if signedUpFor staffId ke.2
                          then <[ke.1 := withoutStaff staffId ke.2]> m
                          else m) m l) st).
Proof.
  revert st. induction l as [|[k e] l IH]; intros st Hl; simpl.
  { by destruct st. }
  assert (Hk : Event.id e = k) by (apply Hl; left).
  unfold mbind, St_bind. unfold removeSignup at 1.
  unfold signedUpFor at 2, withoutStaff at 2. rewrite Hk.
  destruct (Event.signedUpStaff e) as [s|]; simpl.
  - destruct (includes s staffId); simpl.
    + unfold lift. simpl. rewrite IH; [done|]. intros ???. apply Hl. by right.
    + rewrite IH; [done|]. intros ???. apply Hl. by right.
  - rewrite IH; [done|]. intros ???. apply Hl. by right.
Qed.

(** What a served deletion leaves. *)
Lemma deleteStaff_run st userId staffId staff :
  keyedById st → isAdmin st userId →
  users st !! staffId = Some staff → Staff.role staff ≠ Admin →
  deleteStaff (Authenticated userId) staffId st
  = (Json tt,
     set_users (delete staffId)
       (set_events (fun m => withoutStaff staffId <$> m) st)).
Proof.
  intros Hkey Hadm Hst Hrole. unfold deleteStaff.
  rewrite adminCheck_ok by done. runS. rewrite Hst. simpl.
  rewrite decide_False by done. simpl.
  rewrite removeLoop_run
    by (intros k e Hin%elem_of_map_to_list; by apply Hkey).
  unfold kvDelUser. simpl. do 2 f_equal. unfold set_events. simpl.
  f_equal. apply map_eq. intros k.
  rewrite (lookup_fold_touch (withoutStaff staffId) (signedUpFor staffId)).
  - rewrite lookup_fmap. destruct (decide _) as [|Hn]; [done|].
    destruct (events st !! k) as [e|] eqn:He; [|done].
    exfalso. apply Hn. apply list_elem_of_fmap. exists (k, e).
    split; [done|]. by apply elem_of_map_to_list.
  - apply NoDup_fst_map_to_list.
  - intros k' e'. apply elem_of_map_to_list.
  - apply withoutStaff_untouched.
Qed.

Lemma signedUp_withoutStaff staffId e :
  signedUp (withoutStaff staffId e)
  = filter (fun id => id ≠ staffId) (signedUp e).
Proof.
  unfold withoutStaff, signedUp.
  destruct (Event.signedUpStaff e) as [s|] eqn:Hs; simpl; [|by rewrite Hs].
  destruct (includes s staffId) eqn:Hin; simpl; [done|].
  rewrite Hs. simpl. apply includes_false in Hin.
  symmetry. by apply RequestFacts.filter_others.
Qed.

(** Deleting a staff member removes the record and takes the id out of
    the sign-ups of every event, in place; it leaves the id in the
    selections, the awards and the sign-up time stamps, and leaves the
    adjustments alone. *)
Theorem deleteStaff_purges_signups_only st userId staffId staff :
  keyedById st → isAdmin st userId →
  users st !! staffId = Some staff → Staff.role staff ≠ Admin →
  ∃ st',
    deleteStaff (Authenticated userId) staffId st = (Json tt, st') ∧
    users st' = delete staffId (users st) ∧
    adjustments st' = adjustments st ∧
    (∀ k, is_Some (events st' !! k) ↔ is_Some (events st !! k)) ∧
    ∀ k e, events st !! k = Some e →
      ∃ e', events st' !! k = Some e' ∧
            signedUp e' = filter (fun id => id ≠ staffId) (signedUp e) ∧
            confirmed e' = confirmed e ∧ awarded e' = awarded e ∧
            Event.signUpTimestamps e' = Event.signUpTimestamps e.
Proof.
  intros Hkey Hadm Hst Hrole. eexists. split; [by eapply deleteStaff_run|].
  simpl. split_and!; try done.
  - intros k. rewrite lookup_fmap. by rewrite fmap_is_Some.
  - intros k e He. exists (withoutStaff staffId e).
    rewrite lookup_fmap, He. split_and!; try done.
    + apply signedUp_withoutStaff.
    + unfold withoutStaff. destruct (Event.signedUpStaff e); [|done].
      by destruct (includes _ _).
    + unfold withoutStaff. destruct (Event.signedUpStaff e); [|done].
      by destruct (includes _ _).
    + unfold withoutStaff. destruct (Event.signedUpStaff e); [|done].
      by destruct (includes _ _).
Qed.

(** Whatever the request, [DELETE /staff/:id] leaves every admin record
    as it is: an admin cannot be deleted, not even by an admin. *)
Theorem deleteStaff_keeps_admins st auth staffId userId u :
  users st !! userId = Some u → Staff.role u = Admin →
  users (deleteStaff auth staffId st).2 !! userId = Some u.
Proof.
  intros Hu Hrole. unfold deleteStaff.
  destruct auth as [caller|]; [|done].
  destruct (requireAdmin_decide st caller) as [[Hadm _]|Hr].
  2: { unfold mbind, St_bind, lift. simpl. by rewrite Hr. }
  rewrite adminCheck_ok by done. runS.
  destruct (users st !! staffId) as [staff|] eqn:Hst; simpl; [|done].
  destruct (decide (Staff.role staff = Admin)) as [|Hne]; simpl; [done|].
  assert (Hloop : ∀ l st0,
            users (forEachSt l (removeSignup staffId) st0).2 = users st0 ∧
            (forEachSt l (removeSignup staffId) st0).1 = Json tt).
  { induction l as [|e l IH]; intros st0; simpl; [done|].
    unfold mbind, St_bind. unfold removeSignup at 1 3.
    destruct (Event.signedUpStaff e) as [s|]; simpl; [|apply IH].
    destruct (includes s staffId); simpl; [|apply IH].
    unfold lift. simpl.
    match goal with |- context [forEachSt l _ ?s] =>
      by destruct (IH s) as [-> ->] end. }
  match goal with |- context [forEachSt ?l _ ?s] =>
    destruct (Hloop l s) as [Hus Hr];
    destruct (forEachSt l (removeSignup staffId) s) as [r st1] end.
  simpl in *. subst r. simpl. rewrite Hus.
  rewrite lookup_delete_ne; [done|]. intros ->. congruence.
Qed.

(** *** Adjusting points *)

Section Adjust.
Variable env : Env.

Lemma falsy_false (s : option string) :
  falsy s = false → ∃ v, s = Some v ∧ v ≠ EmptyString.
Proof.
  destruct s as [v|]; simpl; [|done].
  intros Hv%isEmpty_false. eauto.
Qed.

Lemma adjustPoints_cases auth staffId points reason st :
  (∃ code error,
     adjustPoints env auth staffId points reason st = (Error code error, st) ∧
     code ≠ 200) ∨
  (∃ userId sid delta why staff,
     auth = Authenticated userId ∧ isAdmin st userId ∧
     staffId = Some sid ∧ points = Some delta ∧ reason = Some why ∧
     users st !! sid = Some staff ∧
     let newPoints := Z.max 0 (Staff.points staff + delta) in
     let newLevel := LevelResolver.calculateLevel (levels st) newPoints in
     let updatedStaff := Staff.with_points_level newPoints newLevel staff in
     let adjustment :=
       Adjustment.mk (pretty (now env)) sid delta why
                     (toISOString env (now env)) userId None in
     adjustPoints env auth staffId points reason st
     = (Json (mkAdjustResult updatedStaff adjustment
                (negb (String.eqb (Staff.level staff) newLevel))),
        set_adjustments <[pretty (now env) := adjustment]>
          (set_users <[sid := updatedStaff]> st))).
Proof.
  unfold adjustPoints.
  destruct auth as [userId|error]; [|left; eexists _, _; by split].
  destruct (requireAdmin_decide st userId) as [[Hadm _]|Hr].
  2: { left. unfold mbind, St_bind, lift. simpl. rewrite Hr. simpl.
       eexists _, _; by split. }
  rewrite adminCheck_ok by done.
  destruct (falsy staffId) eqn:Hs; [left; eexists _, _; by split|].
  destruct points as [delta|]; [|left; eexists _, _; by split].
  destruct (falsy reason) eqn:Hre; [left; eexists _, _; by split|].
  apply falsy_false in Hs as (sid & -> & Hsid).
  apply falsy_false in Hre as (why & -> & Hwhy).
  simpl. runS.
  destruct (users st !! sid) as [staff|] eqn:Hst; simpl;
    [|left; eexists _, _; by split].
  right. exists userId, sid, delta, why, staff. by split_and!.
Qed.

(** A served adjustment leaves the staff member with the old points plus
    the change, but never less than zero, and with the level
    [calculateLevel] gives for that total, whatever level was stored. *)
Theorem adjustPoints_clamps_and_relevels auth staffId points reason st r st' :
  adjustPoints env auth staffId points reason st = (Json r, st') →
  ∃ sid delta staff,
    staffId = Some sid ∧ points = Some delta ∧
    users st !! sid = Some staff ∧
    users st' = <[sid := ar_staff r]> (users st) ∧
    Staff.points (ar_staff r) = Z.max 0 (Staff.points staff + delta) ∧
    0 ≤ Staff.points (ar_staff r) ∧
    Staff.level (ar_staff r)
    = LevelResolver.calculateLevel (levels st) (Staff.points (ar_staff r)) ∧
    Staff.role (ar_staff r) = Staff.role staff ∧
    events st' = events st ∧ levels st' = levels st.
Proof.
  intros Hrun.
  destruct (adjustPoints_cases auth staffId points reason st)
    as [(code & error & H & _)
       |(userId & sid & delta & why & staff & _ & _ & -> & -> & -> & Hst
         & H)]; cbv zeta in H; rewrite H in Hrun; [done|].
  injection Hrun as <- <-. exists sid, delta, staff. simpl.
  split_and!; try done. lia.
Qed.

(** The adjustment that is recorded carries the change that was asked
    for; it is the change the balance really made exactly when the
    balance did not have to be held at zero. *)
Theorem adjustPoints_ledger_matches_iff_not_clamped auth staffId points
    reason st r st' :
  adjustPoints env auth staffId points reason st = (Json r, st') →
  ∃ sid delta staff,
    staffId = Some sid ∧ points = Some delta ∧
    users st !! sid = Some staff ∧
    adjustments st'
    = <[Adjustment.id (ar_adjustment r) := ar_adjustment r]>
        (adjustments st) ∧
    Adjustment.staffId (ar_adjustment r) = sid ∧
    Adjustment.points (ar_adjustment r) = delta ∧
    Adjustment.eventId (ar_adjustment r) = None ∧
    (Adjustment.points (ar_adjustment r)
     = Staff.points (ar_staff r) - Staff.points staff
     ↔ 0 ≤ Staff.points staff + delta).
Proof.
  intros Hrun.
  destruct (adjustPoints_cases auth staffId points reason st)
    as [(code & error & H & _)
       |(userId & sid & delta & why & staff & _ & _ & -> & -> & -> & Hst
         & H)]; cbv zeta in H; rewrite H in Hrun; [done|].
  injection Hrun as <- <-. exists sid, delta, staff. simpl.
  split_and!; try done. lia.
Qed.

(** A refused adjustment writes nothing, and an admin is refused only
    when the staff id, the points or the reason is missing or the staff
    record does not exist: a change of zero points is served. *)
Theorem adjustPoints_refusals auth staffId points reason st code error st' :
  adjustPoints env auth staffId points reason st = (Error code error, st') →
  st' = st ∧
  (callerIsAdmin st auth →
   falsy staffId = true ∨ points = None ∨ falsy reason = true ∨
   users st !! LevelResolver.orEmpty staffId = None).
Proof.
  intros Hrun.
  destruct (adjustPoints_cases auth staffId points reason st)
    as [(code' & error' & H & _)
       |(userId & sid & delta & why & staff & _ & _ & -> & -> & -> & Hst
         & H)]; cbv zeta in H; rewrite H in Hrun; [|done].
  injection Hrun as <- <- <-. split; [done|].
  intros Hadm. destruct auth as [userId|]; [|done]. simpl in Hadm.
  revert H. unfold adjustPoints. rewrite adminCheck_ok by done.
  destruct (falsy staffId); [by left|].
  destruct points as [delta|]; [|by right; left].
  destruct (falsy reason); [by right; right; left|].
  simpl. runS.
  destruct (users st !! LevelResolver.orEmpty staffId); [done|].
  by right; right; right.
Qed.

End Adjust.

(** *** Editing a staff record *)

Lemma updateStaff_cases auth staffId name email phone level telegramUsername
    st :
  (∃ code error,
     updateStaff auth staffId name email phone level telegramUsername st
     = (Error code error, st) ∧ code ≠ 200) ∨
  (∃ userId staff,
     auth = Authenticated userId ∧ isAdmin st userId ∧
     users st !! staffId = Some staff ∧
     let chat :=
       Some (LevelResolver.orEmpty (orString telegramUsername None)) in
     let updatedStaff :=
       Staff.mk email name
                (Some (LevelResolver.orEmpty (orString phone None)))
                chat chat (Staff.points staff) level (Staff.role staff) in
     updateStaff auth staffId name email phone level telegramUsername st
     = (Json updatedStaff, set_users <[staffId := updatedStaff]> st)).
Proof.
  unfold updateStaff.
  destruct auth as [userId|error]; [|left; eexists _, _; by split].
  destruct (requireAdmin_decide st userId) as [[Hadm _]|Hr].
  2: { left. unfold mbind, St_bind, lift. simpl. rewrite Hr. simpl.
       eexists _, _; by split. }
  rewrite adminCheck_ok by done. runS.
  destruct (users st !! staffId) as [staff|] eqn:Hst; simpl;
    [|left; eexists _, _; by split].
  right. by exists userId, staff.
Qed.

(** Editing a staff record changes nobody's points or role and creates no
    record, whatever the request. *)
Theorem updateStaff_keeps_points_and_role auth staffId name email phone level
    telegramUsername st id :
  let st' :=
    (updateStaff auth staffId name email phone level telegramUsername st).2 in
  Staff.points <$> users st' !! id = Staff.points <$> users st !! id ∧
  Staff.role <$> users st' !! id = Staff.role <$> users st !! id ∧
  events st' = events st ∧ adjustments st' = adjustments st.
Proof.
  destruct (updateStaff_cases auth staffId name email phone level
              telegramUsername st)
    as [(code & error & -> & _)|(userId & staff & _ & _ & Hst & ->)];
    [done|]. simpl.
  destruct (decide (staffId = id)) as [<-|Hne].
  - by rewrite lookup_insert_eq, Hst.
  - by rewrite lookup_insert_ne.
Qed.

(** A served edit stores the Telegram field of the form as the chat id
    too: whatever chat id the record had is gone, and with an empty field
    the staff member can no longer be reached over Telegram. *)
Theorem updateStaff_overwrites_chat_id env auth staffId name email phone level
    telegramUsername st s st' :
  updateStaff auth staffId name email phone level telegramUsername st
  = (Json s, st') →
  users st' !! staffId = Some s ∧
  Staff.telegramChatId s = Staff.telegramUsername s ∧
  Staff.telegramChatId s
  = Some (LevelResolver.orEmpty (orString telegramUsername None)) ∧
  (falsy telegramUsername = true →
   telegramReachable env st' staffId = false).
Proof.
  intros Hrun.
  destruct (updateStaff_cases auth staffId name email phone level
              telegramUsername st)
    as [(code & error & H & _)|(userId & staff & _ & _ & Hst & H)];
    cbv zeta in H; rewrite H in Hrun; [done|].
  injection Hrun as <- <-. simpl. rewrite lookup_insert_eq.
  split_and!; try done.
  intros Hf. unfold telegramReachable. simpl. rewrite lookup_insert_eq.
  unfold hasChatId. simpl.
  destruct telegramUsername as [v|]; simpl in *; [|done].
  by rewrite Hf.
Qed.

(** *** Deleting an event *)

(** An admin's deletion is always served, also when no such event is
    stored; it removes that event only, and afterwards every request that
    names the event is refused and changes nothing. *)
Theorem deleteEvent_then_requests_refused env st userId eventId :
  isAdmin st userId →
  ∃ st',
    deleteEvent (Authenticated userId) eventId st = (Json tt, st') ∧
    events st' = delete eventId (events st) ∧
    users st' = users st ∧ adjustments st' = adjustments st ∧
    ∀ c, callEvent c = eventId →
         ∃ code, outcome env c st' = (code, st', []) ∧ code ≠ 200.
Proof.
  intros Hadm. unfold deleteEvent. rewrite adminCheck_ok by done.
  eexists. split; [reflexivity|]. simpl. split_and!; try done.
  intros c Hc.
  destruct (RequestFacts.outcome_cases env c
              (set_events (delete eventId) st))
    as [(code & H & Hcode)|(st1 & tr1 & _ & _ & [e He] & _)]; [eauto|].
  simpl in He. by rewrite Hc, lookup_delete_eq in He.
Qed.

(** *** The adjustment log *)

(** Deleting a staff member keeps that member's adjustments; the log then
    lists each of them under the name Unknown Staff. *)
Theorem deleted_staff_stay_in_log st userId staffId staff :
  keyedById st → isAdmin st userId →
  users st !! staffId = Some staff → Staff.role staff ≠ Admin →
  ∃ st' transactions,
    deleteStaff (Authenticated userId) staffId st = (Json tt, st') ∧
    getAdjustments (Authenticated userId) st'
    = (Json ((map_to_list (adjustments st)).*2, transactions), st') ∧
    tx_id <$> transactions
    = Adjustment.id <$> (map_to_list (adjustments st)).*2 ∧
    ∀ tx, tx ∈ transactions → tx_staffId tx = staffId →
          tx_staffName tx = "Unknown Staff".
Proof.
  intros Hkey Hadm Hst Hrole.
  assert (Hne : userId ≠ staffId).
  { destruct Hadm as (u & Hu & Hr). intros ->. congruence. }
  eexists _, _. split; [by eapply deleteStaff_run|].
  unfold getAdjustments. rewrite adminCheck_ok.
  2: { destruct Hadm as (u & Hu & Hr). exists u. simpl.
       by rewrite lookup_delete_ne. }
  runS. split; [reflexivity|]. split.
  - rewrite <- list_fmap_compose. done.
  - intros tx Htx Hid. apply list_elem_of_fmap in Htx as (adj & -> & _).
    simpl in *. by rewrite Hid, lookup_delete_eq.
Qed.

End AdminFacts.

(** ** The level table *)

Module LevelsFacts.
Import Server Observe Requests Admin Levels LevelResolver ServerFacts.

Ltac runT :=
  unfold mbind, St_bind, mret, St_ret, refuse, kvLevels, kvGetLevel,
    kvSetLevel, kvDelLevel.

Lemma asAdmin_cases st auth (t : Table) :
  (∃ code error, asAdmin st auth t = (Error code error, t) ∧ code ≠ 200) ∨
  (∃ userId, auth = Authenticated userId ∧ isAdmin st userId ∧
             asAdmin st auth t = (Json userId, t)).
Proof.
  unfold asAdmin. destruct auth as [userId|error]; [|left; eexists _, _; by split].
  unfold mbind, M_bind. simpl.
  destruct (requireAdmin_decide st userId) as [[Hadm Hr]|Hr]; rewrite Hr;
    simpl.
  - right. by exists userId.
  - left. eexists _, _; by split.
Qed.

Lemma insertBy_perm {A} (cmp : A -> A -> Z) (x : A) (l : list A) :
  insertBy cmp x l ≡ₚ x :: l.
Proof.
  induction l as [|y l IH]; simpl; [done|].
  destruct (0 <? cmp x y); [|done].
  rewrite IH. apply Permutation_swap.
Qed.

Lemma sortBy_perm {A} (cmp : A -> A -> Z) (l : list A) : sortBy cmp l ≡ₚ l.
Proof.
  induction l as [|x l IH]; simpl; [done|].
  by rewrite insertBy_perm, IH.
Qed.

Lemma elem_of_getByPrefix (t : Table) (level : Level.t) :
  keyed t → level ∈ getByPrefix t ↔ t !! Level.id level = Some level.
Proof.
  intros Hk. unfold getByPrefix. rewrite list_elem_of_fmap. split.
  - intros ([k l] & -> & Hin%elem_of_map_to_list). simpl.
    by rewrite (Hk k l Hin).
  - intros Hl. exists (Level.id level, level). split; [done|].
    by apply elem_of_map_to_list.
Qed.

(** The four handlers keep every level under its own id. *)
Theorem levels_stay_keyed env st auth name minPoints levelId name' minPoints'
    levelId' direction t :
  keyed t →
  keyed (addLevel env st auth name minPoints t).2 ∧
  keyed (updateLevel st auth levelId name' minPoints' t).2 ∧
  keyed (deleteLevel st auth levelId t).2 ∧
  keyed (reorderLevel st auth levelId' direction t).2.
Proof.
  intros Hk.
  assert (Hins : ∀ level, keyed (<[Level.id level := level]> t)).
  { intros level k l. destruct (decide (Level.id level = k)) as [<-|Hne].
    - rewrite lookup_insert_eq. by intros [= <-].
    - rewrite lookup_insert_ne by done. apply Hk. }
  split_and!.
  - unfold addLevel. runT.
    destruct (asAdmin_cases st auth t) as [(c & e & -> & _)|(u & _ & _ & ->)];
      [done|].
    destruct (_ || _); [done|]. simpl. apply (Hins (Level.mk _ _ _ _)).
  - unfold updateLevel. runT.
    destruct (asAdmin_cases st auth t) as [(c & e & -> & _)|(u & _ & _ & ->)];
      [done|].
    destruct (t !! levelId) as [existing|] eqn:He; simpl; [|done].
    rewrite <- (Hk _ _ He). apply (Hins (Level.mk _ _ _ _)).
  - unfold deleteLevel. runT.
    destruct (asAdmin_cases st auth t) as [(c & e & -> & _)|(u & _ & _ & ->)];
      [done|].
    simpl. intros k l Hl. apply lookup_delete_Some in Hl as [_ Hl].
    by apply Hk.
  - unfold reorderLevel. runT.
    destruct (asAdmin_cases st auth t) as [(c & e & -> & _)|(u & _ & _ & ->)];
      [done|].
    destruct (_ || _); [done|].
    destruct (findIndex _ _) as [[i cur]|]; [|done].
    destruct (_ || _); [done|].
    destruct (_ !! _) as [other|]; [|done]. simpl.
    intros k l.
    destruct (decide (Level.id other = k)) as [<-|Hne].
    { rewrite lookup_insert_eq. by intros [= <-]. }
    rewrite lookup_insert_ne by done.
    destruct (decide (Level.id cur = k)) as [<-|Hne'].
    { rewrite lookup_insert_eq. by intros [= <-]. }
    rewrite lookup_insert_ne by done. apply Hk.
Qed.

(** *** Moving a level *)

Lemma NoDup_getByPrefix (t : gmap string Level.t) :
  keyed t → NoDup (getByPrefix t).
Proof.
  intros Hk. unfold getByPrefix.
  apply NoDup_fmap_2_strong; [|apply NoDup_map_to_list].
  intros [k1 l1] [k2 l2] H1%elem_of_map_to_list H2%elem_of_map_to_list.
  simpl. intros ->. by rewrite <- (Hk _ _ H1), <- (Hk _ _ H2).
Qed.

(** The values of a table in which two records were replaced. *)
Lemma getByPrefix_replace_two (t : gmap string Level.t) k1 k2 a b a' b' :
  k1 ≠ k2 → t !! k1 = Some a → t !! k2 = Some b →
  getByPrefix t ≡ₚ a :: b :: getByPrefix (delete k1 (delete k2 t)) ∧
  getByPrefix (<[k1 := a']> (<[k2 := b']> t))
  ≡ₚ a' :: b' :: getByPrefix (delete k1 (delete k2 t)).
Proof.
  intros Hne Ha Hb. unfold getByPrefix. split.
  - rewrite <- (map_to_list_delete t k2 b) by done.
    rewrite <- (map_to_list_delete (delete k2 t) k1 a)
      by (by rewrite lookup_delete_ne).
    simpl. apply Permutation_swap.
  - rewrite <- (insert_delete_eq (<[k2 := b']> t)).
    rewrite map_to_list_insert by apply lookup_delete_eq.
    rewrite delete_insert_ne by done.
    rewrite <- (insert_delete_eq (delete k1 t) k2).
    rewrite map_to_list_insert by apply lookup_delete_eq.
    by rewrite (delete_delete t k2 k1).
Qed.

Lemma lookup_swapped (t : gmap string Level.t) a b k :
  t !! Level.id a = Some a → t !! Level.id b = Some b →
  Level.id a ≠ Level.id b →
  let t' := <[Level.id a := with_order (Level.order b) a]>
              (<[Level.id b := with_order (Level.order a) b]> t) in
  Level.order <$> t' !! k
  = Level.order <$>
      t !! (if decide (k = Level.id a) then Level.id b
            else if decide (k = Level.id b) then Level.id a else k).
Proof.
  intros Ha Hb Hne. simpl.
  destruct (decide (k = Level.id a)) as [->|Hka].
  { by rewrite lookup_insert_eq, Hb. }
  rewrite lookup_insert_ne by done.
  destruct (decide (k = Level.id b)) as [->|Hkb].
  { by rewrite lookup_insert_eq, Ha. }
  by rewrite lookup_insert_ne.
Qed.

Lemma ordersDistinct_swapped (t : gmap string Level.t) a b :
  ordersDistinct t →
  t !! Level.id a = Some a → t !! Level.id b = Some b →
  Level.id a ≠ Level.id b →
  ordersDistinct (<[Level.id a := with_order (Level.order b) a]>
                    (<[Level.id b := with_order (Level.order a) b]> t)).
Proof.
  intros Hd Ha Hb Hne k1 k2 l1 l2 H1 H2 Ho.
  pose proof (lookup_swapped t a b k1 Ha Hb Hne) as E1.
  pose proof (lookup_swapped t a b k2 Ha Hb Hne) as E2.
  simpl in E1, E2. rewrite H1 in E1. rewrite H2 in E2. simpl in *.
  set (s1 := if decide (k1 = Level.id a) then Level.id b
             else if decide (k1 = Level.id b) then Level.id a else k1) in *.
  set (s2 := if decide (k2 = Level.id a) then Level.id b
             else if decide (k2 = Level.id b) then Level.id a else k2) in *.
  destruct (t !! s1) as [m1|] eqn:M1; [|done].
  destruct (t !! s2) as [m2|] eqn:M2; [|done].
  simpl in *. injection E1 as E1. injection E2 as E2.
  assert (Hs : s1 = s2) by (eapply Hd; eauto; congruence).
  subst s1 s2. repeat case_decide; congruence.
Qed.

(** In a table keyed by id whose orders are all different, replacing two
    records that are neighbours in the listing by order with copies that
    carry each other's order makes them trade places in that listing. *)
Lemma sortBy_swapped (t : gmap string Level.t) l1 a b l2 :
  keyed t → ordersDistinct t →
  sortBy byOrderAsc (getByPrefix t) = l1 ++ a :: b :: l2 →
  Level.id a ≠ Level.id b ∧
  t !! Level.id a = Some a ∧ t !! Level.id b = Some b ∧
  sortBy byOrderAsc
    (getByPrefix (<[Level.id a := with_order (Level.order b) a]>
                    (<[Level.id b := with_order (Level.order a) b]> t)))
  = l1 ++ with_order (Level.order a) b :: with_order (Level.order b) a :: l2.
Proof.
  intros Hk Hd Hs.
  set (s := sortBy byOrderAsc (getByPrefix t)) in *.
  assert (Hperm : s ≡ₚ getByPrefix t) by apply sortBy_perm.
  assert (Hnd : NoDup s) by (rewrite Hperm; by apply NoDup_getByPrefix).
  assert (Ha : t !! Level.id a = Some a).
  { apply elem_of_getByPrefix; [done|]. rewrite <- Hperm, Hs.
    apply elem_of_app. right. left. }
  assert (Hb : t !! Level.id b = Some b).
  { apply elem_of_getByPrefix; [done|]. rewrite <- Hperm, Hs.
    apply elem_of_app. right. right. left. }
  assert (Hne : Level.id a ≠ Level.id b).
  { intros Heq. rewrite Heq, Hb in Ha. injection Ha as ->.
    rewrite Hs in Hnd. apply NoDup_app in Hnd as (_ & _ & Hnd).
    apply NoDup_cons in Hnd as [Hnd _]. apply Hnd. left. }
  split_and!; try done.
  set (a' := with_order (Level.order b) a).
  set (b' := with_order (Level.order a) b).
  set (t' := <[Level.id a := a']> (<[Level.id b := b']> t)).
  destruct (getByPrefix_replace_two t (Level.id a) (Level.id b) a b a' b')
    as [Hold Hnew]; try done.
  fold t' in Hnew.
  set (rest := getByPrefix (delete (Level.id a) (delete (Level.id b) t))) in *.
  assert (Hrest : l1 ++ l2 ≡ₚ rest).
  { apply (Permutation_cons_inv (a:=b)), (Permutation_cons_inv (a:=a)).
    rewrite <- Hold, <- Hperm, Hs.
    by rewrite !Permutation_middle. }
  assert (Hk' : keyed t').
  { intros k l. subst t'.
    destruct (decide (Level.id a = k)) as [<-|Hna].
    { rewrite lookup_insert_eq. by intros [= <-]. }
    rewrite lookup_insert_ne by done.
    destruct (decide (Level.id b = k)) as [<-|Hnb].
    { rewrite lookup_insert_eq. by intros [= <-]. }
    rewrite lookup_insert_ne by done. apply Hk. }
  assert (Hd' : ordersDistinct t') by by apply ordersDistinct_swapped.
  apply StronglySorted_unique_strong
    with (R := fun x y => Level.order x ≤ Level.order y).
  - intros x1 x2 Hx1 Hx2 Hle1 Hle2.
    assert (H1 : t' !! Level.id x1 = Some x1).
    { apply elem_of_getByPrefix; [done|]. by rewrite <- (sortBy_perm byOrderAsc). }
    assert (H2 : t' !! Level.id x2 = Some x2).
    { apply elem_of_getByPrefix; [done|]. rewrite Hnew, <- Hrest.
      revert Hx2. rewrite !elem_of_app, !elem_of_cons, elem_of_app. tauto. }
    assert (Hid : Level.id x1 = Level.id x2) by (eapply Hd'; eauto; lia).
    rewrite Hid, H2 in H1. by injection H1.
  - apply (LevelResolverFacts.sortBy_sorted byOrderAsc Level.order).
    by intros.
  - assert (Hsorted : StronglySorted
              (fun x y => Level.order x ≤ Level.order y) s).
    { apply (LevelResolverFacts.sortBy_sorted byOrderAsc Level.order).
      by intros. }
    rewrite Hs in Hsorted.
    apply StronglySorted_app in Hsorted as (Hcross & Hs1 & Hs2).
    apply StronglySorted_app. split_and!; [|done|].
    + intros x1 x2 Hx1 Hx2.
      rewrite !elem_of_cons in Hx2.
      destruct Hx2 as [->|[->|Hx2]]; simpl.
      * apply (Hcross x1 a); [done|left].
      * apply (Hcross x1 b); [done|right; left].
      * apply (Hcross x1 x2); [done|by right; right].
    + inversion Hs2 as [|? ? Hs3 Hfa]; subst.
      inversion Hs3 as [|? ? Hs4 Hfb]; subst.
      apply Forall_cons in Hfa as [Hab Hfa].
      constructor; [constructor; [done|]|].
      * simpl. eapply Forall_impl; [exact Hfb|]. done.
      * constructor; [simpl; lia|]. simpl.
        eapply Forall_impl; [exact Hfa|]. done.
  - rewrite sortBy_perm, Hnew, <- Hrest.
    rewrite <- !Permutation_middle. apply Permutation_swap.
Qed.

Lemma split_two {A} (s : list A) (j : nat) (a b : A) :
  s !! j = Some a → s !! S j = Some b →
  s = take j s ++ a :: b :: drop (S (S j)) s.
Proof.
  intros Ha Hb. rewrite <- (take_drop_middle s j a Ha) at 1.
  by rewrite (drop_S s b (S j) Hb).
Qed.

(** In a table keyed by id whose orders are all different, a served
    reorder makes the level and its neighbour trade places in the listing
    by order: up moves the level one place towards the front, down one
    place towards the back, and every other level stays where it is. *)
Theorem reorderLevel_swaps_neighbours st auth levelId direction t r t' :
  keyed t → ordersDistinct t →
  reorderLevel st auth levelId direction t = (Json r, t') →
  ∃ l1 a b l2,
    sortBy byOrderAsc (getByPrefix t) = l1 ++ a :: b :: l2 ∧
    (direction = Some "up" ∧ Level.id b = orEmpty levelId ∨
     direction = Some "down" ∧ Level.id a = orEmpty levelId) ∧
    sortBy byOrderAsc (getByPrefix t')
    = l1 ++ with_order (Level.order a) b
         :: with_order (Level.order b) a :: l2 ∧
    r = getByPrefix t' ∧ ordersDistinct t'.
Proof.
  intros Hk Hd. unfold reorderLevel. runT.
  destruct (asAdmin_cases st auth t) as [(c & e & -> & _)|(u & _ & _ & ->)];
    [done|].
  destruct (falsy levelId) eqn:Hl; [done|].
  destruct (falsy direction) eqn:Hdir; [done|].
  apply AdminFacts.falsy_false in Hdir as (d & -> & _).
  set (s := sortBy byOrderAsc (getByPrefix t)).
  cbn [orEmpty orb].
  destruct (String.eqb d "up") eqn:Hup; cbn [negb andb orb].
  - apply String.eqb_eq in Hup as ->. fold s.
    destruct (findIndex _ s) as [[i cur]|] eqn:Hfind; [|done].
    apply list_find_Some in Hfind as (Hi & Hid & _).
    destruct i as [|j]; [done|]. simpl.
    rewrite Nat.sub_0_r.
    destruct (s !! j) as [other|] eqn:Hj; [|done]. simpl.
    intros [= <- <-].
    pose proof (split_two s j other cur Hj Hi) as Hs.
    destruct (sortBy_swapped t _ _ _ _ Hk Hd Hs) as (Hne & Ha & Hb & Hnew).
    eexists _, _, _, _. split; [exact Hs|]. split; [by left|].
    split; [exact Hnew|]. split; [done|].
    by apply ordersDistinct_swapped.
  - destruct (String.eqb d "down") eqn:Hdown; [|done].
    apply String.eqb_eq in Hdown as ->. cbn [negb andb orb]. fold s.
    destruct (findIndex _ s) as [[i cur]|] eqn:Hfind; [|done].
    apply list_find_Some in Hfind as (Hi & Hid & _).
    destruct (S i =? length s)%nat; [done|].
    rewrite Nat.add_1_r.
    destruct (s !! S i) as [other|] eqn:Hj; [|done]. simpl.
    intros [= <- <-].
    pose proof (split_two s i cur other Hi Hj) as Hs.
    destruct (sortBy_swapped t _ _ _ _ Hk Hd Hs) as (Hne & Ha & Hb & Hnew).
    rewrite insert_insert_ne by done.
    eexists _, _, _, _. split; [exact Hs|]. split; [by right|].
    split; [exact Hnew|]. split; [done|].
    by apply ordersDistinct_swapped.
Qed.

(** *** Adding a level *)

Lemma length_getByPrefix (t : gmap string Level.t) :
  length (getByPrefix t) = size t.
Proof. unfold getByPrefix. by rewrite length_fmap, length_map_to_list. Qed.

Lemma addLevel_served env st auth name minPoints t level t' :
  addLevel env st auth name minPoints t = (Json level, t') →
  ∃ v p, name = Some v ∧ v ≠ EmptyString ∧ minPoints = Some p ∧
         level = Level.mk (pretty (now env)) v p (Z.of_nat (size t)) ∧
         t' = <[pretty (now env) := level]> t.
Proof.
  unfold addLevel. runT.
  destruct (asAdmin_cases st auth t) as [(c & e & -> & _)|(u & _ & _ & ->)];
    [done|].
  destruct (falsy name) eqn:Hn; [done|].
  destruct minPoints as [p|]; [|done]. simpl.
  apply AdminFacts.falsy_false in Hn as (v & -> & Hv).
  rewrite length_getByPrefix. intros [= <- <-]. by exists v, p.
Qed.

(** A new level gets the number of levels as its order; when the orders
    were [0 .. n - 1] and the id is new they are [0 .. n] afterwards. *)
Theorem addLevel_keeps_orders_dense env st auth name minPoints t level t' :
  ordersDense t → t !! pretty (now env) = None →
  addLevel env st auth name minPoints t = (Json level, t') →
  Level.order level = Z.of_nat (size t) ∧
  t' !! Level.id level = Some level ∧
  size t' = S (size t) ∧ ordersDense t'.
Proof.
  intros Hdense Hfresh Hrun.
  destruct (addLevel_served _ _ _ _ _ _ _ _ Hrun)
    as (v & p & -> & Hv & -> & -> & ->). simpl.
  split; [done|]. split; [by rewrite lookup_insert_eq|].
  split; [by apply map_size_insert_None|].
  unfold ordersDense, getByPrefix in *.
  rewrite map_size_insert_None by done.
  rewrite map_to_list_insert by done.
  rewrite seq_S, fmap_app, fmap_cons. simpl.
  rewrite Hdense. by rewrite <- Permutation_cons_append.
Qed.

(** After a level that does not have the largest order is deleted from a
    table with orders [0 .. n - 1], the next level added gets an order
    that a stored level already has. *)
Theorem addLevel_after_delete_repeats_order env st userId levelId gone name
    minPoints t level t' :
  isAdmin st userId → ordersDense t →
  t !! levelId = Some gone → Level.order gone < Z.of_nat (size t) - 1 →
  levelId ≠ pretty (now env) → t !! pretty (now env) = None →
  addLevel env st (Authenticated userId) name minPoints
           (deleteLevel st (Authenticated userId) levelId t).2
  = (Json level, t') →
  ∃ k other, k ≠ Level.id level ∧ t' !! k = Some other ∧
             t' !! Level.id level = Some level ∧
             Level.order other = Level.order level.
Proof.
  intros Hadm Hdense Hgone Hlt Hne Hfresh.
  assert (Hdel : (deleteLevel st (Authenticated userId) levelId t).2
                 = delete levelId t).
  { unfold deleteLevel. runT.
    destruct (asAdmin_cases st (Authenticated userId) t)
      as [(c & e & H & _)|(u & _ & _ & ->)]; [|done].
    exfalso. revert H. unfold asAdmin, mbind, M_bind. simpl.
    by rewrite requireAdmin_ok. }
  rewrite Hdel. intros Hrun.
  destruct (addLevel_served _ _ _ _ _ _ _ _ Hrun)
    as (v & p & -> & Hv & -> & -> & ->). simpl.
  assert (Hsize : size t = S (size (delete levelId t))).
  { rewrite <- (insert_id t levelId gone Hgone) at 1.
    rewrite <- insert_delete_eq.
    apply map_size_insert_None, lookup_delete_eq. }
  set (n := size (delete levelId t)) in *.
  assert (Hin : Z.of_nat n ∈ Level.order <$> getByPrefix t).
  { unfold ordersDense in Hdense. rewrite Hdense, Hsize. apply list_elem_of_fmap. exists n.
    split; [done|]. apply elem_of_seq. lia. }
  apply list_elem_of_fmap in Hin as (other & Ho & Hin).
  unfold getByPrefix in Hin.
  apply list_elem_of_fmap in Hin as ([k other'] & -> & Hin%elem_of_map_to_list).
  simpl in *. exists k, other'.
  assert (k ≠ levelId).
  { intros ->. rewrite Hgone in Hin. injection Hin as <-. lia. }
  assert (k ≠ pretty (now env)) by congruence.
  split_and!; try done.
  - rewrite lookup_insert_ne by done. by rewrite lookup_delete_ne.
  - by rewrite lookup_insert_eq.
Qed.

End LevelsFacts.

(** ** What the screens compute *)

Module ScreensFacts.
Import Server Observe Engine Requests Screens LevelResolver ServerFacts.
Import LevelResolverFacts.

(** The level [calculateLevel] answers with, when there are levels: one of
    greatest [minPoints] among those the points reach, or one of smallest
    order when the points reach none. *)
Lemma calculateLevel_pick (levels : list Level.t) (points : Z) :
  levels ≠ [] →
  ∃ l, l ∈ levels ∧ calculateLevel levels points = Level.name l ∧
       ((Level.minPoints l ≤ points ∧
         ∀ l', l' ∈ levels → Level.minPoints l' ≤ points →
               Level.minPoints l' ≤ Level.minPoints l) ∨
        ((∀ l', l' ∈ levels → points < Level.minPoints l') ∧
         ∀ l', l' ∈ levels → Level.order l ≤ Level.order l')).
Proof.
  intros Hne.
  assert (Hdesc : StronglySorted
            (fun a b => - Level.minPoints a ≤ - Level.minPoints b)
            (sortBy byMinPointsDesc levels)).
  { apply (sortBy_sorted byMinPointsDesc (fun l => - Level.minPoints l)).
    intros a b. unfold byMinPointsDesc. lia. }
  destruct (find (qualifies points) (sortBy byMinPointsDesc levels))
    as [best|] eqn:Hbest.
  - destruct (find_sorted_least _ _ _ _ Hdesc Hbest) as (Hin & Hf & Hmin).
    apply elem_of_sortBy in Hin. apply Z.leb_le in Hf.
    exists best. split; [done|]. split.
    { unfold calculateLevel. destruct levels; [done|]. by rewrite Hbest. }
    left. split; [done|]. intros l' Hl' Hq.
    assert (- Level.minPoints best ≤ - Level.minPoints l'); [|lia].
    apply Hmin; [by apply elem_of_sortBy|by apply Z.leb_le].
  - assert (Hasc : StronglySorted
              (fun a b => Level.order a ≤ Level.order b)
              (sortBy byOrderAsc (sortBy byMinPointsDesc levels))).
    { by apply (sortBy_sorted byOrderAsc Level.order). }
    destruct (sortBy byOrderAsc (sortBy byMinPointsDesc levels))
      as [|lowest rest] eqn:Es.
    { by apply sortBy_nil_inv, sortBy_nil_inv in Es. }
    destruct (head_sorted_least _ _ _ Hasc eq_refl) as (Hin & Hmin).
    rewrite <- Es in Hin, Hmin.
    exists lowest. split; [by apply elem_of_sortBy, elem_of_sortBy in Hin|].
    split.
    { unfold calculateLevel. destruct levels; [done|].
      by rewrite Hbest, Es. }
    right. split.
    + intros l' Hl'.
      pose proof (find_none_all (qualifies points) _ Hbest l') as Hn.
      rewrite elem_of_sortBy in Hn. specialize (Hn Hl').
      unfold qualifies in Hn. by apply Z.leb_gt in Hn.
    + intros l' Hl'. apply Hmin. by apply elem_of_sortBy, elem_of_sortBy.
Qed.

Lemma findByName_Some sortedLevels name l :
  findByName sortedLevels name = Some l →
  l ∈ sortedLevels ∧ Level.name l = name.
Proof.
  unfold findByName. intros [Hin Hn]%find_some.
  split; [by apply list_elem_of_In|by apply String.eqb_eq].
Qed.

Lemma findByName_unique levels l :
  namesDistinct levels → l ∈ levels →
  findByName (sortBy byOrderAsc levels) (Level.name l) = Some l.
Proof.
  intros Hnames Hl.
  destruct (findByName (sortBy byOrderAsc levels) (Level.name l))
    as [l'|] eqn:Hfind.
  - apply findByName_Some in Hfind as [Hin Hn].
    apply elem_of_sortBy in Hin. f_equal. by apply Hnames.
  - unfold findByName in Hfind.
    pose proof (find_none _ _ Hfind l) as Hn. simpl in Hn.
    rewrite String.eqb_refl in Hn.
    assert (true = false); [|done]. apply Hn.
    by apply list_elem_of_In, elem_of_sortBy.
Qed.

(** When level names are distinct and a level that asks for more points
    never comes earlier in the order, a staff member whose level follows
    the points loses sight of no event by earning points. *)
Theorem more_points_never_fewer_events levels event points points' :
  namesDistinct levels → ordersFollowPoints levels →
  points ≤ points' →
  canAccessEvent levels (calculateLevel levels points) event = true →
  canAccessEvent levels (calculateLevel levels points') event = true.
Proof.
  intros Hnames Hfollow Hle.
  destruct (decide (levels = [])) as [->|Hne]; [done|].
  destruct (calculateLevel_pick levels points Hne)
    as (l & Hl & -> & Hcase).
  destruct (calculateLevel_pick levels points' Hne)
    as (l' & Hl' & -> & Hcase').
  unfold canAccessEvent.
  rewrite !findByName_unique by done.
  destruct (findByName _ (Event.requiredLevel event)) as [req|]; [|done].
  rewrite !Z.leb_le. intros Hreq.
  assert (Level.order l ≤ Level.order l'); [|lia].
  destruct Hcase as [[Hq Hmax]|[Hnone Hlow]]; [|by apply Hlow].
  destruct Hcase' as [[Hq' Hmax']|[Hnone' _]].
  - apply Hfollow; [done..|]. apply Hmax'; [done|lia].
  - specialize (Hnone' l Hl). lia.
Qed.

(** A staff member with a level is notified of a new event exactly when
    the event list lets that staff member open it. *)
Theorem notified_iff_can_access levels event eventLevel staff :
  findByName (sortBy byOrderAsc levels) (Event.requiredLevel event)
  = Some eventLevel →
  Staff.level staff ≠ EmptyString →
  canAccess (sortBy byOrderAsc levels) eventLevel staff
  = canAccessEvent levels (Staff.level staff) event.
Proof.
  intros Hev Hlevel%isEmpty_false. unfold canAccess, canAccessEvent.
  rewrite Hlevel, Hev.
  by destruct (findByName _ (Staff.level staff)).
Qed.

(** The count the staffing overview shows is the number of ids confirm-all
    will mark: the request is refused with 400 exactly when the count is
    zero, and a served request reports the count. *)
Theorem unconfirmed_count_decides_confirmAll env st userId eventId event :
  isAdmin st userId → eventId ≠ EmptyString →
  events st !! eventId = Some event →
  (getUnconfirmedCount event = 0%nat ↔
   confirmAll env (Authenticated userId) eventId st
   = (Error 400 "No staff members awaiting point confirmation", st, [])) ∧
  ∀ r st' tr,
    confirmAll env (Authenticated userId) eventId st = (Json r, st', tr) →
    ca_confirmedCount r = getUnconfirmedCount event.
Proof.
  intros Hadm Hid%isEmpty_false Hev.
  assert (Hcount : getUnconfirmedCount event
                   = length (without (confirmed event) (awarded event)))
    by done.
  split.
  - rewrite Hcount. split.
    + intros Hz%nil_length_inv.
      unfold confirmAll, kvGetEvent. run.
      rewrite requireAdmin_ok by done. simpl. rewrite Hid. simpl.
      rewrite Hev. simpl. fold (confirmed event) (awarded event).
      by rewrite Hz.
    + intros Hrun.
      destruct (without (confirmed event) (awarded event)) eqn:Hw; [done|].
      destruct (RequestFacts.confirmAll_shape env (Authenticated userId)
                  eventId st)
        as [(c & e & H & _)|(u & e & a & st' & tr & _ & _ & _ & H & _)];
        rewrite H in Hrun; [|done].
      exfalso. revert H. unfold confirmAll, kvGetEvent. run.
      rewrite requireAdmin_ok by done. simpl. rewrite Hid. simpl.
      rewrite Hev. simpl. fold (confirmed event) (awarded event).
      rewrite Hw.
      destruct (RequestFacts.awardLoop_store env event eventId userId
                  (s :: l) ([], [], []) st)
        as (acc' & st1 & tr1 & -> & _). done.
  - intros r st' tr Hrun.
    destruct (RequestFacts.confirmAll_served env _ _ _ _ _ _ Hrun)
      as (u & e & _ & _ & _ & He & _ & _ & _ & Hc & _).
    rewrite Hev in He. injection He as <-. by rewrite Hc, Hcount.
Qed.

End ScreensFacts.

(** ** Date strings *)

Module DateUtilsFacts.
Import Server DateUtils ServerFacts.

Lemma split_noSep sep s : noSep sep s → split sep s = [s].
Proof.
  unfold noSep. induction s as [|c s IH]; simpl; [done|].
  rewrite Forall_cons. intros [Hc Hs].
  destruct (Ascii.eqb_spec c sep) as [|_]; [done|]. by rewrite IH.
Qed.

Lemma split_app sep a rest :
  noSep sep a → split sep (a +:+ String sep rest) = a :: split sep rest.
Proof.
  unfold noSep. induction a as [|c a IH]; simpl.
  - intros _. by rewrite Ascii.eqb_refl.
  - rewrite Forall_cons. intros [Hc Ha].
    destruct (Ascii.eqb_spec c sep) as [|_]; [done|]. by rewrite IH.
Qed.

Lemma isEmpty_app a c rest : isEmpty (a +:+ String c rest) = false.
Proof. by destruct a. Qed.

Lemma formatDateToYYYYMMDD_parts day month year :
  noSep "/" day → noSep "/" month → noSep "/" year →
  formatDateToYYYYMMDD (day +:+ "/" +:+ month +:+ "/" +:+ year)
  = year +:+ "-" +:+ month +:+ "-" +:+ day.
Proof.
  intros Hd Hm Hy. unfold formatDateToYYYYMMDD.
  change (day +:+ "/" +:+ month +:+ "/" +:+ year)
    with (day +:+ String "/" (month +:+ String "/" year)).
  rewrite isEmpty_app.
  by rewrite !split_app, split_noSep.
Qed.

Lemma formatDateToDDMMYYYY_parts day month year :
  noSep "-" day → noSep "-" month → noSep "-" year →
  formatDateToDDMMYYYY (year +:+ "-" +:+ month +:+ "-" +:+ day)
  = day +:+ "/" +:+ month +:+ "/" +:+ year.
Proof.
  intros Hd Hm Hy. unfold formatDateToDDMMYYYY.
  change (year +:+ "-" +:+ month +:+ "-" +:+ day)
    with (year +:+ String "-" (month +:+ String "-" day)).
  rewrite isEmpty_app.
  by rewrite !split_app, split_noSep.
Qed.

(** On three parts that contain neither separator the two conversions
    are inverse to each other. *)
Theorem date_formats_are_inverse day month year :
  noSep "/" day → noSep "/" month → noSep "/" year →
  noSep "-" day → noSep "-" month → noSep "-" year →
  formatDateToDDMMYYYY
    (formatDateToYYYYMMDD (day +:+ "/" +:+ month +:+ "/" +:+ year))
  = day +:+ "/" +:+ month +:+ "/" +:+ year ∧
  formatDateToYYYYMMDD
    (formatDateToDDMMYYYY (year +:+ "-" +:+ month +:+ "-" +:+ day))
  = year +:+ "-" +:+ month +:+ "-" +:+ day.
Proof.
  intros. split.
  - by rewrite formatDateToYYYYMMDD_parts, formatDateToDDMMYYYY_parts.
  - by rewrite formatDateToDDMMYYYY_parts, formatDateToYYYYMMDD_parts.
Qed.

Lemma isDigit_noSep c :
  isDigit c = true → c ≠ "/"%char ∧ c ≠ "-"%char.
Proof. intros Hc. split; intros ->; done. Qed.

(** A date that passes the validation is ten characters, two digits, two
    digits and four digits around two slashes, with a month from 1 to 12,
    a day the month has and a year from 1900 to 2099; converting it to
    the other format and back gives the same string. *)
Theorem valid_dates_convert s :
  isValidDDMMYYYY s = true →
  ∃ day month year,
    s = day +:+ "/" +:+ month +:+ "/" +:+ year ∧
    String.length day = 2%nat ∧ String.length month = 2%nat ∧
    String.length year = 4%nat ∧
    1900 ≤ parseInt year ≤ 2099 ∧ 1 ≤ parseInt month ≤ 12 ∧
    1 ≤ parseInt day ≤ daysInMonth (parseInt year) (parseInt month) ∧
    formatDateToYYYYMMDD s = year +:+ "-" +:+ month +:+ "-" +:+ day ∧
    formatDateToDDMMYYYY (formatDateToYYYYMMDD s) = s.
Proof.
  pose proof (string_of_list_ascii_of_string s) as Hs.
  unfold isValidDDMMYYYY, matchDDMMYYYY.
  destruct (list_ascii_of_string s)
    as [|d1 [|d2 [|s1 [|m1 [|m2 [|s2 [|y1 [|y2 [|y3 [|y4 [|? ?]]]]]]]]]]];
    try done.
  simpl in Hs. subst s.
  destruct (forallb isDigit _ && _ && _) eqn:Hm; [|done].
  apply andb_true_iff in Hm as [[Hdig ->%Ascii.eqb_eq]%andb_true_iff
                                 ->%Ascii.eqb_eq].
  simpl in Hdig. repeat (apply andb_true_iff in Hdig as [?%isDigit_noSep Hdig]).
  set (day := string_of_list_ascii [d1; d2]).
  set (month := string_of_list_ascii [m1; m2]).
  set (year := string_of_list_ascii [y1; y2; y3; y4]).
  destruct (_ || _) eqn:Hy; [done|].
  destruct ((parseInt month <? 1) || _) eqn:Hmo; [done|].
  destruct ((parseInt day <? 1) || _) eqn:Hd; [done|]. intros _.
  apply orb_false_iff in Hy as [?%Z.ltb_ge ?%Z.ltb_ge].
  apply orb_false_iff in Hmo as [?%Z.ltb_ge ?%Z.ltb_ge].
  apply orb_false_iff in Hd as [?%Z.ltb_ge ?%Z.ltb_ge].
  exists day, month, year.
  assert (Hsep : ∀ c, noSep c day ∧ noSep c month ∧ noSep c year ↔
                    Forall (fun x => x ≠ c)
                           [d1; d2; m1; m2; y1; y2; y3; y4]).
  { intros c. unfold noSep. subst day month year. simpl.
    rewrite !Forall_cons, !Forall_nil. tauto. }
  assert (Hslash : noSep "/" day ∧ noSep "/" month ∧ noSep "/" year).
  { apply Hsep. repeat (constructor; [tauto|]). constructor. }
  assert (Hdash : noSep "-" day ∧ noSep "-" month ∧ noSep "-" year).
  { apply Hsep. repeat (constructor; [tauto|]). constructor. }
  change (String d1 _) with (day +:+ "/" +:+ month +:+ "/" +:+ year).
  split_and!; try done; try lia.
  - apply formatDateToYYYYMMDD_parts; tauto.
  - rewrite formatDateToYYYYMMDD_parts, formatDateToDDMMYYYY_parts; tauto.
Qed.

End DateUtilsFacts.
